(** * pixi-ease-container: the tween session (easing.ts) and the tween group (ease.ts)

    A shallow embedding of the two source files and the properties of
    their specification.

    JavaScript numbers are modelled as real numbers, with one extra value
    for NaN where the code can produce it; infinities and rounding are not
    modelled.  Objects with identity (display elements, sessions) live in
    stores indexed by natural numbers. *)

From Stdlib Require Import Reals Lra Lia ZArith List String Bool.
Import ListNotations.

Open Scope R_scope.
Open Scope string_scope.
Open Scope list_scope.

(** ** JavaScript values and numeric helpers *)

Module Js.

(** The values the engine reads from and writes to elements and bindings:
    [VPt] is an object with fields [x] and [y], [VArr] an array of numbers. *)
Inductive value :=
| VUndef
| VBool (b : bool)
| VNum (r : R)
| VNaN
| VPt (x y : value)
| VArr (l : list R).

(** ToNumber; [None] stands for NaN. *)
Definition to_number (v : value) : option R :=
  match v with
  | VUndef => None
  | VBool true => Some 1
  | VBool false => Some 0
  | VNum r => Some r
  | VNaN => None
  | VPt _ _ => None
  | VArr [] => Some 0
  | VArr [r] => Some r
  | VArr _ => None
  end.

Definition of_number (o : option R) : value :=
  match o with
  | Some r => VNum r
  | None => VNaN
  end.

Definition lift2 (f : R -> R -> R) (a b : value) : value :=
  match to_number a, to_number b with
  | Some x, Some y => VNum (f x y)
  | _, _ => VNaN
  end.

(** [a - b], unary [-a], and [a + b] on numeric operands (the operands of
    [+] in the source are numbers or undefined). *)
Definition vsub : value -> value -> value := lift2 Rminus.
Definition vadd : value -> value -> value := lift2 Rplus.
Definition vneg (a : value) : value := of_number (option_map Ropp (to_number a)).

Definition Rnonzero (r : R) : bool := if Req_dec_T r 0 then false else true.
Definition Rgtb (a b : R) : bool := if Rgt_dec a b then true else false.
Definition Rgeb (a b : R) : bool := if Rge_dec a b then true else false.

Definition truthy (v : value) : bool :=
  match v with
  | VUndef => false
  | VBool b => b
  | VNum r => Rnonzero r
  | VNaN => false
  | VPt _ _ => true
  | VArr _ => true
  end.

(** Property reads [v.x], [v.y]: undefined on anything but a point object
    (a read on undefined throws in the source; exceptions are not
    modelled, and the properties below that depend on such a read assume a
    point object). *)
Definition get_x (v : value) : value :=
  match v with VPt x _ => x | _ => VUndef end.
Definition get_y (v : value) : value :=
  match v with VPt _ y => y | _ => VUndef end.

(** Property writes [v.x = a], [v.y = a] on a point object; on anything
    else the value is left as it is. *)
Definition set_x (v a : value) : value :=
  match v with VPt _ y => VPt a y | _ => v end.
Definition set_y (v a : value) : value :=
  match v with VPt x _ => VPt x a | _ => v end.

(** Truncation toward zero, and the remainder operator [a % n], whose
    result has the sign of the dividend. *)
Definition Rtrunc (x : R) : Z := if Rle_dec 0 x then Zfloor x else Zceil x.
Definition js_rem (a n : R) : R := a - n * IZR (Rtrunc (a / n)).

(** [Math.atan2(y, x)]. *)
Definition atan2 (y x : R) : R :=
  if Rgt_dec x 0 then atan (y / x)
  else if Rlt_dec x 0 then
         if Rge_dec y 0 then atan (y / x) + PI else atan (y / x) - PI
  else if Rgt_dec y 0 then PI / 2
  else if Rlt_dec y 0 then - (PI / 2)
  else 0.

(** ToInt32 and the 32-bit operators used on packed colours. *)
Definition wrap32 (z : Z) : Z := ((z + 2 ^ 31) mod 2 ^ 32 - 2 ^ 31)%Z.
Definition to_int32 (v : value) : Z :=
  match to_number v with
  | Some r => wrap32 (Rtrunc r)
  | None => 0%Z
  end.
Definition shr32 (a n : Z) : Z := Z.shiftr a n.
Definition shl32 (a n : Z) : Z := wrap32 (Z.shiftl a n).

(** Array read [l[i]]; [None] is a NaN index. *)
Definition js_index (l : list value) (i : option Z) : value :=
  match i with
  | Some z => if (z <? 0)%Z then VUndef else nth (Z.to_nat z) l VUndef
  | None => VUndef
  end.

(** [l.indexOf(x)] on a list of object identities, and [l.splice(i, 1)]
    with the negative-index rule of [Array.prototype.splice]. *)
Fixpoint indexOf (x : nat) (l : list nat) : Z :=
  match l with
  | [] => (-1)%Z
  | y :: r => if Nat.eqb y x then 0%Z
              else let i := indexOf x r in
                   if (i <? 0)%Z then (-1)%Z else (i + 1)%Z
  end.

Fixpoint remove_nth {A} (n : nat) (l : list A) : list A :=
  match l, n with
  | [], _ => []
  | _ :: r, O => r
  | a :: r, S m => a :: remove_nth m r
  end.

Definition splice1 {A} (i : Z) (l : list A) : list A :=
  let len := Z.of_nat (List.length l) in
  let st := if (i <? 0)%Z then Z.max (len + i) 0 else Z.min i len in
  remove_nth (Z.to_nat st) l.

End Js.
Import Js.

(** ** Elements: the display objects the engine mutates *)

(** A display element is a table of named fields; [scale] and [skew] hold
    point objects, [_destroyed] the liveness flag. *)
Definition element := string -> value.

Definition elements := nat -> element.

Definition field_set (f : element) (k : string) (v : value) : element :=
  fun k' => if String.eqb k' k then v else f k'.

Definition set_field (els : elements) (e : nat) (k : string) (v : value) : elements :=
  fun e' => if Nat.eqb e' e then field_set (els e) k v else els e'.

(** The mutable surroundings of a session: the elements, and the source of
    [Math.random()] with the number of draws made so far. *)
Record world := mkWorld {
  elems : elements;
  random : nat -> R;
  drawn : nat
}.

Definition write (w : world) (e : nat) (k : string) (v : value) : world :=
  mkWorld (set_field (elems w) e k v) (random w) (drawn w).

Definition read (w : world) (e : nat) (k : string) : value := elems w e k.

(** One call of [Math.random()]. *)
Definition draw (w : world) : R * world :=
  (random w (drawn w), mkWorld (elems w) (random w) (S (drawn w))).

(** ** easing.ts: class Easing *)

Module Easing.

Definition curve := R -> R -> R -> R -> R.

Inductive repeat_opt :=
| RepBool (b : bool)
| RepNum (n : R).

(** AddOptions; an absent [reverse] or [repeat] is [false], an absent
    [wait] is [None]. *)
Record AddOptions := mkOptions {
  ease : curve;
  duration : R;
  reverse : bool;
  repeat : repeat_opt;
  wait : option R
}.

Inductive axis := X | Y.

(** The per-tick update closure stored in a binding, with what it captures. *)
Inductive updater :=
| UCoord (name : string) (coord : axis)
| UTint (colors : list value)
| UBlend (colors : list value)
| UShake
| UPosition
| UPoint (entry : string)
| UOne (entry : string).

(** interface Ease: one (element, property) binding. *)
Record Ease := mkEase {
  element : nat;
  entry : string;
  ease_update : updater;
  start : value;
  to : value;
  delta : value
}.

Record t := mkEasing {
  eases : list Ease;
  options : AddOptions;
  time : R
}.

Inductive event := EvWait | EvWaitEnd | EvEach | EvReverse | EvRepeat | EvComplete.

(** *** shortestAngle *)

Definition mod_ (a n : R) : R := js_rem (js_rem a n + n) n.

Definition shortestAngle (start finish : R) : R :=
  let PI_2 := PI * 2 in
  let diff := js_rem (Rabs (start - finish)) PI_2 in
  let diff := if Rgt_dec diff PI then PI_2 - diff else diff in
  let simple := finish - start in
  let sign := if Rgt_dec (mod_ (simple + PI) PI_2 - PI) 0 then 1 else -1 in
  diff * sign.

(** *** addParam *)

Definition is_in (s : string) (l : list string) : bool :=
  existsb (String.eqb s) l.

(** [entry.substr(0, entry.length - 1)] *)
Definition drop_last (s : string) : string :=
  String.substring 0 (String.length s - 1) s.

Definition addParam (w : world) (element : nat) (entry : string) (param : value) : Ease :=
  if is_in entry ["scaleX"; "skewX"] then
    let name := drop_last entry in
    let start := get_x (read w element name) in
    mkEase element entry (UCoord name X) start param (vsub param start)
  else if is_in entry ["scaleY"; "skewY"] then
    let name := drop_last entry in
    let start := get_y (read w element name) in
    mkEase element entry (UCoord name Y) start param (vsub param start)
  else if is_in entry ["tint"; "blend"] then
    let colors := match param with
                  | VArr l => map VNum l
                  | _ => [read w element "tint"; param]
                  end in
    let to := VNum (INR (List.length colors)) in
    mkEase element entry
           (if String.eqb entry "tint" then UTint colors else UBlend colors)
           (VNum 0) to to
  else if String.eqb entry "shake" then
    mkEase element entry UShake
           (VPt (read w element "x") (read w element "y")) param VUndef
  else if String.eqb entry "position" then
    let start := VPt (read w element "x") (read w element "y") in
    let to := VPt (get_x param) (get_y param) in
    let delta := VPt (vsub (get_x to) (get_x start)) (vsub (get_y to) (get_y start)) in
    mkEase element entry UPosition start to delta
  else if is_in entry ["skew"; "scale"] then
    let start := get_x (read w element entry) in
    mkEase element entry (UPoint entry) start param (vsub param start)
  else if String.eqb entry "face" then
    let start := read w element "rotation" in
    let to := lift2 shortestAngle start
                    (lift2 atan2 (vsub (get_y param) (read w element "y"))
                                 (vsub (get_x param) (read w element "x"))) in
    mkEase element entry (UOne "rotation") start to (vsub to start)
  else
    let start := read w element entry in
    mkEase element entry (UOne entry) start param (vsub param start).

(** The constructor: one binding per (property, element) pair, properties
    in the order of the [params] object, elements in the order given. *)
Definition create (w : world) (elements : list nat) (params : list (string * value))
           (options : AddOptions) : t :=
  mkEasing
    (flat_map (fun p => map (fun c => addParam w c (fst p) (snd p)) elements) params)
    options 0.

(** *** The per-tick update closures *)

(** [this.options.ease(this.time, start, delta, this.options.duration)]; the
    curve is arithmetic on its arguments, so an argument that is not a
    number gives NaN ([None]). *)
Definition call_ease (this : t) (s d : value) : option R :=
  match to_number s, to_number d with
  | Some s, Some d =>
      Some (ease (options this) (time this) s d (duration (options this)))
  | _, _ => None
  end.

Definition updateOne (this : t) (e : Ease) (entry : string) (w : world) : world :=
  write w (element e) entry (of_number (call_ease this (start e) (delta e))).

Definition updatePoint (this : t) (e : Ease) (entry : string) (w : world) : world :=
  let v := of_number (call_ease this (start e) (delta e)) in
  write w (element e) entry (set_x (set_y (read w (element e) entry) v) v).

Definition updatePosition (this : t) (e : Ease) (w : world) : world :=
  let w1 := write w (element e) "x"
                  (of_number (call_ease this (get_x (start e)) (get_x (delta e)))) in
  write w1 (element e) "y"
        (of_number (call_ease this (get_y (start e)) (get_y (delta e)))).

Definition updateCoord (this : t) (e : Ease) (name : string) (coord : axis)
           (w : world) : world :=
  let v := of_number (call_ease this (start e) (delta e)) in
  let o := read w (element e) name in
  write w (element e) name (match coord with X => set_x o v | Y => set_y o v end).

(** [index === colors.length] on a floored index. *)
Definition clamp_index (len : nat) (index : option Z) : option Z :=
  match index with
  | Some z => if (z =? Z.of_nat len)%Z then Some (Z.of_nat len - 1)%Z else Some z
  | None => None
  end.

(** The index updateTint reads the colour at. *)
Definition tint_index (this : t) (e : Ease) (colors : list value) : option Z :=
  let index := option_map Zfloor (call_ease this (start e) (delta e)) in
  clamp_index (List.length colors) index.

Definition updateTint (this : t) (e : Ease) (colors : list value) (w : world) : world :=
  write w (element e) "tint" (js_index colors (tint_index this e colors)).

Definition int32_of_R (r : R) : Z := wrap32 (Rtrunc r).

(** The channel arithmetic of updateBlend for a numeric curve output. *)
Definition blend_at (this : t) (colors : list value) (calc : R) : Z :=
  let len := Z.of_nat (List.length colors) in
  let index := Zfloor calc in
  let index := if (index =? len)%Z then (len - 1)%Z else index in
  let next := (index + 1)%Z in
  let next := if (next =? len)%Z
              then if reverse (options this) then (index - 1)%Z
                   else if match repeat (options this) with
                           | RepBool b => b
                           | RepNum n => Rnonzero n
                           end
                        then 0%Z else index
              else next in
  let percent := calc - IZR index in
  let color1 := to_int32 (js_index colors (Some index)) in
  let color2 := to_int32 (js_index colors (Some next)) in
  let r1 := shr32 color1 16 in
  let g1 := Z.land (shr32 color1 8) 255 in
  let b1 := Z.land color1 255 in
  let r2 := shr32 color2 16 in
  let g2 := Z.land (shr32 color2 8) 255 in
  let b2 := Z.land color2 255 in
  let percent1 := 1 - percent in
  let r := percent1 * IZR r1 + percent * IZR r2 in
  let g := percent1 * IZR g1 + percent * IZR g2 in
  let b := percent1 * IZR b1 + percent * IZR b2 in
  Z.lor (Z.lor (shl32 (int32_of_R r) 16) (shl32 (int32_of_R g) 8)) (int32_of_R b).

(** With a NaN curve output every channel is NaN and the packed result 0. *)
Definition updateBlend (this : t) (e : Ease) (colors : list value) (w : world) : world :=
  match call_ease this (start e) (delta e) with
  | Some calc => write w (element e) "tint" (VNum (IZR (blend_at this colors calc)))
  | None => write w (element e) "tint" (VNum 0)
  end.

(** [random(n)] of updateShake, for the draw [u] of [Math.random()]. *)
Definition random_offset (u : R) (n : value) : value :=
  match to_number n with
  | Some n => VNum (IZR (Zfloor (u * n)) - IZR (Zfloor (n / 2)))
  | None => VNaN
  end.

Definition updateShake (e : Ease) (w : world) : world :=
  let (u1, w) := draw w in
  let w := write w (element e) "x" (vadd (get_x (start e)) (random_offset u1 (to e))) in
  let (u2, w) := draw w in
  write w (element e) "y" (vadd (get_y (start e)) (random_offset u2 (to e))).

(** [ease.update(ease)] *)
Definition run (this : t) (e : Ease) (w : world) : world :=
  match ease_update e with
  | UCoord name coord => updateCoord this e name coord w
  | UTint colors => updateTint this e colors w
  | UBlend colors => updateBlend this e colors w
  | UShake => updateShake e w
  | UPosition => updatePosition this e w
  | UPoint entry => updatePoint this e entry w
  | UOne entry => updateOne this e entry w
  end.

(** *** complete, reverse, repeat *)

Definition complete (e : Ease) (w : world) : world :=
  if String.eqb (entry e) "shake" then
    write (write w (element e) "x" (get_x (start e))) (element e) "y" (get_y (start e))
  else w.

Definition reverse_ease (e : Ease) : Ease :=
  if String.eqb (entry e) "position" then
    let swapX := get_x (to e) in
    let swapY := get_y (to e) in
    let to' := set_y (set_x (to e) (get_x (start e))) (get_y (start e)) in
    let start' := set_y (set_x (start e) swapX) swapY in
    let delta' := set_x (delta e) (vneg (get_x (delta e))) in
    let delta' := set_y delta' (vneg (get_y delta')) in
    mkEase (element e) (entry e) (ease_update e) start' to' delta'
  else
    mkEase (element e) (entry e) (ease_update e) (to e) (start e) (vneg (delta e)).

Definition write_sub (w : world) (el : nat) (name : string) (coord : axis) (v : value) : world :=
  let o := read w el name in
  write w el name (match coord with X => set_x o v | Y => set_y o v end).

Definition repeat_ease (e : Ease) (w : world) : world :=
  let el := element e in
  if String.eqb (entry e) "skewX" then write_sub w el "skew" X (start e)
  else if String.eqb (entry e) "skewY" then write_sub w el "skew" Y (start e)
  else if String.eqb (entry e) "skew" then
    write_sub (write_sub w el "skew" X (start e)) el "skew" Y (start e)
  else if String.eqb (entry e) "scaleX" then write_sub w el "scale" X (start e)
  else if String.eqb (entry e) "scaleY" then write_sub w el "scale" Y (start e)
  else if String.eqb (entry e) "scale" then
    write_sub (write_sub w el "scale" X (start e)) el "scale" Y (start e)
  else if String.eqb (entry e) "position" then
    write (write w el "x" (get_x (start e))) el "y" (get_y (start e))
  else write w el (entry e) (start e).

(** *** remove *)

Inductive remove_args :=
| NoArguments
| Matching (element : option nat) (params : option (list string)).

Definition matches (a_element : option nat) (a_params : option (list string)) (e : Ease) : bool :=
  match a_element with None => true | Some x => Nat.eqb (element e) x end
  && match a_params with None => true | Some ps => is_in (entry e) ps end.

Definition is_nil {A} (l : list A) : bool :=
  match l with [] => true | _ => false end.

Definition remove (this : t) (args : remove_args) : t * bool :=
  let kept := match args with
              | NoArguments => []
              | Matching el ps => filter (fun e => negb (matches el ps e)) (eases this)
              end in
  (mkEasing kept (options this) (time this), is_nil kept).

Definition count (this : t) : nat := List.length (eases this).

(** *** update *)

Record result := mkResult {
  session : t;
  after : world;
  events : list event;
  finished : bool
}.

Definition set_time (this : t) (x : R) : t :=
  mkEasing (eases this) (options this) x.
Definition set_eases (this : t) (l : list Ease) : t :=
  mkEasing l (options this) (time this).
Definition set_options (this : t) (o : AddOptions) : t :=
  mkEasing (eases this) o (time this).
Definition set_wait (o : AddOptions) (x : R) : AddOptions :=
  mkOptions (ease o) (duration o) (reverse o) (repeat o) (Some x).
Definition set_reverse (o : AddOptions) (b : bool) : AddOptions :=
  mkOptions (ease o) (duration o) b (repeat o) (wait o).
Definition set_repeat (o : AddOptions) (r : repeat_opt) : AddOptions :=
  mkOptions (ease o) (duration o) (reverse o) r (wait o).

Definition repeat_truthy (r : repeat_opt) : bool :=
  match r with RepBool b => b | RepNum n => Rnonzero n end.

(** [if (repeat !== true) repeat--], reached with a truthy [repeat] only. *)
Definition decrement (r : repeat_opt) : repeat_opt :=
  match r with
  | RepBool true => RepBool true
  | RepBool false => RepNum (-1)
  | RepNum n => RepNum (n - 1)
  end.

Definition wait_active (o : AddOptions) : bool :=
  match wait o with Some x => Rnonzero x | None => false end.

(** The loop over the bindings: a binding whose element is destroyed is
    spliced out, the others run their update. *)
Fixpoint update_loop (this : t) (l : list Ease) (w : world) : list Ease * world :=
  match l with
  | [] => ([], w)
  | e :: rest =>
      if truthy (read w (element e) "_destroyed") then update_loop this rest w
      else let (kept, w') := update_loop this rest (run this e w) in (e :: kept, w')
  end.

Definition update_all (this : t) (w : world) : world :=
  fold_left (fun w e => run this e w) (eases this) w.

(** The phase boundary of [update], entered with [time >= duration]. *)
Definition boundary (this : t) (leftover : R) (w : world) (evs : list event) : result :=
  if reverse (options this) then
    let this := set_eases this (map reverse_ease (eases this)) in
    let this := set_time this leftover in
    let w := if Rnonzero leftover then update_all this w else w in
    let o := options this in
    let o := if negb (repeat_truthy (repeat o)) then set_reverse o false
             else set_repeat o (decrement (repeat o)) in
    mkResult (set_options this o) w (evs ++ [EvReverse]) false
  else if repeat_truthy (repeat (options this)) then
    let w := fold_left (fun w e => repeat_ease e w) (eases this) w in
    let this := set_time this leftover in
    let w := if Rnonzero leftover then update_all this w else w in
    let o := options this in
    let this := set_options this (set_repeat o (decrement (repeat o))) in
    mkResult this w (evs ++ [EvRepeat]) false
  else
    let w := fold_left (fun w e => complete e w) (eases this) w in
    mkResult this w (evs ++ [EvComplete]) true.

(** The clock advance, the binding loop and the phase decision, for the
    elapsed time left after the wait. *)
Definition advance (this : t) (elapsed : R) (w : world) (evs : list event) : result :=
  let this := set_time this (time this + elapsed) in
  let over := Rgeb (time this) (duration (options this)) in
  let leftover := if over then time this - duration (options this) else 0 in
  let this := if over then set_time this (duration (options this)) else this in
  let (kept, w) := update_loop this (eases this) w in
  let this := set_eases this kept in
  let evs := evs ++ [EvEach] in
  if Rgeb (time this) (duration (options this)) then boundary this leftover w evs
  else mkResult this w evs false.

Definition update (this : t) (elapsed : R) (w : world) : result :=
  if is_nil (eases this) then mkResult this w [] true
  else if wait_active (options this) then
    let wt := match wait (options this) with Some x => x - elapsed | None => 0 end in
    let this := set_options this (set_wait (options this) wt) in
    if Rgtb wt 0 then mkResult this w [EvWait] false
    else advance (set_options this (set_wait (options this) 0)) (- wt) w [EvWaitEnd]
  else advance this elapsed w [].

(** *** Driving a session *)

(** The frames of a session: [update] is called with each elapsed time in
    turn, until it reports that the session is finished. *)
Fixpoint play (this : t) (w : world) (frames : list R) : list result :=
  match frames with
  | [] => []
  | elapsed :: rest =>
      let r := update this elapsed w in
      r :: (if finished r then [] else play (session r) (after r) rest)
  end.

Definition is_phase_event (ev : event) : bool :=
  match ev with
  | EvReverse | EvRepeat | EvComplete => true
  | _ => false
  end.

(** The phase notifications of a run, in order. *)
Definition phase_events (rs : list result) : list event :=
  filter is_phase_event (flat_map events rs).

(** The wait countdown of a frame, apart from the bindings: whether the
    frame ends in the wait, the wait that is left, and the elapsed time
    that is left for the clock. *)
Definition settle (wt : option R) (elapsed : R) : bool * option R * R :=
  match wt with
  | Some x =>
      if Rnonzero x then
        if Rgtb (x - elapsed) 0 then (true, Some (x - elapsed), elapsed)
        else (false, Some 0, - (x - elapsed))
      else (false, wt, elapsed)
  | None => (false, wt, elapsed)
  end.

(** The number of frames of a run at which the clock reaches the duration
    [D], when every boundary carries the leftover into the next phase. *)
Fixpoint crossings (D : R) (wt : option R) (t : R) (frames : list R) : nat :=
  match frames with
  | [] => O
  | elapsed :: rest =>
      match settle wt elapsed with
      | (true, wt', _) => crossings D wt' t rest
      | (false, wt', e) =>
          if Rgeb (t + e) D then S (crossings D wt' (t + e - D) rest)
          else crossings D wt' (t + e) rest
      end
  end.

(** The fields the update closure of a binding writes, and the fields its
    repeat reset writes. *)
Definition writes (e : Ease) : list string :=
  match ease_update e with
  | UCoord name _ => [name]
  | UTint _ | UBlend _ => ["tint"]
  | UShake | UPosition => ["x"; "y"]
  | UPoint entry | UOne entry => [entry]
  end.

Definition resets (e : Ease) : list string :=
  if is_in (entry e) ["skewX"; "skewY"; "skew"] then ["skew"]
  else if is_in (entry e) ["scaleX"; "scaleY"; "scale"] then ["scale"]
  else if String.eqb (entry e) "position" then ["x"; "y"]
  else [entry e].

(** A binding stays in its session: its element is not destroyed, and the
    binding itself never writes the liveness flag. *)
Definition stays (w : world) (e : Ease) : Prop :=
  truthy (read w (element e) "_destroyed") = false /\
  ~ In "_destroyed" (writes e) /\
  ~ In "_destroyed" (resets e).

(** A session with work to do: at least one binding, all of them staying. *)
Definition live (this : t) (w : world) : Prop :=
  eases this <> [] /\ Forall (stays w) (eases this).

(** Two worlds with the same liveness flags. *)
Definition same_flags (w w' : world) : Prop :=
  forall el, read w' el "_destroyed" = read w el "_destroyed".

(** *** Where a binding writes *)

(** A slot is a field of an element, or one coordinate of a field that
    holds a point. *)
Inductive slot :=
| Whole (k : string)
| Part (k : string) (c : axis).

Definition slots (e : Ease) : list slot :=
  match ease_update e with
  | UCoord name c => [Part name c]
  | UTint _ | UBlend _ => [Whole "tint"]
  | UShake | UPosition => [Whole "x"; Whole "y"]
  | UPoint entry => [Part entry X; Part entry Y]
  | UOne entry => [Whole entry]
  end.

Definition slot_key (s : slot) : string :=
  match s with Whole k => k | Part k _ => k end.

Definition overlap (a b : slot) : bool :=
  String.eqb (slot_key a) (slot_key b)
  && match a, b with
     | Part _ X, Part _ Y => false
     | Part _ Y, Part _ X => false
     | _, _ => true
     end.

(** Two bindings clash when they write a common slot of one element. *)
Definition clash (e e' : Ease) : bool :=
  Nat.eqb (element e) (element e')
  && existsb (fun a => existsb (overlap a) (slots e')) (slots e).

Definition look (w : world) (el : nat) (s : slot) : value :=
  match s with
  | Whole k => read w el k
  | Part k X => get_x (read w el k)
  | Part k Y => get_y (read w el k)
  end.

Definition is_point (v : value) : bool :=
  match v with VPt _ _ => true | _ => false end.

(** The elements of the bindings hold points in [scale] and [skew]. *)
Definition pointy (w : world) (e : Ease) : Prop :=
  is_point (read w (element e) "scale") = true /\
  is_point (read w (element e) "skew") = true.

(** No update of the binding replaces the points held in [scale] and
    [skew]. *)
Definition tame (e : Ease) : Prop :=
  forall k, In (Whole k) (slots e) -> k <> "scale" /\ k <> "skew".

(** The bindings are kept by the loop and find their points. *)
Definition sound (w : world) (l : list Ease) : Prop :=
  Forall (stays w) l /\ Forall (pointy w) l /\ Forall tame l.

(** A colour packed into 24 bits. *)
Definition packed (v : value) : Prop :=
  exists z : Z, v = VNum (IZR z) /\ (0 <= z < 2 ^ 24)%Z.

(** The bindings that follow the curve, as [addParam] builds them from
    numeric fields and parameters: numbers with [delta = to - start],
    coordinates on [scale] or [skew] only, a colour sequence that is not
    empty.  A shake binding is not among them. *)
Definition eased (e : Ease) : Prop :=
  entry e <> "shake" /\
  match ease_update e with
  | UOne k =>
      entry e <> "position" /\ is_in k ["scale"; "skew"] = false /\
      exists s g, start e = VNum s /\ to e = VNum g /\ delta e = VNum (g - s)
  | UPoint k | UCoord k _ =>
      entry e <> "position" /\ is_in k ["scale"; "skew"] = true /\
      exists s g, start e = VNum s /\ to e = VNum g /\ delta e = VNum (g - s)
  | UPosition =>
      entry e = "position" /\
      exists sx sy gx gy,
        start e = VPt (VNum sx) (VNum sy) /\ to e = VPt (VNum gx) (VNum gy) /\
        delta e = VPt (VNum (gx - sx)) (VNum (gy - sy))
  | UTint colors =>
      entry e <> "position" /\ colors <> [] /\
      exists n, start e = VNum 0 /\ to e = VNum n /\ delta e = VNum n
  | UBlend colors =>
      entry e <> "position" /\ packed (nth 0 colors VUndef) /\
      exists n, start e = VNum 0 /\ to e = VNum n /\ delta e = VNum n
  | UShake => False
  end.



(** The convention on curves: [f(0, s, d, D) = s] and [f(D, s, d, D) = s + d]. *)
Definition conventional (f : curve) (D : R) : Prop :=
  forall s d, f 0 s d D = s /\ f D s d D = s + d.

End Easing.

(** ** ease.ts: class Ease, the group of sessions *)

Module Ease.

(** EaseOptions as held by the group.  [ticker] tells whether a ticker was
    injected.  The group-level [ease] is a function: one given by name is
    resolved by [add] only when it comes with the call's own options. *)
Record EaseOptions := mkEaseOptions {
  duration : R;
  ease : Easing.curve;
  useRAF : bool;
  ticker : bool;
  maxFrame : R
}.

Inductive ease_opt :=
| ByName (name : string)
| ByFunction (f : Easing.curve).

(** The options object passed to [add]: every field may be absent. *)
Record overrides := mkOverrides {
  o_duration : option R;
  o_ease : option ease_opt;
  o_reverse : option bool;
  o_repeat : option Easing.repeat_opt;
  o_wait : option R
}.

Definition no_overrides : overrides := mkOverrides None None None None None.

Record t := mkEase {
  options : EaseOptions;
  easings : list nat;
  empty : bool;
  handleRAF : option nat;
  lastTime : option R
}.

(** What a listener of a session's notifications does to the group. *)
Inductive action :=
| DoAdd (elements : list nat) (params : list (string * value)) (o : overrides)
| DoRemoveEase (element : option nat) (param : option (list string))
| DoRemoveAll
| DoDestroy.

(** The group with everything it touches: the elements, the session
    objects by identity, the frame requests the host holds, the
    subscriptions of the injected ticker, and the listeners registered on
    each session. *)
Record system := mkSystem {
  sys_world : world;
  heap : nat -> Easing.t;
  allocated : nat;
  group : t;
  raf_pending : list nat;
  raf_issued : nat;
  ticker_listeners : nat;
  listeners : nat -> Easing.event -> list action
}.

Definition set_group (s : system) (g : t) : system :=
  mkSystem (sys_world s) (heap s) (allocated s) g (raf_pending s) (raf_issued s)
           (ticker_listeners s) (listeners s).

Definition set_world (s : system) (w : world) : system :=
  mkSystem w (heap s) (allocated s) (group s) (raf_pending s) (raf_issued s)
           (ticker_listeners s) (listeners s).

Definition store (s : system) (id : nat) (e : Easing.t) : system :=
  mkSystem (sys_world s) (fun i => if Nat.eqb i id then e else heap s i)
           (allocated s) (group s) (raf_pending s) (raf_issued s)
           (ticker_listeners s) (listeners s).

(** [requestAnimationFrame]: a fresh non-zero handle, held by the host
    until it fires or is cancelled. *)
Definition requestAnimationFrame (s : system) : system * nat :=
  let id := S (raf_issued s) in
  (mkSystem (sys_world s) (heap s) (allocated s) (group s) (id :: raf_pending s) id
            (ticker_listeners s) (listeners s), id).

Definition cancelAnimationFrame (id : nat) (s : system) : system :=
  mkSystem (sys_world s) (heap s) (allocated s) (group s)
           (filter (fun i => negb (Nat.eqb i id)) (raf_pending s)) (raf_issued s)
           (ticker_listeners s) (listeners s).

Definition set_handle (g : t) (h : option nat) : t :=
  mkEase (options g) (easings g) (empty g) h (lastTime g).
Definition set_easings (g : t) (l : list nat) : t :=
  mkEase (options g) l (empty g) (handleRAF g) (lastTime g).
Definition set_empty (g : t) (b : bool) : t :=
  mkEase (options g) (easings g) b (handleRAF g) (lastTime g).
Definition set_lastTime (g : t) (x : R) : t :=
  mkEase (options g) (easings g) (empty g) (handleRAF g) (Some x).

(** [this.handleRAF] as a condition *)
Definition handle_set (g : t) : bool :=
  match handleRAF g with Some (S _) => true | _ => false end.

Section WithPenner.

(** The table of named curves, imported from outside the two source files. *)
Variable penner : string -> Easing.curve.

Definition defaultEaseOptions : EaseOptions :=
  mkEaseOptions 1000 (penner "easeInOutSine") true false (1000 / 60).

(** The constructor, for the options after the defaults are merged in. *)
Definition create (o : EaseOptions) (w : world) (hooks : nat -> Easing.event -> list action)
  : system :=
  mkSystem w (fun _ => Easing.mkEasing [] (Easing.mkOptions (ease o) (duration o) false
                                                            (Easing.RepBool false) None) 0)
           0 (mkEase o [] true None None) [] 0
           (if ticker o then 1%nat else 0%nat) hooks.

Definition or_default {A} (o : option A) (d : A) : A :=
  match o with Some a => a | None => d end.

(** [{ ...this.options, ...options }] with a named ease resolved *)
Definition merge (g : EaseOptions) (o : overrides) : Easing.AddOptions :=
  Easing.mkOptions
    (match o_ease o with
     | Some (ByName n) => penner n
     | Some (ByFunction f) => f
     | None => ease g
     end)
    (or_default (o_duration o) (duration g))
    (or_default (o_reverse o) false)
    (or_default (o_repeat o) (Easing.RepBool false))
    (o_wait o).

Definition add (elements : list nat) (params : list (string * value)) (o : overrides)
           (now : R) (s : system) : system * nat :=
  let easing := Easing.create (sys_world s) elements params (merge (options (group s)) o) in
  let id := allocated s in
  let s := mkSystem (sys_world s) (fun i => if Nat.eqb i id then easing else heap s i)
                    (S id) (set_easings (group s) (easings (group s) ++ [id]))
                    (raf_pending s) (raf_issued s) (ticker_listeners s) (listeners s) in
  let s := if empty (group s) && useRAF (options (group s)) then
             let (s, h) := requestAnimationFrame s in
             set_group s (set_lastTime (set_handle (group s) (Some h)) now)
           else s in
  (set_group s (set_empty (group s) false), id).

Definition set_duration (o : overrides) (d : R) : overrides :=
  mkOverrides (Some d) (o_ease o) (o_reverse o) (o_repeat o) (o_wait o).

(** The duration computed by [face], for numeric coordinates. *)
Definition face_angle (rotation ex ey tx ty : R) : R :=
  Easing.shortestAngle rotation (atan2 (ty - ey) (tx - ex)).

Definition face_duration (rotation ex ey tx ty speed : R) : R :=
  Rabs (face_angle rotation ex ey tx ty - rotation) / speed.

Definition number_field (w : world) (element : nat) (k : string) : option R :=
  to_number (read w element k).

(** [target] and [face]: the element and the target have numeric
    coordinates by their types; [None] when one is not a number. *)
Definition target (element : nat) (tx ty : R) (speed : R) (o : overrides)
           (now : R) (s : system) : option (system * nat) :=
  match number_field (sys_world s) element "x", number_field (sys_world s) element "y" with
  | Some ex, Some ey =>
      let duration := sqrt ((ex - tx) ^ 2 + (ey - ty) ^ 2) / speed in
      Some (add [element] [("x", VNum tx); ("y", VNum ty)] (set_duration o duration) now s)
  | _, _ => None
  end.

Definition face (element : nat) (tx ty : R) (speed : R) (o : overrides)
           (now : R) (s : system) : option (system * nat) :=
  match number_field (sys_world s) element "rotation",
        number_field (sys_world s) element "x",
        number_field (sys_world s) element "y" with
  | Some rotation, Some ex, Some ey =>
      let shortestAngle := face_angle rotation ex ey tx ty in
      let duration := Rabs (shortestAngle - rotation) / speed in
      Some (add [element] [("rotation", VNum shortestAngle)] (set_duration o duration) now s)
  | _, _, _ => None
  end.

(** The cancellation shared by [removeEase], [removeAll] and [destroy]. *)
Definition cancel_if_armed (s : system) : system :=
  if useRAF (options (group s)) && handle_set (group s) then
    let s := match handleRAF (group s) with
             | Some h => cancelAnimationFrame h s
             | None => s
             end in
    set_group s (set_handle (group s) None)
  else s.

(** The loop of [removeEase]: every session has the bindings removed, and
    a session left without bindings is spliced out of the collection. *)
Fixpoint removeEase_loop (element : option nat) (param : option (list string))
         (l : list nat) (s : system) : list nat * system :=
  match l with
  | [] => ([], s)
  | id :: rest =>
      let (e, gone) := Easing.remove (heap s id) (Easing.Matching element param) in
      let (kept, s') := removeEase_loop element param rest (store s id e) in
      (if gone then kept else id :: kept, s')
  end.

Definition removeEase (element : option nat) (param : option (list string)) (s : system)
  : system :=
  let (kept, s) := removeEase_loop element param (easings (group s)) s in
  let s := set_group s (set_easings (group s) kept) in
  if Easing.is_nil kept then cancel_if_armed (set_group s (set_empty (group s) true))
  else s.

Definition removeAll (s : system) : system :=
  cancel_if_armed (set_group s (set_empty (set_easings (group s) []) true)).

Definition destroy (s : system) : system :=
  let s := removeAll s in
  if ticker (options (group s)) then
    mkSystem (sys_world s) (heap s) (allocated s) (group s) (raf_pending s) (raf_issued s)
             0 (listeners s)
  else cancel_if_armed s.

Definition perform (now : R) (a : action) (s : system) : system :=
  match a with
  | DoAdd els params o => fst (add els params o now s)
  | DoRemoveEase el param => removeEase el param s
  | DoRemoveAll => removeAll s
  | DoDestroy => destroy s
  end.

(** One iteration of the loop of [update] over the snapshot: the session
    is advanced, the listeners of what it emitted act on the group, and a
    finished session is spliced out at the index [indexOf] gives. *)
Definition update_one (elapsed now : R) (s : system) (id : nat) : system :=
  let r := Easing.update (heap s id) elapsed (sys_world s) in
  let s := set_world (store s id (Easing.session r)) (Easing.after r) in
  let s := fold_left (fun s a => perform now a s)
                     (flat_map (listeners s id) (Easing.events r)) s in
  if Easing.finished r then
    set_group s (set_easings (group s)
                             (splice1 (indexOf id (easings (group s))) (easings (group s))))
  else s.

(** The part of [update] after the elapsed time is settled: the loop over
    the snapshot of the collection, and the next frame request. *)
Definition sweep (elapsed now : R) (s : system) : system :=
  let s := if negb (empty (group s)) then
             let list := easings (group s) in
             let s := fold_left (update_one elapsed now) list s in
             if Easing.is_nil (easings (group s))
             then set_group s (set_empty (group s) true)
             else s
           else s in
  if useRAF (options (group s)) && negb (Easing.is_nil (easings (group s))) then
    let (s, h) := requestAnimationFrame s in
    set_group s (set_handle (group s) (Some h))
  else set_group s (set_handle (group s) None).

(** [update]: [arg] is the argument of a manual call, [elapsedMS] what the
    ticker reports, [now] what [Date.now()] returns. *)
Definition update (arg elapsedMS now : R) (s : system) : system :=
  let g := group s in
  let '(elapsed, s) :=
    if ticker (options g) then (elapsedMS, s)
    else if useRAF (options g) then
      (now - or_default (lastTime g) 0, set_group s (set_lastTime g now))
    else (arg, s) in
  sweep (Rmin elapsed (maxFrame (options g))) now s.

Definition count (s : system) : nat := List.length (easings (group s)).

Definition countRunning (s : system) : nat :=
  fold_left (fun n id => (n + Easing.count (heap s id))%nat) (easings (group s)) 0%nat.

(** The host delivers the frame request [id]: it is no longer pending and
    the callback runs [update()]. *)
Definition frame (id : nat) (elapsedMS now : R) (s : system) : system :=
  if existsb (Nat.eqb id) (raf_pending s) then
    update 0 elapsedMS now (cancelAnimationFrame id s)
  else s.

(** The injected ticker fires: [update] runs once per subscription. *)
Definition tick (elapsedMS now : R) (s : system) : system :=
  Nat.iter (ticker_listeners s) (update 0 elapsedMS now) s.

(** What happens to a group between its construction and now: calls of
    its operations, and frames delivered by the host or the ticker. *)
Inductive op :=
| Add (elements : list nat) (params : list (string * value)) (o : overrides) (now : R)
| Face (element : nat) (tx ty speed : R) (o : overrides) (now : R)
| Target (element : nat) (tx ty speed : R) (o : overrides) (now : R)
| RemoveEase (element : option nat) (param : option (list string))
| RemoveAll
| Destroy
| Frame (id : nat) (elapsedMS now : R)
| Tick (elapsedMS now : R).

Definition step (s : system) (o : op) : system :=
  match o with
  | Add els params ov now => fst (add els params ov now s)
  | Face el tx ty speed ov now =>
      match face el tx ty speed ov now s with Some r => fst r | None => s end
  | Target el tx ty speed ov now =>
      match target el tx ty speed ov now s with Some r => fst r | None => s end
  | RemoveEase el param => removeEase el param s
  | RemoveAll => removeAll s
  | Destroy => destroy s
  | Frame id elapsedMS now => frame id elapsedMS now s
  | Tick elapsedMS now => tick elapsedMS now s
  end.

Definition run (s : system) (ops : list op) : system := fold_left step ops s.

End WithPenner.


End Ease.

(** ** Scenarios *)

(** Concrete elements, sessions and groups used to evaluate the code. *)
Module Scenario.

Definition blank : element := fun _ => VUndef.

Definition with_fields (l : list (string * value)) : element :=
  fold_right (fun p f => field_set f (fst p) (snd p)) blank l.

(** A live container at [(x, y)] with the given rotation. *)
Definition container (x y rotation : R) : element :=
  with_fields [("x", VNum x); ("y", VNum y); ("rotation", VNum rotation);
               ("scale", VPt (VNum 1) (VNum 1)); ("skew", VPt (VNum 0) (VNum 0));
               ("_destroyed", VBool false)].

Definition no_listeners : nat -> Easing.event -> list Ease.action := fun _ _ => [].

(** Every draw of [Math.random()] gives 0. *)
Definition zeros : nat -> R := fun _ => 0.


Definition linear : Easing.curve := fun t b c d => c * t / d + b.

(** An element at the origin rotated by a quarter turn: it already faces
    the point [(0, 1)]. *)
Definition facing_world : world :=
  mkWorld (fun _ => container 0 0 (PI / 2)) zeros 0.

(** A tint session over two colours, half way through a phase of 1000 ms
    eased by [back_in]. *)
Definition tint_colors : list value := [VNum (IZR 0xff0000); VNum (IZR 0x00ff00)].

Definition tint_ease : Easing.Ease :=
  Easing.mkEase 0 "tint" (Easing.UTint tint_colors) (VNum 0) (VNum 2) (VNum 2).


Definition tint_linear : Easing.t :=
  Easing.mkEasing [tint_ease]
                  (Easing.mkOptions linear 1000 false (Easing.RepBool false) None) 500.

(** A session easing [x] from 0 to 100 in phases of 10 ms, repeating
    for ever. *)
Definition looping : Easing.t :=
  Easing.create facing_world [0%nat] [("x", VNum 100)]
                (Easing.mkOptions linear 10 false (Easing.RepBool true) None).

(** An element at (7, 9), and a repeating shake of radius 10 on it. *)
Definition shake_world : world :=
  mkWorld (fun _ => container 7 9 0) zeros 0.

Definition shaking : Easing.t :=
  Easing.create shake_world [0%nat] [("shake", VNum 10)]
                (Easing.mkOptions linear 1000 false (Easing.RepBool true) None).



(** The same with three repeats. *)
Definition thrice : Easing.t :=
  Easing.create facing_world [0%nat] [("x", VNum 100)]
                (Easing.mkOptions linear 10 false (Easing.RepNum 3) None).

(** What the constructor builds for an empty [params] object. *)
Definition idle : Easing.t :=
  Easing.create facing_world [0%nat] []
                (Easing.mkOptions linear 1000 false (Easing.RepBool true) None).

(** Three elements, each with a session easing its [x] to 100; a listener
    of the first session's 'each' notification removes the eases of the
    second element from the group. *)
Definition three_world : world :=
  mkWorld (fun _ => container 0 0 0) zeros 0.

Definition meddling : nat -> Easing.event -> list Ease.action :=
  fun id ev =>
    match id, ev with
    | O, Easing.EvEach => [Ease.DoRemoveEase (Some 1%nat) None]
    | _, _ => []
    end.

Definition three_sessions : list Ease.op :=
  [Ease.Add [0%nat] [("x", VNum 100)] Ease.no_overrides 0;
   Ease.Add [1%nat] [("x", VNum 100)] Ease.no_overrides 0;
   Ease.Add [2%nat] [("x", VNum 100)] Ease.no_overrides 0].

Section Crowd.

Variable penner : string -> Easing.curve.

(** The group with the three sessions added at time 0. *)
Definition crowd : Ease.system :=
  Ease.run penner
           (Ease.create (Ease.defaultEaseOptions penner) three_world meddling)
           three_sessions.

(** The host delivers the frame at time 10: the request is no longer
    pending and the time of the frame is recorded. *)
Definition polled : Ease.system :=
  Ease.set_group (Ease.cancelAnimationFrame 1 crowd)
                 (Ease.set_lastTime (Ease.group (Ease.cancelAnimationFrame 1 crowd)) 10).

(** The iterations of the loop over the snapshot [0; 1; 2]. *)
Definition first_done : Ease.system := Ease.update_one penner (10 - 0) 10 polled 0.
Definition second_done : Ease.system := Ease.update_one penner (10 - 0) 10 first_done 1.
Definition third_done : Ease.system := Ease.update_one penner (10 - 0) 10 second_done 2.

(** The session of the third element, as added and one frame later. *)
Definition third_ease : Easing.Ease :=
  Easing.mkEase 2 "x" (Easing.UOne "x") (VNum 0) (VNum 100) (VNum (100 - 0)).

Definition third_session : Easing.t :=
  Easing.mkEasing [third_ease]
                  (Ease.merge penner (Ease.defaultEaseOptions penner) Ease.no_overrides) 0.

End Crowd.

End Scenario.

(** ** The loops that remove in place, index by index *)

Module InPlace.

(** [for (let i = 0; i < l.length; i++) { if (p(l[i])) { l.splice(i, 1); i-- } }]
    from the index [i] on; [fuel] bounds the number of iterations. *)
Fixpoint splice_loop {A} (p : A -> bool) (fuel : nat) (i : Z) (l : list A) : list A :=
  match fuel with
  | O => l
  | S fuel =>
      if (i <? Z.of_nat (List.length l))%Z then
        match nth_error l (Z.to_nat i) with
        | Some a =>
            if p a then splice_loop p fuel (i - 1 + 1) (splice1 i l)
            else splice_loop p fuel (i + 1) l
        | None => l
        end
      else l
  end.

(** The [params] argument of [remove]: one name, or an array of names. *)
Inductive names :=
| Name (s : string)
| Names (l : list string).

(** [if (typeof params === 'string') params = [params]] *)
Definition as_array (params : option names) : option (list string) :=
  match params with
  | Some (Name s) => Some [s]
  | Some (Names l) => Some l
  | None => None
  end.

Inductive arguments :=
| NoArguments
| Given (element : option nat) (params : option names).

(** [Easing.remove], with its loop run index by index; every iteration
    takes out an entry or moves on, so the length of the array bounds
    their number. *)
Definition remove (this : Easing.t) (args : arguments) : Easing.t * bool :=
  let kept := match args with
              | NoArguments => []
              | Given element params =>
                  splice_loop (Easing.matches element (as_array params))
                              (List.length (Easing.eases this)) 0 (Easing.eases this)
              end in
  (Easing.mkEasing kept (Easing.options this) (Easing.time this), Easing.is_nil kept).

End InPlace.

(** ** What a session may write *)

Module Footprint.

Import Easing.

(** The fields of its element a binding can write: by its update
    closure, by its reset at a repeat, and by the reset of a shake at the
    completion. *)
Definition footprint (e : Ease) : list string :=
  writes e ++ resets e ++ (if String.eqb (entry e) "shake" then ["x"; "y"] else []).

(** The binding does not write the field [k] of the element [el]. *)
Definition spares (el : nat) (k : string) (e : Ease) : Prop :=
  element e = el -> ~ In k (footprint e).

(** The element's liveness flag is set. *)
Definition destroyed (w : world) (el : nat) : Prop :=
  truthy (read w el "_destroyed") = true.

End Footprint.

(** ** The phases of a session, by its options *)

Module Schedule.

Import Easing.

(** The phase notifications of the first [n] boundaries a session
    reaches, as the reverse flag and the repeat option decide them. *)
Fixpoint plan (n : nat) (rev : bool) (rep : repeat_opt) : list event :=
  match n with
  | O => []
  | S n =>
      if rev then
        EvReverse :: (if negb (repeat_truthy rep) then plan n false rep
                      else plan n true (decrement rep))
      else if repeat_truthy rep then EvRepeat :: plan n false (decrement rep)
      else [EvComplete]
  end.

(** A repeat option that does not run out: [true], or a number that is
    not a natural number. *)
Definition unending (rep : repeat_opt) : Prop :=
  match rep with
  | RepBool b => b = true
  | RepNum x => forall n : nat, x <> INR n
  end.

(** A frame that ends within the wait: nothing moves. *)
Definition held (this : Easing.t) (w : world) (r : result) : Prop :=
  after r = w /\ events r = [EvWait] /\ finished r = false /\
  time (session r) = time this /\ eases (session r) = eases this.

(** What follows 'each' in the notifications of an update, with the
    verdict that goes with it. *)
Definition closing (post : list event) (done : bool) : Prop :=
  (post = [] /\ done = false) \/ (post = [EvReverse] /\ done = false) \/
  (post = [EvRepeat] /\ done = false) \/ (post = [EvComplete] /\ done = true).

End Schedule.

(** ** The parts of updateBlend *)

Module Blend.

Import Easing.

(** The index of the second colour: the next one, and at the end of the
    sequence the one before when the session reverses, the first when it
    repeats, the last itself otherwise. *)
Definition next_index (this : t) (len index : Z) : Z :=
  let next := (index + 1)%Z in
  if (next =? len)%Z
  then if reverse (options this) then (index - 1)%Z
       else if repeat_truthy (repeat (options this)) then 0%Z else index
  else next.

(** The three channels of a packed colour, as updateBlend splits it. *)
Definition channels (color : Z) : Z * Z * Z :=
  (shr32 color 16, Z.land (shr32 color 8) 255, Z.land color 255).

(** One channel of the blend of two colours. *)
Definition mix (percent : R) (c1 c2 : Z) : R :=
  (1 - percent) * IZR c1 + percent * IZR c2.

(** The blend of two colours, channel by channel, packed again. *)
Definition blend_pair (percent : R) (color1 color2 : Z) : Z :=
  let '(r1, g1, b1) := channels color1 in
  let '(r2, g2, b2) := channels color2 in
  Z.lor (Z.lor (shl32 (int32_of_R (mix percent r1 r2)) 16)
               (shl32 (int32_of_R (mix percent g1 g2)) 8))
        (int32_of_R (mix percent b1 b2)).

(** The colour at an index, as the 32-bit operators of updateBlend see
    it. *)
Definition color_at (colors : list value) (index : Z) : Z :=
  to_int32 (js_index colors (Some index)).

End Blend.

(** ** The group between its ticks *)

Module Group.

Import Ease.

(** The sessions of a snapshot updated one after the other, each on the
    elements as the one before left them. *)
Fixpoint visits (elapsed : R) (hp : nat -> Easing.t) (w : world) (l : list nat)
  : list (nat * Easing.result) :=
  match l with
  | [] => []
  | id :: rest =>
      let r := Easing.update (hp id) elapsed w in
      (id, r) :: visits elapsed hp (Easing.after r) rest
  end.

(** The elements after the last of the visits. *)
Definition last_world (w : world) (vs : list (nat * Easing.result)) : world :=
  fold_left (fun _ v => Easing.after (snd v)) vs w.

(** The sessions of the visits that go on. *)
Definition unfinished (vs : list (nat * Easing.result)) : list nat :=
  map fst (filter (fun v => negb (Easing.finished (snd v))) vs).

(** No listener of a session acts on the group. *)
Definition silent (s : system) : Prop :=
  forall id ev, listeners s id ev = [].

(** The collection holds no session twice, and only sessions that [add]
    has created. *)
Definition tidy (s : system) : Prop :=
  NoDup (easings (group s)) /\
  Forall (fun id => (id < allocated s)%nat) (easings (group s)).

(** What [update] passes to the sessions: the elapsed time of its
    source, and never more than [maxFrame]. *)
Definition frame_time (arg elapsedMS now : R) (s : system) : R :=
  let g := group s in
  Rmin (if ticker (options g) then elapsedMS
        else if useRAF (options g) then now - match lastTime g with Some x => x | None => 0 end
        else arg)
       (maxFrame (options g)).

(** The parts of a group that only the constructor and [destroy] set. *)
Definition fixed (s s' : system) : Prop :=
  ticker_listeners s' = ticker_listeners s /\
  listeners s' = listeners s /\
  options (group s') = options (group s).

(** What [Easing.remove] leaves of a session. *)
Definition pruned (el : option nat) (p : option (list string)) (this : Easing.t) : Easing.t :=
  fst (Easing.remove this (Easing.Matching el p)).

Definition is_destroy (o : op) : bool :=
  match o with Destroy => true | _ => false end.





End Group.

(** ** Where a binding is heading *)

Module Goal.

Import Easing.

(** A binding that follows the curve and whose colour sequence, if it
    has one, has its length as the goal, as [addParam] sets it; for a
    blend the last colour is packed in 24 bits. *)
Definition aimed (e : Ease) : Prop :=
  eased e /\
  match ease_update e with
  | UTint colors => to e = VNum (INR (List.length colors))
  | UBlend colors =>
      to e = VNum (INR (List.length colors)) /\
      packed (nth (List.length colors - 1) colors VUndef)
  | _ => True
  end.

(** The value a slot of a binding is heading for: the recorded goal, its
    coordinate for a position, the last colour for a colour sequence. *)
Definition goal (e : Ease) (s : slot) : value :=
  match ease_update e with
  | UPosition => if String.eqb (slot_key s) "x" then get_x (to e) else get_y (to e)
  | UTint colors | UBlend colors => nth (List.length colors - 1) colors VUndef
  | _ => to e
  end.

End Goal.

(** ** More scenarios *)

Module Cases.

(** An element whose liveness flag is set, and a session on it. *)
Definition gone_world : world :=
  mkWorld (fun _ => field_set (Scenario.container 0 0 0) "_destroyed" (VBool true))
          Scenario.zeros 0.

Definition orphan : Easing.t :=
  Easing.create gone_world [0%nat] [("x", VNum 100)]
                (Easing.mkOptions Scenario.linear 1000 false (Easing.RepBool false) None).

(** Sessions easing [x] to 100 in phases of 10 ms: one reversing with a
    repeat count of 2, one repeating with a count of one half, one
    starting after a wait of 30 ms. *)
Definition pendulum : Easing.t :=
  Easing.create Scenario.facing_world [0%nat] [("x", VNum 100)]
                (Easing.mkOptions Scenario.linear 10 true (Easing.RepNum 2) None).

Definition fraction : Easing.t :=
  Easing.create Scenario.facing_world [0%nat] [("x", VNum 100)]
                (Easing.mkOptions Scenario.linear 10 false (Easing.RepNum (1 / 2)) None).

Definition waiting : Easing.t :=
  Easing.create Scenario.facing_world [0%nat] [("x", VNum 100)]
                (Easing.mkOptions Scenario.linear 10 false (Easing.RepBool false) (Some 30)).

(** A plain session easing [x] to 100 and [scale] to 2 in 1000 ms. *)
Definition plain : Easing.t :=
  Easing.create Scenario.shake_world [0%nat] [("x", VNum 100); ("scale", VNum 2)]
                (Easing.mkOptions Scenario.linear 1000 false (Easing.RepBool false) None).

(** The shake binding of [Scenario.shaking]. *)
Definition shake_ease : Easing.Ease :=
  Easing.addParam Scenario.shake_world 0 "shake" (VNum 10).

(** The binding of [Scenario.looping]. *)
Definition x_ease : Easing.Ease :=
  Easing.addParam Scenario.facing_world 0 "x" (VNum 100).

(** A table of named curves in which every name is the linear curve. *)
Definition straight : string -> Easing.curve := fun _ => Scenario.linear.

(** A group without listeners, as built and with three sessions. *)
Definition fresh : Ease.system :=
  Ease.create (Ease.defaultEaseOptions straight) Scenario.facing_world
              Scenario.no_listeners.

Definition trio : Ease.system :=
  Ease.run straight
           (Ease.create (Ease.defaultEaseOptions straight) Scenario.three_world
                        Scenario.no_listeners)
           Scenario.three_sessions.

(** A group on a ticker, with [useRAF] set, holding one session that
    repeats for ever. *)
Definition looper : Easing.t :=
  Easing.create Scenario.three_world [0%nat] [("x", VNum 100)]
                (Easing.mkOptions Scenario.linear 1000 false (Easing.RepBool true) None).

Definition ticked : Ease.system :=
  Ease.run straight
           (Ease.create (Ease.mkEaseOptions 1000 Scenario.linear true true (1000 / 60))
                        Scenario.three_world Scenario.no_listeners)
           [Ease.Add [0%nat] [("x", VNum 100)]
                     (Ease.mkOverrides None None None (Some (Easing.RepBool true)) None)
                     0].

End Cases.

(** * Properties *)

(** ** The remainder operator *)

Section Remainder.

Lemma Rtrunc_nonneg x : 0 <= x -> IZR (Rtrunc x) <= x < IZR (Rtrunc x) + 1.
Proof.
  intros Hx. unfold Rtrunc. destruct (Rle_dec 0 x); [|lra]. apply Zfloor_bound.
Qed.

Lemma Rtrunc_neg x : x < 0 -> IZR (Rtrunc x) - 1 < x <= IZR (Rtrunc x).
Proof.
  intros Hx. unfold Rtrunc. destruct (Rle_dec 0 x); [lra|]. apply Zceil_bound.
Qed.

Lemma js_rem_nonneg a n : 0 < n -> 0 <= a -> 0 <= js_rem a n < n.
Proof.
  intros Hn Ha. unfold js_rem.
  assert (Hq : 0 <= a / n)
    by (apply Rmult_le_pos; [lra | left; now apply Rinv_0_lt_compat]).
  destruct (Rtrunc_nonneg _ Hq) as [H1 H2].
  assert (E : a = n * (a / n)) by (field; lra).
  split.
  - assert (n * IZR (Rtrunc (a / n)) <= n * (a / n))
      by (apply Rmult_le_compat_l; lra).
    lra.
  - assert (n * (a / n) < n * (IZR (Rtrunc (a / n)) + 1))
      by (apply Rmult_lt_compat_l; lra).
    lra.
Qed.

Lemma js_rem_neg a n : 0 < n -> a < 0 -> - n < js_rem a n <= 0.
Proof.
  intros Hn Ha. unfold js_rem.
  assert (Hq : a / n < 0).
  { unfold Rdiv. replace 0 with (0 * / n) by lra.
    apply Rmult_lt_compat_r; [now apply Rinv_0_lt_compat | lra]. }
  destruct (Rtrunc_neg _ Hq) as [H1 H2].
  assert (E : a = n * (a / n)) by (field; lra).
  split.
  - assert (n * (IZR (Rtrunc (a / n)) - 1) < n * (a / n))
      by (apply Rmult_lt_compat_l; lra).
    lra.
  - assert (n * (a / n) <= n * IZR (Rtrunc (a / n)))
      by (apply Rmult_le_compat_l; lra).
    lra.
Qed.

Lemma js_rem_congr a n : exists k : Z, a = js_rem a n + IZR k * n.
Proof. exists (Rtrunc (a / n)). unfold js_rem. lra. Qed.

(** [mod(a, n)] is the representative of [a] in [0, n). *)
Lemma mod_range a n : 0 < n -> 0 <= Easing.mod_ a n < n.
Proof.
  intros Hn. unfold Easing.mod_. apply js_rem_nonneg; [assumption|].
  destruct (Rle_dec 0 a) as [Ha|Ha].
  - pose proof (js_rem_nonneg a n Hn Ha). lra.
  - pose proof (js_rem_neg a n Hn ltac:(lra)). lra.
Qed.

Lemma mod_congr a n : exists k : Z, a = Easing.mod_ a n + IZR k * n.
Proof.
  unfold Easing.mod_.
  destruct (js_rem_congr a n) as [k1 H1].
  destruct (js_rem_congr (js_rem a n + n) n) as [k2 H2].
  exists (k1 + k2 - 1)%Z. rewrite minus_IZR, plus_IZR. lra.
Qed.

(** A multiple of [n] strictly between [-n] and [2 n] is [0] or [n]. *)
Lemma multiple_in_window (k : Z) (n x : R) :
  0 < n -> x = IZR k * n -> - n < x < 2 * n -> k = 0%Z \/ k = 1%Z.
Proof.
  intros Hn E [Hlo Hhi]. subst x.
  assert (H1 : IZR (-1) < IZR k).
  { apply Rmult_lt_reg_r with n; [assumption|]. lra. }
  assert (H2 : IZR k < IZR 2).
  { apply Rmult_lt_reg_r with n; [assumption|]. lra. }
  apply lt_IZR in H1. apply lt_IZR in H2. lia.
Qed.

End Remainder.

(** ** shortestAngle *)

Section ShortestAngle.

(** The value [shortestAngle] returns is the difference [finish - start]
    reduced into [-PI, PI). *)
Lemma shortestAngle_wrapped start finish :
  Easing.shortestAngle start finish = Easing.mod_ (finish - start + PI) (PI * 2) - PI.
Proof.
  pose proof PI_RGT_0 as Hpi.
  assert (Hn : 0 < PI * 2) by lra.
  unfold Easing.shortestAngle.
  set (m := Easing.mod_ (finish - start + PI) (PI * 2)).
  pose proof (mod_range (finish - start + PI) (PI * 2) Hn) as Hm. fold m in Hm.
  destruct (mod_congr (finish - start + PI) (PI * 2)) as [k1 Hk1]. fold m in Hk1.
  set (d := js_rem (Rabs (start - finish)) (PI * 2)).
  pose proof (js_rem_nonneg (Rabs (start - finish)) (PI * 2) Hn (Rabs_pos _)) as Hd.
  fold d in Hd.
  destruct (js_rem_congr (Rabs (start - finish)) (PI * 2)) as [k2 Hk2]. fold d in Hk2.
  destruct (Rle_dec (start - finish) 0) as [Hs|Hs].
  - (* finish >= start: |start - finish| = finish - start *)
    rewrite Rabs_left1 in Hk2 by assumption.
    assert (E : d - (m - PI) = IZR (k1 - k2) * (PI * 2))
      by (rewrite minus_IZR; lra).
    destruct (multiple_in_window (k1 - k2) (PI * 2) _ Hn E ltac:(lra)) as [K|K];
      rewrite K in E;
      destruct (Rgt_dec d PI); destruct (Rgt_dec (m - PI) 0); lra.
  - (* finish < start: |start - finish| = start - finish *)
    rewrite Rabs_right in Hk2 by lra.
    assert (Hneq : d + (m - PI) = IZR (- k1 - k2) * (PI * 2)).
    { rewrite minus_IZR, opp_IZR. lra. }
    destruct (multiple_in_window (- k1 - k2) (PI * 2) _ Hn Hneq ltac:(lra)) as [K|K];
      rewrite K in Hneq;
      destruct (Rgt_dec d PI); destruct (Rgt_dec (m - PI) 0); lra.
Qed.

End ShortestAngle.

Section ShortestAngleFacts.

Lemma mod_small a n : 0 <= a < n -> Easing.mod_ a n = a.
Proof.
  intros Ha.
  assert (Hn : 0 < n) by lra.
  pose proof (mod_range a n Hn) as Hm.
  destruct (mod_congr a n) as [k Hk].
  assert (E : a - Easing.mod_ a n + n = IZR (k + 1) * n)
    by (rewrite plus_IZR; lra).
  destruct (multiple_in_window (k + 1) n _ Hn E ltac:(lra)) as [K|K];
    rewrite K in E; lra.
Qed.

Lemma mod_full_turn n : 0 < n -> Easing.mod_ n n = 0.
Proof.
  intros Hn.
  pose proof (mod_range n n Hn) as Hm.
  destruct (mod_congr n n) as [k Hk].
  assert (E : n - Easing.mod_ n n = IZR k * n) by lra.
  destruct (multiple_in_window k n _ Hn E ltac:(lra)) as [K|K];
    rewrite K in E; lra.
Qed.

Lemma shortestAngle_0_PI : Easing.shortestAngle 0 PI = - PI.
Proof.
  pose proof PI_RGT_0.
  rewrite shortestAngle_wrapped.
  replace (PI - 0 + PI) with (PI * 2) by lra.
  rewrite mod_full_turn by lra. lra.
Qed.

Lemma shortestAngle_same a : Easing.shortestAngle a a = 0.
Proof.
  pose proof PI_RGT_0.
  rewrite shortestAngle_wrapped.
  replace (a - a + PI) with PI by lra.
  rewrite mod_small by lra. lra.
Qed.

(** C5 (as amended): for every start angle and bearing, [shortestAngle]
    returns a delta with [-PI <= delta < PI] such that [start + delta] and
    the bearing differ by a whole number of turns. *)
Theorem shortestAngle_half_open (start bearing : R) :
  - PI <= Easing.shortestAngle start bearing < PI /\
  exists k : Z, start + Easing.shortestAngle start bearing = bearing + IZR k * (2 * PI).
Proof.
  pose proof PI_RGT_0.
  rewrite shortestAngle_wrapped.
  pose proof (mod_range (bearing - start + PI) (PI * 2) ltac:(lra)).
  split; [lra|].
  destruct (mod_congr (bearing - start + PI) (PI * 2)) as [k Hk].
  exists (- k)%Z. rewrite opp_IZR. lra.
Qed.

(** C5 (as stated) fails where the bearing is opposite to the start: the
    delta returned is [-PI], outside [(-PI, PI]]. *)
Lemma shortestAngle_opposite_excluded :
  ~ (- PI < Easing.shortestAngle 0 PI <= PI /\
     exists k : Z, 0 + Easing.shortestAngle 0 PI = PI + IZR k * (2 * PI)).
Proof.
  rewrite shortestAngle_0_PI. intros [[H _] _]. lra.
Qed.

End ShortestAngleFacts.

(** ** face *)

Section Face.

Variable penner : string -> Easing.curve.

Lemma atan2_straight_up : atan2 (1 - 0) (0 - 0) = PI / 2.
Proof.
  unfold atan2.
  destruct (Rgt_dec (0 - 0) 0); [lra|].
  destruct (Rlt_dec (0 - 0) 0); [lra|].
  destruct (Rgt_dec (1 - 0) 0); [reflexivity | lra].
Qed.

(** What [face] computes for every input: the session it creates has
    duration [|delta - rotation| / speed], where [delta] is the value of
    [shortestAngle], and eases the rotation to [delta]. *)
Lemma face_creates (el : nat) (tx ty speed now rotation ex ey : R)
      (o : Ease.overrides) (s : Ease.system) :
  read (Ease.sys_world s) el "rotation" = VNum rotation ->
  read (Ease.sys_world s) el "x" = VNum ex ->
  read (Ease.sys_world s) el "y" = VNum ey ->
  exists s' id,
    Ease.face penner el tx ty speed o now s = Some (s', id) /\
    Easing.duration (Easing.options (Ease.heap s' id)) =
      Rabs (Easing.shortestAngle rotation (atan2 (ty - ey) (tx - ex)) - rotation) / speed.
Proof.
  intros Hr Hx Hy. unfold Ease.face, Ease.number_field.
  rewrite Hr, Hx, Hy. cbn.
  eexists. eexists. split; [reflexivity|].
  cbn. destruct (Ease.empty _ && _); cbn; rewrite Nat.eqb_refl; reflexivity.
Qed.

(** C1 (the code misses it): an element at the origin, rotated by a
    quarter turn, already faces [(0, 1)]; the angular delta is 0, yet the
    session [face] creates at speed 1 lasts [PI / 2]. *)
Theorem face_duration_when_already_facing (now : R) :
  let s0 := Ease.create (Ease.defaultEaseOptions penner) Scenario.facing_world
                        Scenario.no_listeners in
  exists s id,
    Ease.face penner 0 0 1 1 Ease.no_overrides now s0 = Some (s, id) /\
    Easing.duration (Easing.options (Ease.heap s id)) = PI / 2 /\
    Rabs (Easing.shortestAngle (PI / 2) (atan2 (1 - 0) (0 - 0))) / 1 = 0.
Proof.
  pose proof PI_RGT_0.
  cbn. eexists. eexists. split; [reflexivity|]. cbn.
  unfold Ease.face_angle.
  rewrite atan2_straight_up, shortestAngle_same.
  split.
  - replace (0 - PI / 2) with (- (PI / 2)) by lra.
    rewrite Rabs_Ropp, Rabs_right by lra. lra.
  - rewrite Rabs_R0. lra.
Qed.

End Face.

(** ** addParam and the colour strategies *)

Section Colours.







End Colours.

(** ** The store of elements *)

Section Store.

Lemma read_write_same w el k v : read (write w el k v) el k = v.
Proof.
  unfold read, write, set_field, field_set. cbn.
  now rewrite Nat.eqb_refl, String.eqb_refl.
Qed.

Lemma read_redraw w el k :
  read (mkWorld (elems w) (random w) (S (drawn w))) el k = read w el k.
Proof. reflexivity. Qed.

Lemma read_write_other w el k v el' k' :
  el' <> el \/ k' <> k -> read (write w el k v) el' k' = read w el' k'.
Proof.
  intros H. unfold read, write, set_field, field_set. cbn.
  destruct (Nat.eqb_spec el' el) as [->|]; [|reflexivity].
  destruct (String.eqb_spec k' k) as [->|]; [|reflexivity].
  destruct H; congruence.
Qed.

Lemma Rgeb_true a b : a >= b -> Rgeb a b = true.
Proof. intros. unfold Rgeb. destruct (Rge_dec a b); [reflexivity | contradiction]. Qed.

Lemma Rgeb_false a b : a < b -> Rgeb a b = false.
Proof. intros. unfold Rgeb. destruct (Rge_dec a b); [lra | reflexivity]. Qed.

Lemma Rgtb_true a b : a > b -> Rgtb a b = true.
Proof. intros. unfold Rgtb. destruct (Rgt_dec a b); [reflexivity | contradiction]. Qed.

Lemma Rgtb_false a b : a <= b -> Rgtb a b = false.
Proof. intros. unfold Rgtb. destruct (Rgt_dec a b); [lra | reflexivity]. Qed.

Lemma Rnonzero_true r : r <> 0 -> Rnonzero r = true.
Proof. intros. unfold Rnonzero. destruct (Req_dec_T r 0); [contradiction | reflexivity]. Qed.

Lemma Rnonzero_0 : Rnonzero 0 = false.
Proof. unfold Rnonzero. destruct (Req_dec_T 0 0); [reflexivity | contradiction]. Qed.

End Store.

(** ** The session clock *)

Section Clock.

Import Easing.

(** The fields of the result of [advance] that do not depend on the
    bindings: the clock, the verdict and the options. *)
Lemma advance_below this elapsed w evs :
  time this + elapsed < duration (options this) ->
  let r := advance this elapsed w evs in
  time (session r) = time this + elapsed /\
  finished r = false /\
  options (session r) = options this /\
  events r = evs ++ [EvEach] /\
  after r = snd (update_loop (set_time this (time this + elapsed)) (eases this) w) /\
  eases (session r) = fst (update_loop (set_time this (time this + elapsed)) (eases this) w).
Proof.
  intros Hlt. unfold advance. cbn [time options set_time eases].
  rewrite (Rgeb_false _ _ Hlt). cbn [time options set_time eases].
  destruct (update_loop _ _ _) as [kept w1]. cbn [time options set_eases set_time].
  rewrite (Rgeb_false _ _ Hlt). cbn. repeat split; reflexivity.
Qed.

(** At a phase boundary the binding loop runs at the clock value
    [duration]. *)
Lemma advance_crossing this elapsed w evs :
  time this + elapsed >= duration (options this) ->
  advance this elapsed w evs =
    let this1 := set_time this (duration (options this)) in
    let (kept, w1) := update_loop this1 (eases this) w in
    boundary (set_eases this1 kept) (time this + elapsed - duration (options this))
             w1 (evs ++ [EvEach]).
Proof.
  intros Hge. unfold advance. cbn [time options set_time eases].
  rewrite (Rgeb_true _ _ Hge). cbn [time options set_time eases].
  destruct (update_loop _ _ _) as [kept w1]. cbn [time options set_eases set_time].
  rewrite Rgeb_true by lra. reflexivity.
Qed.

End Clock.

Section ClockConservation.

Import Easing.

Lemma update_running this elapsed w :
  eases this <> [] -> wait_active (options this) = false ->
  update this elapsed w = advance this elapsed w [].
Proof.
  intros Hne Hw. unfold update. rewrite Hw.
  destruct (eases this); [contradiction | reflexivity].
Qed.

(** C9 (as amended): for an update with no wait active, of a session
    whose clock is within [0, duration], by a non-negative elapsed time:
    the clock stays non-negative, and stays at most [duration] when the
    elapsed time is at most [duration]; below the boundary the clock
    advances by the elapsed time; at a boundary followed by a reversed or
    repeated phase the new clock is the leftover
    [time + elapsed - duration], and the bindings are updated again at that
    clock exactly when the leftover is positive; at the final boundary the
    clock rests at [duration] and the session is finished. *)
Theorem update_clock (this : Easing.t) (elapsed : R) (w : world) :
  wait_active (options this) = false ->
  eases this <> [] ->
  0 <= time this <= duration (options this) ->
  0 <= elapsed ->
  let D := duration (options this) in
  let total := time this + elapsed in
  let r := update this elapsed w in
  let w1 := snd (update_loop (set_time this D) (eases this) w) in
  let again := update_all (set_options (session r) (options this)) in
  0 <= time (session r)
  /\ (elapsed <= D -> time (session r) <= D)
  /\ (total < D -> time (session r) = total /\ finished r = false)
  /\ (total >= D ->
      if reverse (options this) then
        time (session r) = total - D /\ finished r = false
        /\ (total > D -> after r = again w1) /\ (total = D -> after r = w1)
      else if repeat_truthy (repeat (options this)) then
        let w2 := fold_left (fun w e => repeat_ease e w) (eases (session r)) w1 in
        time (session r) = total - D /\ finished r = false
        /\ (total > D -> after r = again w2) /\ (total = D -> after r = w2)
      else time (session r) = D /\ finished r = true).
Proof.
  intros Hw Hne [Ht0 HtD] He D total r w1 again.
  subst r w1 again. rewrite (update_running _ _ _ Hne Hw).
  destruct (Rlt_dec total D) as [Hlt|Hge].
  - destruct (advance_below this elapsed w [] Hlt) as (Ht & Hf & _).
    rewrite Ht. subst D total. repeat split; try assumption; try lra.
  - assert (Hge' : total >= D) by lra.
    rewrite (advance_crossing this elapsed w [] Hge').
    cbv zeta. fold D. fold total.
    destruct (update_loop (set_time this D) (eases this) w) as [kept wl].
    cbn [snd]. unfold boundary. cbn [options set_eases set_time time eases].
    destruct (reverse (options this)) eqn:Hrev.
    + cbn [session time set_options set_time set_eases after finished eases options].
      repeat split; try (intros; unfold total, D in *; lra).
      * intros Hgt. rewrite Rnonzero_true by (unfold total, D in *; lra). reflexivity.
      * intros Heq. replace (total - D) with 0 by (unfold total, D in *; lra). now rewrite Rnonzero_0.
    + destruct (repeat_truthy (repeat (options this))) eqn:Hrep.
      * cbn [session time set_options set_time set_eases after finished eases options].
        repeat split; try (intros; unfold total, D in *; lra).
        -- intros Hgt. rewrite Rnonzero_true by (unfold total, D in *; lra). reflexivity.
        -- intros Heq. replace (total - D) with 0 by (unfold total, D in *; lra). now rewrite Rnonzero_0.
      * cbn [session time set_options set_time set_eases after finished eases options].
        repeat split; try (intros; unfold total, D in *; lra).
Qed.

End ClockConservation.

Section ClockScenario.

Import Easing.

Lemma looping_overshoot_clock :
  time (session (update Scenario.looping 25 Scenario.facing_world)) = 0 + 25 - 10.
Proof.
  rewrite update_running by (cbn; congruence).
  rewrite advance_crossing by (cbn; lra).
  cbn. reflexivity.
Qed.

(** C9 (as stated) fails when the elapsed time exceeds a whole phase: a
    repeating session of duration 10 updated by 25 carries the leftover 15
    into the next phase, above the duration. *)
Lemma update_clock_overshoot :
  let r := update Scenario.looping 25 Scenario.facing_world in
  ~ (0 <= time (session r) <= duration (options (session r))).
Proof.
  cbv zeta. rewrite looping_overshoot_clock.
  rewrite update_running by (cbn; congruence).
  rewrite advance_crossing by (cbn; lra).
  cbn. lra.
Qed.

Lemma update_clock_witness :
  let r := update Scenario.looping 4 Scenario.facing_world in
  time (session r) = 0 + 4 /\ finished r = false.
Proof.
  destruct (update_clock Scenario.looping 4 Scenario.facing_world) as (_ & _ & H & _).
  - reflexivity.
  - cbn. congruence.
  - cbn. lra.
  - lra.
  - apply H. cbn. lra.
Defined.

End ClockScenario.

(** ** What a binding writes *)

Section Frames.

Import Easing.

(** An update closure leaves every field outside [writes] as it was. *)
Lemma run_frame this e w el k :
  ~ (el = element e /\ In k (writes e)) ->
  read (run this e w) el k = read w el k.
Proof.
  intros H.
  assert (Hk : forall k0, In k0 (writes e) -> el <> element e \/ k <> k0).
  { intros k0 Hin. destruct (Nat.eq_dec el (element e)); [right | now left].
    intros ->. now apply H. }
  unfold run, writes in *.
  destruct (ease_update e); cbn [In] in Hk.
  - unfold updateCoord. apply read_write_other. apply Hk. now left.
  - unfold updateTint. apply read_write_other. apply Hk. now left.
  - unfold updateBlend.
    destruct (call_ease _ _ _); apply read_write_other; apply Hk; now left.
  - unfold updateShake, draw.
    rewrite read_write_other, read_redraw, read_write_other, read_redraw;
      [reflexivity | apply Hk | apply Hk]; auto.
  - unfold updatePosition.
    rewrite !read_write_other; [reflexivity | apply Hk | apply Hk]; auto.
  - unfold updatePoint. apply read_write_other. apply Hk. now left.
  - unfold updateOne. apply read_write_other. apply Hk. now left.
Qed.

Lemma write_sub_frame w el0 name coord v el k :
  el <> el0 \/ k <> name ->
  read (write_sub w el0 name coord v) el k = read w el k.
Proof. intros H. unfold write_sub. now apply read_write_other. Qed.

(** The repeat reset leaves every field outside [resets] as it was. *)
Lemma repeat_ease_frame e w el k :
  ~ (el = element e /\ In k (resets e)) ->
  read (repeat_ease e w) el k = read w el k.
Proof.
  intros H.
  assert (Hk : forall k0, In k0 (resets e) -> el <> element e \/ k <> k0).
  { intros k0 Hin. destruct (Nat.eq_dec el (element e)); [right | now left].
    intros ->. now apply H. }
  unfold repeat_ease, resets, is_in in *. cbn [existsb] in Hk.
  destruct (String.eqb (entry e) "skewX");
    [cbn in Hk; apply write_sub_frame; apply Hk; auto|].
  destruct (String.eqb (entry e) "skewY");
    [cbn in Hk; apply write_sub_frame; apply Hk; auto|].
  destruct (String.eqb (entry e) "skew");
    [cbn in Hk; rewrite !write_sub_frame; [reflexivity | |]; apply Hk; auto|].
  cbn [orb] in Hk.
  destruct (String.eqb (entry e) "scaleX");
    [cbn in Hk; apply write_sub_frame; apply Hk; auto|].
  destruct (String.eqb (entry e) "scaleY");
    [cbn in Hk; apply write_sub_frame; apply Hk; auto|].
  destruct (String.eqb (entry e) "scale");
    [cbn in Hk; rewrite !write_sub_frame; [reflexivity | |]; apply Hk; auto|].
  cbn [orb] in Hk.
  destruct (String.eqb (entry e) "position").
  - cbn in Hk. rewrite !read_write_other; [reflexivity | |]; apply Hk; auto.
  - cbn in Hk. apply read_write_other. apply Hk. auto.
Qed.

(** Only a shake binding has an effect at completion. *)
Lemma complete_other e w : entry e <> "shake" -> complete e w = w.
Proof.
  intros H. unfold complete. apply String.eqb_neq in H. now rewrite H.
Qed.

Lemma complete_shake e w :
  entry e = "shake" ->
  read (complete e w) (element e) "x" = get_x (start e) /\
  read (complete e w) (element e) "y" = get_y (start e).
Proof.
  intros H. unfold complete. rewrite H. cbn [String.eqb Ascii.eqb Bool.eqb].
  split.
  - rewrite read_write_other by (right; discriminate). apply read_write_same.
  - apply read_write_same.
Qed.

Lemma complete_frame e w el k :
  k <> "x" -> k <> "y" -> read (complete e w) el k = read w el k.
Proof.
  intros Hx Hy. unfold complete.
  destruct (String.eqb (entry e) "shake"); [|reflexivity].
  rewrite !read_write_other; auto.
Qed.

End Frames.

(** ** Sessions that keep their bindings *)

Section Liveness.

Import Easing.

Lemma same_flags_refl w : same_flags w w.
Proof. intros el. reflexivity. Qed.

Lemma same_flags_trans w1 w2 w3 :
  same_flags w1 w2 -> same_flags w2 w3 -> same_flags w1 w3.
Proof. intros H1 H2 el. now rewrite H2, H1. Qed.

Lemma stays_same_flags w w' e : same_flags w w' -> stays w e -> stays w' e.
Proof. intros H (Hl & Hw & Hr). unfold stays. now rewrite H. Qed.

Lemma run_same_flags this e w : ~ In "_destroyed" (writes e) -> same_flags w (run this e w).
Proof. intros H el. apply run_frame. tauto. Qed.

Lemma repeat_ease_same_flags e w :
  ~ In "_destroyed" (resets e) -> same_flags w (repeat_ease e w).
Proof. intros H el. apply repeat_ease_frame. tauto. Qed.

Lemma complete_same_flags e w : same_flags w (complete e w).
Proof. intros el. apply complete_frame; discriminate. Qed.

Lemma fold_same_flags (f : world -> Ease -> world) (P : Ease -> Prop) :
  (forall e w, P e -> same_flags w (f w e)) ->
  forall l w, Forall P l -> same_flags w (fold_left f l w).
Proof.
  intros Hf. induction l as [|e l IH]; intros w Hl; cbn.
  - apply same_flags_refl.
  - inversion Hl; subst.
    eapply same_flags_trans; [apply Hf; eassumption | now apply IH].
Qed.

(** With every binding staying, the loop keeps them all and runs each
    update in order. *)
Lemma update_loop_stays this l w :
  Forall (stays w) l ->
  update_loop this l w = (l, fold_left (fun w e => run this e w) l w).
Proof.
  revert w. induction l as [|e l IH]; intros w Hl; cbn; [reflexivity|].
  inversion Hl as [|? ? He Hl']; subst.
  destruct He as (Hlive & Hw & Hr). rewrite Hlive.
  rewrite IH; [reflexivity|].
  eapply Forall_impl; [|exact Hl'].
  intros a. apply stays_same_flags. now apply run_same_flags.
Qed.

Lemma stays_writes w l : Forall (stays w) l -> Forall (fun e => ~ In "_destroyed" (writes e)) l.
Proof. apply Forall_impl. intros e (_ & H & _). exact H. Qed.

Lemma stays_resets w l : Forall (stays w) l -> Forall (fun e => ~ In "_destroyed" (resets e)) l.
Proof. apply Forall_impl. intros e (_ & _ & H). exact H. Qed.

Lemma run_all_same_flags this l w :
  Forall (stays w) l -> same_flags w (fold_left (fun w e => run this e w) l w).
Proof.
  intros H. apply fold_same_flags with (P := fun e => ~ In "_destroyed" (writes e)).
  - intros. now apply run_same_flags.
  - eapply stays_writes; eassumption.
Qed.

Lemma repeat_all_same_flags l w :
  Forall (stays w) l -> same_flags w (fold_left (fun w e => repeat_ease e w) l w).
Proof.
  intros H. apply fold_same_flags with (P := fun e => ~ In "_destroyed" (resets e)).
  - intros. now apply repeat_ease_same_flags.
  - eapply stays_resets; eassumption.
Qed.

Lemma complete_all_same_flags l w :
  same_flags w (fold_left (fun w e => complete e w) l w).
Proof.
  apply fold_same_flags with (P := fun _ => True).
  - intros. apply complete_same_flags.
  - apply Forall_forall. trivial.
Qed.

Lemma stays_all_same_flags w w' l :
  same_flags w w' -> Forall (stays w) l -> Forall (stays w') l.
Proof. intros H. apply Forall_impl. intros e. now apply stays_same_flags. Qed.

End Liveness.

(** ** Repeating sessions *)

Section Repeating.

Import Easing.

Lemma Rgeb_spec a b : reflect (a >= b) (Rgeb a b).
Proof. unfold Rgeb. destruct (Rge_dec a b); now constructor. Qed.

Lemma phase_filter_each evs :
  filter is_phase_event (evs ++ [EvEach]) = filter is_phase_event evs.
Proof. rewrite filter_app. cbn. apply app_nil_r. Qed.

Lemma phase_filter_last evs ev :
  is_phase_event ev = true ->
  filter is_phase_event ((evs ++ [EvEach]) ++ [ev]) = filter is_phase_event evs ++ [ev].
Proof. intros H. rewrite filter_app, phase_filter_each. cbn. now rewrite H. Qed.

(** One frame of a forward-running session that keeps its bindings, once
    the wait is over. *)
Lemma advance_forward this elapsed w evs :
  live this w -> reverse (options this) = false ->
  filter is_phase_event evs = [] ->
  let r := advance this elapsed w evs in
  let o := options this in
  live (session r) (after r) /\
  reverse (options (session r)) = false /\
  duration (options (session r)) = duration o /\
  wait (options (session r)) = wait o /\
  if Rgeb (time this + elapsed) (duration o) then
    if repeat_truthy (repeat o) then
      finished r = false /\ filter is_phase_event (events r) = [EvRepeat] /\
      time (session r) = time this + elapsed - duration o /\
      repeat (options (session r)) = decrement (repeat o)
    else finished r = true /\ filter is_phase_event (events r) = [EvComplete]
  else
    finished r = false /\ filter is_phase_event (events r) = [] /\
    time (session r) = time this + elapsed /\
    repeat (options (session r)) = repeat o.
Proof.
  intros [Hne Hst] Hrev Hevs r o. subst r o.
  destruct (Rgeb_spec (time this + elapsed) (duration (options this))) as [Hge|Hlt].
  - rewrite (advance_crossing _ _ _ _ Hge). cbv zeta.
    rewrite update_loop_stays by assumption.
    set (w1 := fold_left _ (eases this) w).
    assert (F1 : same_flags w w1) by now apply run_all_same_flags.
    unfold boundary. cbn [options set_eases set_time time eases].
    rewrite Hrev.
    destruct (repeat_truthy (repeat (options this))) eqn:Hrep.
    + cbn [session after finished events options set_options set_repeat set_time
           set_eases time eases reverse duration wait repeat].
      set (w2 := fold_left _ (eases this) w1).
      assert (F2 : same_flags w1 w2).
      { apply repeat_all_same_flags. eapply stays_all_same_flags; eassumption. }
      rewrite phase_filter_last, Hevs by reflexivity.
      repeat split; try assumption; try reflexivity.
      destruct (Rnonzero _).
      * eapply stays_all_same_flags; [|exact Hst].
        eapply same_flags_trans; [exact F1|].
        eapply same_flags_trans; [exact F2|].
        apply run_all_same_flags.
        eapply stays_all_same_flags; [|exact Hst].
        eapply same_flags_trans; eassumption.
      * eapply stays_all_same_flags; [|exact Hst].
        eapply same_flags_trans; eassumption.
    + cbn [session after finished events options set_options set_repeat set_time
           set_eases time eases reverse duration wait repeat].
      rewrite phase_filter_last, Hevs by reflexivity.
      repeat split; try assumption; try reflexivity.
      eapply stays_all_same_flags; [|exact Hst].
      eapply same_flags_trans; [exact F1|]. apply complete_all_same_flags.
  - assert (Hlt' : time this + elapsed < duration (options this)) by lra.
    destruct (advance_below this elapsed w evs Hlt') as (Ht & Hf & Ho & He & Ha & Hk).
    rewrite update_loop_stays in Ha, Hk by assumption. cbn [fst snd] in Ha, Hk.
    rewrite Ho, He, phase_filter_each, Ht.
    repeat split; try assumption; try reflexivity.
    + unfold live. rewrite Hk. assumption.
    + unfold live. rewrite Hk, Ha.
      eapply stays_all_same_flags; [|exact Hst]. now apply run_all_same_flags.
Qed.

(** [update] with the wait countdown spelled out. *)
Lemma update_settled this elapsed w :
  eases this <> [] ->
  update this elapsed w =
    match wait (options this) with
    | Some x =>
        if Rnonzero x then
          if Rgtb (x - elapsed) 0
          then mkResult (set_options this (set_wait (options this) (x - elapsed)))
                        w [EvWait] false
          else advance (set_options this (set_wait (options this) 0))
                       (- (x - elapsed)) w [EvWaitEnd]
        else advance this elapsed w []
    | None => advance this elapsed w []
    end.
Proof.
  intros Hne. unfold update, wait_active.
  destruct (eases this); [contradiction|]. cbn [is_nil].
  destruct (wait (options this)) as [x|]; [|reflexivity].
  destruct (Rnonzero x); [|reflexivity].
  cbn [options set_options set_wait wait].
  destruct (Rgtb (x - elapsed) 0); reflexivity.
Qed.

Lemma complete_in_phase evs :
  In EvComplete evs <-> In EvComplete (filter is_phase_event evs).
Proof. rewrite filter_In. cbn. tauto. Qed.

Lemma phase_events_cons r rs :
  phase_events (r :: rs) = filter is_phase_event (events r) ++ phase_events rs.
Proof. unfold phase_events. cbn. apply filter_app. Qed.

Lemma repeat_truthy_count x n :
  x = INR n -> repeat_truthy (RepNum x) = match n with O => false | S _ => true end.
Proof.
  intros ->. cbn [repeat_truthy]. destruct n.
  - apply Rnonzero_0.
  - apply Rnonzero_true. apply not_0_INR. discriminate.
Qed.

(** A forward-running session with [n] repeats left emits, at its phase
    boundaries, [n] repeat notifications and then the completion; it
    reports that it is finished exactly in the frame of the completion. *)
Lemma play_counted frames :
  forall this w n x,
    live this w -> reverse (options this) = false ->
    repeat (options this) = RepNum x -> x = INR n ->
    phase_events (play this w frames) =
      firstn (crossings (duration (options this)) (wait (options this)) (time this) frames)
             (List.repeat EvRepeat n ++ [EvComplete]) /\
    Forall (fun r => finished r = true <-> In EvComplete (events r)) (play this w frames).
Proof.
  induction frames as [|elapsed rest IH]; intros this w n x Hlive Hrev Hrep Hx.
  - cbn. split; [reflexivity | constructor].
  - cbn [play crossings]. rewrite phase_events_cons.
    rewrite (update_settled this elapsed w (proj1 Hlive)).
    unfold settle.
    assert (Hblocked : forall y,
      let this' := set_options this (set_wait (options this) y) in
      live this' w /\ reverse (options this') = false /\
      repeat (options this') = RepNum x /\
      duration (options this') = duration (options this) /\
      time this' = time this /\ wait (options this') = Some y).
    { intros y. cbn. repeat split; try assumption; apply Hlive. }
    assert (Hstep : forall this' e' evs,
      live this' w -> reverse (options this') = false ->
      repeat (options this') = RepNum x ->
      duration (options this') = duration (options this) ->
      time this' = time this ->
      filter is_phase_event evs = [] ->
      let r := advance this' e' w evs in
      filter is_phase_event (events r)
        ++ phase_events (if finished r then [] else play (session r) (after r) rest) =
      firstn (if Rgeb (time this + e') (duration (options this))
              then S (crossings (duration (options this)) (wait (options this'))
                                (time this + e' - duration (options this)) rest)
              else crossings (duration (options this)) (wait (options this'))
                             (time this + e') rest)
             (List.repeat EvRepeat n ++ [EvComplete]) /\
      Forall (fun r => finished r = true <-> In EvComplete (events r))
             (r :: (if finished r then [] else play (session r) (after r) rest))).
    { intros this' e' evs Hl' Hrev' Hrep' HD Ht Hevs r.
      destruct (advance_forward this' e' w evs Hl' Hrev' Hevs)
        as (Hl1 & Hrev1 & HD1 & Hw1 & Hcase).
      fold r in Hl1, Hrev1, HD1, Hw1, Hcase.
      rewrite Ht, HD in Hcase. rewrite Hrep' in Hcase.
      rewrite (repeat_truthy_count x n Hx) in Hcase.
      destruct (Rgeb (time this + e') (duration (options this))).
      - destruct n as [|m].
        + destruct Hcase as (Hf & Hev). rewrite Hf, Hev. cbn. rewrite firstn_nil.
          split; [reflexivity|].
          constructor; [|constructor].
          rewrite complete_in_phase, Hev, Hf. cbn. tauto.
        + destruct Hcase as (Hf & Hev & Ht1 & Hrep1). rewrite Hf, Hev.
          destruct (IH (session r) (after r) m (x - 1) Hl1 Hrev1 Hrep1) as [IH1 IH2].
          { rewrite Hx, S_INR. lra. }
          rewrite IH1, HD1, HD, Hw1, Ht1. cbn. split; [reflexivity|].
          constructor; [|exact IH2].
          rewrite complete_in_phase, Hev, Hf. cbn. intuition discriminate.
      - destruct Hcase as (Hf & Hev & Ht1 & Hrep1). rewrite Hf, Hev.
        destruct (IH (session r) (after r) n x Hl1 Hrev1 Hrep1 Hx) as [IH1 IH2].
        rewrite IH1, HD1, HD, Hw1, Ht1. cbn. split; [reflexivity|].
        constructor; [|exact IH2].
        rewrite complete_in_phase, Hev, Hf. cbn. intuition discriminate. }
    destruct (wait (options this)) as [y|] eqn:Hwait.
    + destruct (Rnonzero y).
      * destruct (Rgtb (y - elapsed) 0).
        -- destruct (Hblocked (y - elapsed)) as (B1 & B2 & B3 & B4 & B5 & B6).
           cbn [events finished session after].
           destruct (IH _ w n x B1 B2 B3 Hx) as [IH1 IH2].
           rewrite IH1, B4, B5, B6. cbn. split; [reflexivity|].
           constructor; [|exact IH2]. cbn. intuition discriminate.
        -- destruct (Hblocked 0) as (B1 & B2 & B3 & B4 & B5 & B6).
           apply (Hstep _ (- (y - elapsed)) [EvWaitEnd] B1 B2 B3 B4 B5 eq_refl).
      * rewrite <- Hwait.
        apply (Hstep this elapsed [] Hlive Hrev Hrep eq_refl eq_refl eq_refl).
    + rewrite <- Hwait.
      apply (Hstep this elapsed [] Hlive Hrev Hrep eq_refl eq_refl eq_refl).
Qed.

(** A forward-running session with [repeat = true] emits a repeat
    notification at every phase boundary and never reports that it is
    finished. *)
Lemma play_forever frames :
  forall this w,
    live this w -> reverse (options this) = false ->
    repeat (options this) = RepBool true ->
    phase_events (play this w frames) =
      List.repeat EvRepeat
        (crossings (duration (options this)) (wait (options this)) (time this) frames) /\
    Forall (fun r => finished r = false) (play this w frames).
Proof.
  induction frames as [|elapsed rest IH]; intros this w Hlive Hrev Hrep.
  - cbn. split; [reflexivity | constructor].
  - cbn [play crossings]. rewrite phase_events_cons.
    rewrite (update_settled this elapsed w (proj1 Hlive)).
    unfold settle.
    assert (Hblocked : forall y,
      let this' := set_options this (set_wait (options this) y) in
      live this' w /\ reverse (options this') = false /\
      repeat (options this') = RepBool true /\
      duration (options this') = duration (options this) /\
      time this' = time this /\ wait (options this') = Some y).
    { intros y. cbn. repeat split; try assumption; apply Hlive. }
    assert (Hstep : forall this' e' evs,
      live this' w -> reverse (options this') = false ->
      repeat (options this') = RepBool true ->
      duration (options this') = duration (options this) ->
      time this' = time this ->
      filter is_phase_event evs = [] ->
      let r := advance this' e' w evs in
      filter is_phase_event (events r)
        ++ phase_events (if finished r then [] else play (session r) (after r) rest) =
      List.repeat EvRepeat
        (if Rgeb (time this + e') (duration (options this))
         then S (crossings (duration (options this)) (wait (options this'))
                           (time this + e' - duration (options this)) rest)
         else crossings (duration (options this)) (wait (options this'))
                        (time this + e') rest) /\
      Forall (fun r => finished r = false)
             (r :: (if finished r then [] else play (session r) (after r) rest))).
    { intros this' e' evs Hl' Hrev' Hrep' HD Ht Hevs r.
      destruct (advance_forward this' e' w evs Hl' Hrev' Hevs)
        as (Hl1 & Hrev1 & HD1 & Hw1 & Hcase).
      fold r in Hl1, Hrev1, HD1, Hw1, Hcase.
      rewrite Ht, HD in Hcase. rewrite Hrep' in Hcase. cbn [repeat_truthy] in Hcase.
      destruct (Rgeb (time this + e') (duration (options this)));
        destruct Hcase as (Hf & Hev & Ht1 & Hrep1); rewrite Hf, Hev;
        destruct (IH (session r) (after r) Hl1 Hrev1 Hrep1) as [IH1 IH2];
        rewrite IH1, HD1, HD, Hw1, Ht1; cbn; (split; [reflexivity|]);
        constructor; assumption. }
    destruct (wait (options this)) as [y|] eqn:Hwait.
    + destruct (Rnonzero y).
      * destruct (Rgtb (y - elapsed) 0).
        -- destruct (Hblocked (y - elapsed)) as (B1 & B2 & B3 & B4 & B5 & B6).
           cbn [events finished session after].
           destruct (IH _ w B1 B2 B3) as [IH1 IH2].
           rewrite IH1, B4, B5, B6. cbn. split; [reflexivity|].
           constructor; [reflexivity | exact IH2].
        -- destruct (Hblocked 0) as (B1 & B2 & B3 & B4 & B5 & B6).
           apply (Hstep _ (- (y - elapsed)) [EvWaitEnd] B1 B2 B3 B4 B5 eq_refl).
      * rewrite <- Hwait.
        apply (Hstep this elapsed [] Hlive Hrev Hrep eq_refl eq_refl eq_refl).
    + rewrite <- Hwait.
      apply (Hstep this elapsed [] Hlive Hrev Hrep eq_refl eq_refl eq_refl).
Qed.

(** C8 (as amended): a session with at least one binding, none of them on
    a destroyed target, [reverse = false], played over any frames.  With
    [repeat = 3] its phase notifications are, boundary after boundary,
    three repeats and then the completion, and it reports [finished] in
    the frame of the completion and in no other; with [repeat = true]
    every boundary is a repeat and no frame reports [finished]. *)
Theorem repeat_three_or_forever (this : Easing.t) (w : world) (frames : list R) :
  live this w ->
  reverse (options this) = false ->
  let n := crossings (duration (options this)) (wait (options this)) (time this) frames in
  (repeat (options this) = RepNum 3 ->
   phase_events (play this w frames) =
     firstn n [EvRepeat; EvRepeat; EvRepeat; EvComplete] /\
   Forall (fun r => finished r = true <-> In EvComplete (events r)) (play this w frames))
  /\
  (repeat (options this) = RepBool true ->
   phase_events (play this w frames) = List.repeat EvRepeat n /\
   Forall (fun r => finished r = false) (play this w frames)).
Proof.
  intros Hlive Hrev n. split; intros Hrep.
  - apply (play_counted frames this w 3%nat 3 Hlive Hrev Hrep). simpl. lra.
  - now apply play_forever.
Qed.

(** C8 (as stated) fails for a session without bindings: it reports
    [finished] at its first frame, also with [repeat = true]. *)
Lemma idle_forever_finishes :
  ~ Forall (fun r => finished r = false)
           (play Scenario.idle Scenario.facing_world [16]).
Proof.
  intros H. inversion H as [|r rs Hf _]; subst. cbn in Hf. discriminate.
Qed.

Lemma looping_live : live Scenario.looping Scenario.facing_world.
Proof.
  split; [cbn; congruence|].
  constructor; [|constructor].
  split; [reflexivity|]. split; cbn; intros [H|[]]; discriminate.
Defined.

Lemma thrice_live : live Scenario.thrice Scenario.facing_world.
Proof.
  split; [cbn; congruence|].
  constructor; [|constructor].
  split; [reflexivity|]. split; cbn; intros [H|[]]; discriminate.
Defined.

Lemma repeat_three_or_forever_witness :
  Forall (fun r => finished r = true <-> In EvComplete (events r))
         (play Scenario.thrice Scenario.facing_world [10; 10; 10; 10])
  /\ Forall (fun r => finished r = false)
            (play Scenario.looping Scenario.facing_world [4; 10; 3]).
Proof.
  split.
  - destruct (repeat_three_or_forever Scenario.thrice Scenario.facing_world [10; 10; 10; 10]
                                      thrice_live eq_refl) as [H _].
    apply H. reflexivity.
  - destruct (repeat_three_or_forever Scenario.looping Scenario.facing_world [4; 10; 3]
                                      looping_live eq_refl) as [_ H].
    apply H. reflexivity.
Defined.

End Repeating.

(** ** The shake strategy at a repeat boundary *)

Section Shake.

Import Easing.

Lemma shake_offset_zero : IZR (Zfloor (Scenario.zeros 0 * 10)) - IZR (Zfloor (10 / 2)) = -5.
Proof.
  unfold Scenario.zeros. rewrite (Zfloor_eq 0) by lra. rewrite (Zfloor_eq 5) by lra. lra.
Qed.

(** C2 (the code misses it): a repeating shake of radius 10 on an element
    at (7, 9), updated by exactly one phase with every random draw 0.  The
    frame ends at a repeat boundary, where the reset writes the recorded
    start into a field named [shake]; [x] and [y] keep the jittered values
    (2, 4) instead of the start (7, 9). *)
Theorem shake_repeat_keeps_jitter :
  let r := update Scenario.shaking 1000 Scenario.shake_world in
  map start (eases Scenario.shaking) = [VPt (VNum 7) (VNum 9)] /\
  events r = [EvEach; EvRepeat] /\ finished r = false /\
  read (after r) 0 "x" = VNum 2 /\
  read (after r) 0 "y" = VNum 4 /\
  read (after r) 0 "shake" = VPt (VNum 7) (VNum 9).
Proof.
  cbv zeta.
  rewrite update_running by (cbn; congruence).
  rewrite advance_crossing by (cbn; lra).
  cbn. replace (0 + 1000 - 1000) with 0 by lra. rewrite Rnonzero_0.
  cbn. unfold Scenario.zeros at 2. rewrite shake_offset_zero.
  rewrite (Zfloor_eq 0) by lra. rewrite (Zfloor_eq 5) by lra.
  repeat split; f_equal; lra.
Qed.

End Shake.

(** ** The reversal round trip *)

Section Slots.

Import Easing.

Lemma reverse_ease_shape e :
  element (reverse_ease e) = element e /\
  entry (reverse_ease e) = entry e /\
  ease_update (reverse_ease e) = ease_update e.
Proof. unfold reverse_ease. destruct (String.eqb (entry e) "position"); now cbn. Qed.


Lemma reverse_ease_stays w e : stays w e -> stays w (reverse_ease e).
Proof.
  destruct (reverse_ease_shape e) as (He & Hn & Hu).
  unfold stays, writes, resets. now rewrite He, Hn, Hu.
Qed.


Lemma get_set_x o v : is_point o = true -> get_x (set_x o v) = v /\ get_y (set_x o v) = get_y o.
Proof. destruct o; try discriminate. now cbn. Qed.

Lemma get_set_y o v : is_point o = true -> get_y (set_y o v) = v /\ get_x (set_y o v) = get_x o.
Proof. destruct o; try discriminate. now cbn. Qed.

Lemma get_x_set_y o v : get_x (set_y o v) = get_x o.
Proof. now destruct o. Qed.

Lemma get_y_set_x o v : get_y (set_x o v) = get_y o.
Proof. now destruct o. Qed.

Lemma is_point_set_x o v : is_point (set_x o v) = is_point o.
Proof. now destruct o. Qed.

Lemma is_point_set_y o v : is_point (set_y o v) = is_point o.
Proof. now destruct o. Qed.

Lemma look_key w w' el s :
  read w' el (slot_key s) = read w el (slot_key s) -> look w' el s = look w el s.
Proof. intros H. destruct s as [k|k []]; cbn in *; now rewrite H. Qed.

(** An update leaves the slots it does not overlap as they were. *)
Lemma run_look_frame this e w el s :
  (el = element e -> forall a, In a (slots e) -> overlap s a = false) ->
  look (run this e w) el s = look w el s.
Proof.
  intros H.
  destruct (Nat.eq_dec el (element e)) as [->|Hel];
    [|apply look_key, run_frame; tauto].
  specialize (H eq_refl).
  unfold slots in H. unfold run.
  destruct (ease_update e) eqn:Hu.
  - (* one coordinate *)
    pose proof (H _ (or_introl eq_refl)) as Ho. unfold overlap in Ho. cbn in Ho.
    unfold updateCoord.
    destruct (String.eqb_spec (slot_key s) name) as [Hk|Hk].
    + destruct s as [k|k c]; cbn in Hk, Ho; subst; [discriminate|].
      unfold look. rewrite read_write_same.
      destruct c, coord; try discriminate;
        [apply get_x_set_y | apply get_y_set_x].
    + apply look_key, read_write_other. now right.
  - pose proof (H _ (or_introl eq_refl)) as Ho. unfold overlap in Ho. cbn in Ho.
    unfold updateTint. apply look_key, read_write_other. right.
    intros Hk. rewrite Hk in Ho. destruct s as [|? []]; discriminate.
  - pose proof (H _ (or_introl eq_refl)) as Ho. unfold overlap in Ho. cbn in Ho.
    unfold updateBlend. destruct (call_ease _ _ _);
      apply look_key, read_write_other; right;
      intros Hk; rewrite Hk in Ho; destruct s as [|? []]; discriminate.
  - pose proof (H (Whole "x") ltac:(cbn; auto)) as Hx.
    pose proof (H (Whole "y") ltac:(cbn; auto)) as Hy.
    unfold overlap in Hx, Hy. cbn in Hx, Hy.
    unfold updateShake, draw. apply look_key.
    rewrite read_write_other, read_redraw, read_write_other, read_redraw;
      [reflexivity | right | right];
      intros Hk; rewrite Hk in *; destruct s as [|? []]; cbn in *; discriminate.
  - pose proof (H (Whole "x") ltac:(cbn; auto)) as Hx.
    pose proof (H (Whole "y") ltac:(cbn; auto)) as Hy.
    unfold overlap in Hx, Hy. cbn in Hx, Hy.
    unfold updatePosition. apply look_key.
    rewrite !read_write_other; [reflexivity | right | right];
      intros Hk; rewrite Hk in *; destruct s as [|? []]; cbn in *; discriminate.
  - pose proof (H (Part entry0 X) ltac:(cbn; auto)) as Hx.
    pose proof (H (Part entry0 Y) ltac:(cbn; auto)) as Hy.
    unfold overlap in Hx, Hy. cbn in Hx, Hy.
    unfold updatePoint. apply look_key, read_write_other. right.
    intros Hk. rewrite Hk, String.eqb_refl in Hx, Hy.
    destruct s as [|? []]; discriminate.
  - pose proof (H _ (or_introl eq_refl)) as Ho. unfold overlap in Ho. cbn in Ho.
    unfold updateOne. apply look_key, read_write_other. right.
    intros Hk. rewrite Hk, String.eqb_refl in Ho.
    destruct s as [|? []]; discriminate.
Qed.

End Slots.

Section Packing.

Import Easing.

Lemma wrap32_small z : (- 2 ^ 31 <= z < 2 ^ 31)%Z -> wrap32 z = z.
Proof. intros H. unfold wrap32. rewrite Z.mod_small; lia. Qed.

Lemma Rtrunc_IZR z : Rtrunc (IZR z) = z.
Proof.
  unfold Rtrunc. destruct (Rle_dec 0 (IZR z)).
  - apply ZfloorZ.
  - unfold Zceil. rewrite ZfloorNZ. lia.
Qed.

Lemma int32_of_IZR z : (- 2 ^ 31 <= z < 2 ^ 31)%Z -> int32_of_R (IZR z) = z.
Proof. intros H. unfold int32_of_R. rewrite Rtrunc_IZR. now apply wrap32_small. Qed.

Lemma testbit_255 n : (0 <= n)%Z -> Z.testbit 255 n = (n <? 8)%Z.
Proof.
  intros Hn. change 255%Z with (Z.ones 8). apply Z.testbit_ones_nonneg; lia.
Qed.

(** Splitting a colour into its three channels and packing them again
    gives the colour back. *)
Lemma repack z :
  Z.lor (Z.lor (Z.shiftl (Z.shiftr z 16) 16)
               (Z.shiftl (Z.land (Z.shiftr z 8) 255) 8))
        (Z.land z 255) = z.
Proof.
  apply Z.bits_inj'. intros n Hn.
  rewrite !Z.lor_spec, Z.land_spec, testbit_255 by assumption.
  destruct (Z.ltb_spec n 8) as [H8|H8].
  - rewrite !Z.shiftl_spec_low by lia. cbn. now rewrite andb_true_r.
  - rewrite andb_false_r, orb_false_r.
    rewrite !Z.shiftl_spec by lia.
    destruct (Z.ltb_spec n 16) as [H16|H16].
    + rewrite (Z.testbit_neg_r _ (n - 16)) by lia. cbn [orb].
      rewrite Z.land_spec, testbit_255, Z.shiftr_spec by lia.
      replace (n - 8 + 8)%Z with n by lia.
      destruct (Z.ltb_spec (n - 8) 8); [apply andb_true_r | lia].
    + rewrite Z.land_spec, testbit_255, !Z.shiftr_spec by lia.
      replace (n - 16 + 16)%Z with n by lia.
      destruct (Z.ltb_spec (n - 8) 8); [lia|].
      now rewrite andb_false_r, orb_false_r.
Qed.

Lemma channel_bounds z :
  (0 <= z < 2 ^ 24)%Z ->
  (0 <= Z.shiftr z 16 < 2 ^ 8)%Z /\
  (0 <= Z.land (Z.shiftr z 8) 255 < 2 ^ 8)%Z /\
  (0 <= Z.land z 255 < 2 ^ 8)%Z.
Proof.
  intros Hz. rewrite !Z.shiftr_div_pow2 by lia.
  change 255%Z with (Z.ones 8). rewrite !Z.land_ones by lia.
  repeat split; try (apply Z.mod_pos_bound; lia).
  - apply Z.div_pos; lia.
  - apply Z.div_lt_upper_bound; lia.
Qed.



End Packing.

Section Home.

Import Easing.

Variable this : Easing.t.
Hypothesis at_end : time this = duration (options this).
Hypothesis convention : conventional (ease (options this)) (duration (options this)).


Lemma pointy_field w e k :
  pointy w e -> is_in k ["scale"; "skew"] = true -> is_point (read w (element e) k) = true.
Proof.
  intros [Hsc Hsk] Hk. unfold is_in in Hk. cbn [existsb] in Hk.
  destruct (String.eqb_spec k "scale") as [->|]; [assumption|].
  destruct (String.eqb_spec k "skew") as [->|]; [assumption | discriminate].
Qed.


End Home.

Section Phases.

Import Easing.

Lemma eased_tame e : eased e -> tame e.
Proof.
  intros [_ He] k Hin. unfold slots in Hin.
  destruct (ease_update e); cbn in Hin;
    repeat match goal with
           | H : _ \/ _ |- _ => destruct H
           | H : Whole _ = Whole _ |- _ => injection H as <-
           | H : Part _ _ = Whole _ |- _ => discriminate H
           | H : False |- _ => contradiction
           end;
    try (split; discriminate).
  destruct He as (_ & Hk & _). unfold is_in in Hk. cbn in Hk.
  apply orb_false_elim in Hk. destruct Hk as [H1 H2].
  apply orb_false_elim in H2. destruct H2 as [H2 _].
  apply String.eqb_neq in H1, H2. now split.
Qed.


Lemma run_keeps_point this e w el k :
  (forall k', In (Whole k') (slots e) -> k' <> k) ->
  is_point (read w el k) = true -> is_point (read (run this e w) el k) = true.
Proof.
  intros Hk Hp. unfold slots in Hk. unfold run.
  destruct (ease_update e) eqn:Hu; cbn in Hk.
  - unfold updateCoord.
    destruct (Nat.eq_dec el (element e)) as [->|];
      [|rewrite read_write_other by (now left); assumption].
    destruct (String.eqb_spec k name) as [->|];
      [|rewrite read_write_other by (now right); assumption].
    rewrite read_write_same. destruct coord;
      now rewrite ?is_point_set_x, ?is_point_set_y.
  - unfold updateTint. rewrite read_write_other; [assumption|].
    right. intros ->. now apply (Hk "tint"); auto.
  - unfold updateBlend. destruct (call_ease _ _ _);
      (rewrite read_write_other; [assumption|]);
      right; intros ->; now apply (Hk "tint"); auto.
  - unfold updateShake, draw.
    rewrite read_write_other, read_redraw, read_write_other, read_redraw;
      [assumption | right | right]; intros ->;
      [now apply (Hk "x"); auto | now apply (Hk "y"); auto].
  - unfold updatePosition.
    rewrite !read_write_other; [assumption | right | right]; intros ->;
      [now apply (Hk "x"); auto | now apply (Hk "y"); auto].
  - unfold updatePoint.
    destruct (Nat.eq_dec el (element e)) as [->|];
      [|rewrite read_write_other by (now left); assumption].
    destruct (String.eqb_spec k entry0) as [->|];
      [|rewrite read_write_other by (now right); assumption].
    rewrite read_write_same. now rewrite is_point_set_x, is_point_set_y.
  - unfold updateOne. rewrite read_write_other; [assumption|].
    right. intros ->. now apply (Hk entry0); auto.
Qed.

Lemma run_pointy this e w b : tame e -> pointy w b -> pointy (run this e w) b.
Proof.
  intros Ht [Hsc Hsk]. split; apply run_keeps_point; try assumption;
    intros k' Hin; now destruct (Ht k' Hin).
Qed.

Lemma run_sound this e w l :
  stays w e -> tame e -> sound w l -> sound (run this e w) l.
Proof.
  intros (_ & Hw & _) Ht (Hs & Hp & Hta). repeat split; try assumption.
  - eapply stays_all_same_flags; [|exact Hs]. now apply run_same_flags.
  - eapply Forall_impl; [|exact Hp]. intros b. now apply run_pointy.
Qed.

Lemma run_all_sound this l' : forall w l,
  sound w l -> Forall (stays w) l' -> Forall tame l' ->
  sound (fold_left (fun w e => run this e w) l' w) l.
Proof.
  induction l' as [|e l' IH]; intros w l Hl Hs Ht; cbn; [assumption|].
  inversion Hs; inversion Ht; subst.
  apply IH; [now apply run_sound | | assumption].
  eapply stays_all_same_flags; [|eassumption].
  apply run_same_flags. match goal with H : stays w e |- _ => apply H end.
Qed.


End Phases.

Section RoundTrip.

Import Easing.

Lemma update_within this elapsed w :
  eases this <> [] -> Forall (stays w) (eases this) ->
  wait_active (options this) = false ->
  time this + elapsed < duration (options this) ->
  update this elapsed w =
    mkResult (set_time this (time this + elapsed))
             (fold_left (fun w e => run (set_time this (time this + elapsed)) e w)
                        (eases this) w)
             [EvEach] false.
Proof.
  intros Hne Hst Hw Hlt.
  rewrite (update_running _ _ _ Hne Hw). unfold advance.
  cbn [time options set_time eases]. rewrite (Rgeb_false _ _ Hlt).
  rewrite update_loop_stays by assumption.
  cbn [time options set_eases set_time]. rewrite (Rgeb_false _ _ Hlt).
  reflexivity.
Qed.




Lemma complete_all_other l w :
  Forall (fun e => entry e <> "shake") l ->
  fold_left (fun w e => complete e w) l w = w.
Proof.
  revert w. induction l as [|e l IH]; intros w Hl; cbn; [reflexivity|].
  inversion Hl; subst. rewrite complete_other by assumption. now apply IH.
Qed.

Lemma clash_free b b' s :
  clash b b' = false -> In s (slots b) -> element b = element b' ->
  forall a, In a (slots b') -> overlap s a = false.
Proof.
  intros Hc Hs He a Ha. unfold clash in Hc.
  rewrite He, Nat.eqb_refl in Hc. cbn [andb] in Hc.
  destruct (overlap s a) eqn:Ho; [|reflexivity].
  assert (existsb (fun a => existsb (overlap a) (slots b')) (slots b) = true).
  { apply existsb_exists. exists s. split; [assumption|].
    apply existsb_exists. now exists a. }
  congruence.
Qed.




End RoundTrip.

Section RoundTripScenario.

Import Easing.

Lemma linear_conventional D : D <> 0 -> conventional Scenario.linear D.
Proof. intros HD s d. unfold Scenario.linear. split; field; assumption. Qed.




End RoundTripScenario.

(** ** The frame requests of a group *)

Section Armed.

Import Ease.

Variable penner : string -> Easing.curve.

Lemma no_actions (ls : nat -> Easing.event -> list action) id evs :
  (forall id ev, ls id ev = []) -> flat_map (ls id) evs = [].
Proof.
  intros H. induction evs as [|ev evs IH]; cbn; [reflexivity|].
  now rewrite H, IH.
Qed.

(** Without listeners an iteration of the tick touches the elements, the
    sessions and the collection, and nothing else. *)
Lemma update_one_shape elapsed now s id :
  (forall id ev, listeners s id ev = []) ->
  exists w' hp' l',
    update_one penner elapsed now s id =
      mkSystem w' hp' (allocated s) (set_easings (group s) l')
               (raf_pending s) (raf_issued s) (ticker_listeners s) (listeners s).
Proof.
  intros Hls. unfold update_one.
  destruct s as [w hp al g pend iss tl ls]. cbn in Hls.
  cbn [set_world store listeners sys_world heap allocated group raf_pending raf_issued
       ticker_listeners].
  rewrite (no_actions ls id _ Hls). cbn [fold_left].
  destruct g as [o l e h lt].
  destruct (Easing.finished _); cbn; eexists; eexists; eexists; reflexivity.
Qed.

Lemma update_loop_shape elapsed now list : forall s,
  (forall id ev, listeners s id ev = []) ->
  exists w' hp' l',
    fold_left (update_one penner elapsed now) list s =
      mkSystem w' hp' (allocated s) (set_easings (group s) l')
               (raf_pending s) (raf_issued s) (ticker_listeners s) (listeners s).
Proof.
  induction list as [|id list IH]; intros s Hls; cbn [fold_left].
  - destruct s as [w hp al [o l e h lt] pend iss tl ls]. cbn.
    eexists; eexists; eexists; reflexivity.
  - destruct (update_one_shape elapsed now s id Hls) as (w1 & hp1 & l1 & E).
    rewrite E.
    destruct (IH (mkSystem w1 hp1 (allocated s) (set_easings (group s) l1)
                           (raf_pending s) (raf_issued s) (ticker_listeners s)
                           (listeners s)) Hls) as (w2 & hp2 & l2 & E2).
    rewrite E2. cbn. eexists; eexists; eexists; reflexivity.
Qed.




Lemma removeEase_loop_shape el p l : forall s,
  exists hp' kept,
    removeEase_loop el p l s =
      (kept, mkSystem (sys_world s) hp' (allocated s) (group s) (raf_pending s)
                      (raf_issued s) (ticker_listeners s) (listeners s)) /\
    (l = [] -> kept = []).
Proof.
  induction l as [|id l IH]; intros s; cbn [removeEase_loop].
  - destruct s. cbn. eexists; eexists; split; reflexivity.
  - destruct (Easing.remove (heap s id) (Easing.Matching el p)) as [e gone].
    destruct (IH (store s id e)) as (hp' & kept & E & _). rewrite E.
    destruct s. cbn. eexists; eexists; split; [reflexivity | discriminate].
Qed.











End Armed.

(** ** A removal during the tick *)

Section Snapshot.

Import Ease.

Variable penner : string -> Easing.curve.

Lemma update_idle this elapsed w :
  Easing.eases this = [] -> Easing.update this elapsed w = Easing.mkResult this w [] true.
Proof. intros H. unfold Easing.update. now rewrite H. Qed.

(** An iteration whose session goes on: its listeners act on the group. *)
Lemma update_one_running elapsed now s id sess w evs :
  Easing.update (heap s id) elapsed (sys_world s) = Easing.mkResult sess w evs false ->
  update_one penner elapsed now s id =
    fold_left (fun s a => perform penner now a s) (flat_map (listeners s id) evs)
              (set_world (store s id sess) w).
Proof. intros H. unfold update_one. rewrite H. destruct s; reflexivity. Qed.

(** An iteration whose session is finished: the collection is spliced at
    the index of the session, also when that index is -1. *)
Lemma update_one_finished elapsed now s id sess w evs :
  Easing.update (heap s id) elapsed (sys_world s) = Easing.mkResult sess w evs true ->
  update_one penner elapsed now s id =
    let s' := fold_left (fun s a => perform penner now a s) (flat_map (listeners s id) evs)
                        (set_world (store s id sess) w) in
    set_group s' (set_easings (group s')
                              (splice1 (indexOf id (easings (group s'))) (easings (group s')))).
Proof. intros H. unfold update_one. rewrite H. destruct s; reflexivity. Qed.

Lemma update_on_frame s arg elapsedMS now :
  ticker (options (group s)) = false -> useRAF (options (group s)) = true ->
  update penner arg elapsedMS now s =
    sweep penner (Rmin (now - or_default (lastTime (group s)) 0)
                       (maxFrame (options (group s))))
          now (set_group s (set_lastTime (group s) now)).
Proof. intros H1 H2. unfold update. rewrite H1, H2. reflexivity. Qed.

Lemma crowd_frame :
  frame penner 1 0 10 (Scenario.crowd penner) = sweep penner (10 - 0) 10 (Scenario.polled penner).
Proof.
  unfold frame.
  assert (Hp : raf_pending (Scenario.crowd penner) = [1%nat]) by reflexivity.
  rewrite Hp. cbn [existsb Nat.eqb orb].
  rewrite update_on_frame by reflexivity.
  assert (Hl : lastTime (group (cancelAnimationFrame 1 (Scenario.crowd penner))) = Some 0)
    by reflexivity.
  assert (Hm : maxFrame (options (group (cancelAnimationFrame 1 (Scenario.crowd penner))))
               = 1000 / 60) by reflexivity.
  rewrite Hl, Hm. cbn [or_default]. rewrite Rmin_left by lra. reflexivity.
Qed.

Lemma third_session_stays w :
  read w 2 "_destroyed" = VBool false ->
  Forall (Easing.stays w) (Easing.eases (Scenario.third_session penner)).
Proof.
  intros Hw. constructor; [|constructor].
  split; [cbn [Easing.element Scenario.third_ease]; now rewrite Hw|].
  split; intros H; cbn in H; destruct H as [H|[]]; discriminate.
Qed.

(** The first iteration: the first session goes on, and its listener
    removes the eases of the second element, which empties the second
    session and takes it out of the collection. *)
Lemma first_iteration :
  easings (group (Scenario.first_done penner)) = [0; 2]%nat /\
  Easing.eases (heap (Scenario.first_done penner) 1%nat) = [] /\
  heap (Scenario.first_done penner) 2%nat = Scenario.third_session penner /\
  listeners (Scenario.first_done penner) = Scenario.meddling /\
  read (sys_world (Scenario.first_done penner)) 2 "_destroyed" = VBool false /\
  useRAF (options (group (Scenario.first_done penner))) = true.
Proof.
  unfold Scenario.first_done.
  erewrite update_one_running.
  2:{ apply update_within.
      - discriminate.
      - constructor; [|constructor]. split; [reflexivity|].
        split; intros H; cbn in H; destruct H as [H|[]]; discriminate.
      - reflexivity.
      - change (0 + (10 - 0) < 1000). lra. }
  repeat split; reflexivity.
Qed.

(** The second iteration: the emptied session reports that it is
    finished; it is no longer in the collection, [indexOf] gives -1, and
    the splice takes out the last session of the collection. *)
Lemma second_iteration :
  easings (group (Scenario.second_done penner)) = [0]%nat /\
  heap (Scenario.second_done penner) 2%nat = Scenario.third_session penner /\
  listeners (Scenario.second_done penner) = Scenario.meddling /\
  read (sys_world (Scenario.second_done penner)) 2 "_destroyed" = VBool false /\
  useRAF (options (group (Scenario.second_done penner))) = true.
Proof.
  destruct first_iteration as (Hl & Hh1 & Hh2 & Hls & Hw & Ho).
  unfold Scenario.second_done.
  erewrite update_one_finished by (apply update_idle; exact Hh1).
  cbn [flat_map fold_left]. cbv zeta.
  destruct (Scenario.first_done penner) as [w1 hp1 al1 [o1 l1 em1 h1 lt1] pend1 iss1 tl1 ls1].
  cbn in Hl, Hh1, Hh2, Hls, Hw, Ho |- *. subst l1. repeat split; assumption.
Qed.

Lemma third_update :
  Easing.update (heap (Scenario.second_done penner) 2%nat) (10 - 0)
                (sys_world (Scenario.second_done penner)) =
    Easing.mkResult
      (Easing.set_time (Scenario.third_session penner) (0 + (10 - 0)))
      (fold_left (fun w e => Easing.run (Easing.set_time (Scenario.third_session penner)
                                                         (0 + (10 - 0))) e w)
                 (Easing.eases (Scenario.third_session penner))
                 (sys_world (Scenario.second_done penner)))
      [Easing.EvEach] false.
Proof.
  destruct second_iteration as (_ & Hh & _ & Hw & _).
  rewrite Hh. apply update_within.
  - discriminate.
  - now apply third_session_stays.
  - reflexivity.
  - change (0 + (10 - 0) < 1000). lra.
Qed.

(** The third iteration: the third session, still in the snapshot, is
    advanced although it is no longer in the collection. *)
Lemma third_iteration :
  easings (group (Scenario.third_done penner)) = [0]%nat /\
  heap (Scenario.third_done penner) 2%nat
    = Easing.set_time (Scenario.third_session penner) (0 + (10 - 0)) /\
  useRAF (options (group (Scenario.third_done penner))) = true.
Proof.
  destruct second_iteration as (Hl & Hh & Hls & Hw & Ho).
  unfold Scenario.third_done.
  rewrite (update_one_running _ _ _ _ _ _ _ third_update).
  rewrite Hls. cbn [flat_map Scenario.meddling app fold_left].
  destruct (Scenario.second_done penner) as [w1 hp1 al1 [o1 l1 em1 h1 lt1] pend1 iss1 tl1 ls1].
  cbn in Hl, Ho |- *. repeat split; assumption.
Qed.

Lemma crowd_loop :
  fold_left (update_one penner (10 - 0) 10) [0; 1; 2]%nat (Scenario.polled penner)
  = Scenario.third_done penner.
Proof.
  unfold Scenario.third_done, Scenario.second_done, Scenario.first_done. reflexivity.
Qed.

(** C4 (the code misses it): three sessions on three elements; during the
    tick a listener of the first session removes the eases of the second
    element.  The second session, emptied, is still in the snapshot; it
    reports that it is finished, [indexOf] does not find it in the
    collection, and [splice(-1, 1)] takes out the last session instead.
    After the tick the third session, which has its binding and is 10 ms
    into its 1000 ms, is no longer in the collection. *)
Theorem removal_during_tick_drops_live_session :
  let s := frame penner 1 0 10 (Scenario.crowd penner) in
  easings (group (Scenario.crowd penner)) = [0; 1; 2]%nat /\
  easings (group s) = [0]%nat /\
  Easing.count (heap s 2%nat) = 1%nat /\
  Easing.time (heap s 2%nat) = 0 + (10 - 0) /\
  Easing.duration (Easing.options (heap s 2%nat)) = 1000.
Proof.
  cbv zeta. split; [reflexivity|].
  rewrite crowd_frame. unfold sweep.
  assert (Hem : empty (group (Scenario.polled penner)) = false) by reflexivity.
  assert (Hl0 : easings (group (Scenario.polled penner)) = [0; 1; 2]%nat) by reflexivity.
  rewrite Hem, Hl0. cbn [negb]. rewrite crowd_loop.
  destruct third_iteration as (Hl & Hh & Ho).
  rewrite Hl. cbn [Easing.is_nil]. rewrite Ho, Hl. cbn [andb negb Easing.is_nil].
  destruct (Scenario.third_done penner) as [w1 hp1 al1 [o1 l1 em1 h1 lt1] pend1 iss1 tl1 ls1].
  cbn in Hl, Hh |- *. rewrite Hh. repeat split; try assumption; reflexivity.
Qed.

End Snapshot.

(** ** More on shortestAngle *)

Section ShortestAngleMore.

(** Two angles of [-PI, PI) a whole number of turns apart are equal. *)
Lemma half_open_unique (a b : R) (k : Z) :
  - PI <= a < PI -> - PI <= b < PI -> a = b + IZR k * (2 * PI) -> a = b.
Proof.
  intros Ha Hb E. pose proof PI_RGT_0 as Hpi.
  assert (Hk : k = 0%Z).
  { assert (H1 : IZR (-1) < IZR k).
    { apply Rmult_lt_reg_r with (2 * PI); lra. }
    assert (H2 : IZR k < IZR 1).
    { apply Rmult_lt_reg_r with (2 * PI); lra. }
    apply lt_IZR in H1. apply lt_IZR in H2. lia. }
  subst k. lra.
Qed.

Lemma shortestAngle_range start finish :
  - PI <= Easing.shortestAngle start finish < PI.
Proof.
  pose proof PI_RGT_0.
  rewrite shortestAngle_wrapped.
  pose proof (mod_range (finish - start + PI) (PI * 2) ltac:(lra)). lra.
Qed.

Lemma shortestAngle_congr start finish :
  exists k : Z, Easing.shortestAngle start finish = finish - start + IZR k * (2 * PI).
Proof.
  rewrite shortestAngle_wrapped.
  destruct (mod_congr (finish - start + PI) (PI * 2)) as [k Hk].
  exists (- k)%Z. rewrite opp_IZR. lra.
Qed.

(** X1: among all the rotations that take the start angle to the bearing,
    whole turns added or taken away, the one [shortestAngle] returns has
    the least magnitude. *)
Theorem shortestAngle_least (start bearing : R) (k : Z) :
  Rabs (Easing.shortestAngle start bearing) <= Rabs (bearing - start + IZR k * (2 * PI)).
Proof.
  pose proof PI_RGT_0 as Hpi.
  pose proof (shortestAngle_range start bearing) as Hr.
  destruct (shortestAngle_congr start bearing) as [k0 Hk0].
  set (d := Easing.shortestAngle start bearing) in *.
  assert (E : bearing - start + IZR k * (2 * PI) = d + IZR (k - k0) * (2 * PI)).
  { rewrite minus_IZR. lra. }
  rewrite E.
  assert (Hd : Rabs d <= PI) by (apply Rabs_le; lra).
  destruct (Z.lt_trichotomy (k - k0) 0) as [Hm|[Hm|Hm]].
  - assert (IZR (k - k0) <= IZR (-1)) by (apply IZR_le; lia).
    assert (IZR (k - k0) * (2 * PI) <= IZR (-1) * (2 * PI))
      by (apply Rmult_le_compat_r; lra).
    rewrite (Rabs_left (d + _)) by lra. lra.
  - rewrite Hm. replace (d + 0 * (2 * PI)) with d by lra. lra.
  - assert (IZR 1 <= IZR (k - k0)) by (apply IZR_le; lia).
    assert (IZR 1 * (2 * PI) <= IZR (k - k0) * (2 * PI))
      by (apply Rmult_le_compat_r; lra).
    rewrite (Rabs_right (d + _)) by lra. lra.
Qed.

(** X2: whole turns added to the start angle or to the bearing do not
    change the rotation [shortestAngle] returns. *)
Theorem shortestAngle_whole_turns (start bearing : R) (j k : Z) :
  Easing.shortestAngle (start + IZR j * (2 * PI)) (bearing + IZR k * (2 * PI)) =
  Easing.shortestAngle start bearing.
Proof.
  destruct (shortestAngle_congr start bearing) as [k0 Hk0].
  destruct (shortestAngle_congr (start + IZR j * (2 * PI)) (bearing + IZR k * (2 * PI)))
    as [k1 Hk1].
  apply (half_open_unique _ _ (k1 + k - j - k0)); try apply shortestAngle_range.
  rewrite Hk1, Hk0, !minus_IZR, !plus_IZR. lra.
Qed.

(** X3: the rotation back is the opposite of the rotation there, except
    between opposite directions, where both are [-PI]. *)
Theorem shortestAngle_back (start bearing : R) :
  Easing.shortestAngle bearing start =
    if Req_dec_T (Easing.shortestAngle start bearing) (- PI) then - PI
    else - Easing.shortestAngle start bearing.
Proof.
  pose proof PI_RGT_0 as Hpi.
  pose proof (shortestAngle_range start bearing) as Hr.
  pose proof (shortestAngle_range bearing start) as Hr'.
  destruct (shortestAngle_congr start bearing) as [k0 Hk0].
  destruct (shortestAngle_congr bearing start) as [k1 Hk1].
  destruct (Req_dec_T (Easing.shortestAngle start bearing) (- PI)) as [E|E].
  - apply (half_open_unique _ _ (k1 + k0 + 1)); [assumption | lra |].
    rewrite !plus_IZR. lra.
  - apply (half_open_unique _ _ (k1 + k0)); [assumption | lra |].
    rewrite plus_IZR. lra.
Qed.

End ShortestAngleMore.

(** ** Removing in place *)

Section RemoveInPlace.

Lemma remove_nth_middle {A} (pre : list A) a rest :
  remove_nth (List.length pre) (pre ++ a :: rest) = pre ++ rest.
Proof. induction pre as [|b pre IH]; cbn; [reflexivity | now rewrite IH]. Qed.

Lemma splice1_middle {A} (pre : list A) a rest :
  splice1 (Z.of_nat (List.length pre)) (pre ++ a :: rest) = pre ++ rest.
Proof.
  unfold splice1.
  destruct (Z.ltb_spec (Z.of_nat (List.length pre)) 0) as [H|_]; [lia|].
  rewrite Z.min_l by (rewrite length_app; cbn; lia).
  rewrite Nat2Z.id. apply remove_nth_middle.
Qed.

(** From any index on, with fuel for the entries still ahead, the loop
    keeps what is behind the index and filters what is ahead. *)
Lemma splice_loop_from {A} (p : A -> bool) : forall rest fuel pre,
  (List.length rest <= fuel)%nat ->
  InPlace.splice_loop p fuel (Z.of_nat (List.length pre)) (pre ++ rest) =
    pre ++ filter (fun a => negb (p a)) rest.
Proof.
  induction rest as [|a rest IH]; intros fuel pre Hfuel.
  - rewrite app_nil_r. destruct fuel; cbn [InPlace.splice_loop filter];
      [now rewrite app_nil_r|].
    destruct (Z.ltb_spec (Z.of_nat (List.length pre)) (Z.of_nat (List.length pre)));
      [lia | now rewrite app_nil_r].
  - destruct fuel as [|fuel]; [cbn in Hfuel; lia|].
    cbn [InPlace.splice_loop].
    destruct (Z.ltb_spec (Z.of_nat (List.length pre))
                         (Z.of_nat (List.length (pre ++ a :: rest)))) as [_|H];
      [|rewrite length_app in H; cbn in H; lia].
    rewrite Nat2Z.id, nth_error_app2, Nat.sub_diag by lia. cbn [nth_error filter].
    destruct (p a); cbn [negb].
    + rewrite splice1_middle.
      replace (Z.of_nat (List.length pre) - 1 + 1)%Z with (Z.of_nat (List.length pre)) by lia.
      apply IH. cbn in Hfuel. lia.
    + replace (Z.of_nat (List.length pre) + 1)%Z
        with (Z.of_nat (List.length (pre ++ [a])))
        by (rewrite length_app; cbn; lia).
      replace (pre ++ a :: rest) with ((pre ++ [a]) ++ rest)
        by (now rewrite <- app_assoc).
      rewrite IH by (cbn in Hfuel; lia).
      now rewrite <- app_assoc.
Qed.

(** X4: the loop of [remove], which splices a matching binding out and
    steps its index back, leaves exactly the bindings that do not match,
    in their order, also where matching bindings are neighbours; [remove]
    returns whether none is left, and a single name stands for the array
    holding it. *)
Theorem remove_in_place (this : Easing.t) (element : option nat)
        (params : option InPlace.names) :
  let r := InPlace.remove this (InPlace.Given element params) in
  Easing.eases (fst r) =
    filter (fun e => negb (Easing.matches element (InPlace.as_array params) e))
           (Easing.eases this) /\
  snd r = Easing.is_nil (Easing.eases (fst r)) /\
  Easing.options (fst r) = Easing.options this /\
  Easing.time (fst r) = Easing.time this /\
  r = Easing.remove this (Easing.Matching element (InPlace.as_array params)).
Proof.
  cbv zeta. unfold InPlace.remove, Easing.remove. cbn [fst snd Easing.eases].
  rewrite (splice_loop_from _ (Easing.eases this) _ []) by lia.
  cbn [app]. repeat split.
Qed.

End RemoveInPlace.

(** ** The fields a session writes *)

Section FootprintFacts.

Import Easing Footprint.

Variable el : nat.
Variable k : string.


Lemma spares_reverse e : spares el k e -> spares el k (reverse_ease e).
Proof.
  destruct (reverse_ease_shape e) as (He & Hn & Hu).
  unfold spares, footprint, writes, resets. now rewrite He, Hn, Hu.
Qed.

Lemma run_spares this e w : spares el k e -> read (run this e w) el k = read w el k.
Proof.
  intros H. apply run_frame. intros [He Hk]. apply H; [now symmetry|].
  unfold footprint. apply in_or_app. now left.
Qed.

Lemma repeat_spares e w : spares el k e -> read (repeat_ease e w) el k = read w el k.
Proof.
  intros H. apply repeat_ease_frame. intros [He Hk]. apply H; [now symmetry|].
  unfold footprint. apply in_or_app. right. apply in_or_app. now left.
Qed.

Lemma complete_spares e w : spares el k e -> read (complete e w) el k = read w el k.
Proof.
  intros H. unfold complete.
  destruct (String.eqb (entry e) "shake") eqn:Hs; [|reflexivity].
  destruct (Nat.eq_dec el (element e)) as [He|He].
  - assert (Hk : ~ In k ["x"; "y"]).
    { intros Hin. apply H; [now symmetry|]. unfold footprint. rewrite Hs.
      apply in_or_app. right. apply in_or_app. now right. }
    rewrite !read_write_other; [reflexivity | right | right];
      intros ->; apply Hk; cbn; auto.
  - rewrite !read_write_other; [reflexivity | now left | now left].
Qed.

Lemma fold_spares (f : Ease -> world -> world) :
  (forall e w, spares el k e -> read (f e w) el k = read w el k) ->
  forall l w, Forall (spares el k) l ->
    read (fold_left (fun w e => f e w) l w) el k = read w el k.
Proof.
  intros Hf. induction l as [|e l IH]; intros w Hl; cbn; [reflexivity|].
  inversion Hl; subst. rewrite IH by assumption. now apply Hf.
Qed.

Lemma update_loop_spares this : forall l w,
  Forall (spares el k) l ->
  Forall (spares el k) (fst (update_loop this l w)) /\
  read (snd (update_loop this l w)) el k = read w el k.
Proof.
  induction l as [|e l IH]; intros w Hl; cbn [update_loop]; [now split|].
  inversion Hl as [|? ? He Hl']; subst.
  destruct (truthy (read w (element e) "_destroyed")); [now apply IH|].
  destruct (IH (run this e w) Hl') as [IH1 IH2].
  destruct (update_loop this l (run this e w)) as [kept w'].
  cbn [fst snd] in *. split; [now constructor|].
  rewrite IH2. now apply run_spares.
Qed.

Lemma update_all_spares this w :
  Forall (spares el k) (eases this) -> read (update_all this w) el k = read w el k.
Proof. intros H. unfold update_all. now apply (fold_spares (run this) (run_spares this)). Qed.

Lemma boundary_spares this leftover w evs :
  Forall (spares el k) (eases this) ->
  read (after (boundary this leftover w evs)) el k = read w el k.
Proof.
  intros H. unfold boundary.
  destruct (reverse (options this)).
  - cbn [after]. destruct (Rnonzero leftover); [|reflexivity].
    apply update_all_spares. cbn [eases set_time set_eases].
    apply Forall_map. eapply Forall_impl; [|exact H]. apply spares_reverse.
  - destruct (repeat_truthy (repeat (options this))); cbn [after].
    + assert (Hr : read (fold_left (fun w e => repeat_ease e w) (eases this) w) el k
                   = read w el k) by now apply (fold_spares repeat_ease repeat_spares).
      destruct (Rnonzero leftover); [|exact Hr].
      rewrite update_all_spares; [exact Hr | exact H].
    + now apply (fold_spares complete complete_spares).
Qed.

Lemma advance_spares this elapsed w evs :
  Forall (spares el k) (eases this) ->
  read (after (advance this elapsed w evs)) el k = read w el k.
Proof.
  intros H. unfold advance.
  set (this0 := set_time this (time this + elapsed)).
  set (over := Rgeb (time this0) (duration (options this0))).
  set (this1 := if over then set_time this0 (duration (options this0)) else this0).
  assert (He : eases this1 = eases this) by (unfold this1; now destruct over).
  rewrite He.
  destruct (update_loop_spares this1 (eases this) w H) as [H1 H2].
  destruct (update_loop this1 (eases this) w) as [kept w']. cbn [fst snd] in *.
  destruct (Rgeb (time (set_eases this1 kept)) _); [|exact H2].
  rewrite boundary_spares; [exact H2 | exact H1].
Qed.

(** [update] leaves alone every field that is in the footprint of none of
    its bindings on the element. *)
Lemma update_spares this elapsed w :
  Forall (spares el k) (eases this) ->
  read (after (update this elapsed w)) el k = read w el k.
Proof.
  intros H. unfold update.
  destruct (is_nil (eases this)); [reflexivity|].
  destruct (wait_active (options this)); [|now apply advance_spares].
  destruct (Rgtb _ 0); [reflexivity|].
  now apply advance_spares.
Qed.

End FootprintFacts.

Section FootprintTheorems.

Import Easing Footprint.

(** X5: an update of a session changes, on every element, only fields in
    the footprint of a binding the session holds on that element: the
    field or coordinate object the binding animates, the field its reset
    at a repeat writes, and [x] and [y] for a shake. *)
Theorem update_writes_its_footprint (this : Easing.t) (elapsed : R) (w : world)
        (el : nat) (k : string) :
  (forall e, In e (eases this) -> element e = el -> ~ In k (footprint e)) ->
  read (after (update this elapsed w)) el k = read w el k.
Proof.
  intros H. apply update_spares. apply Forall_forall. intros e He Hel. now apply (H e).
Qed.

Lemma update_loop_destroyed this el : forall l w,
  destroyed w el ->
  Forall (fun e => element e <> el) (fst (update_loop this l w)) /\
  forall k, read (snd (update_loop this l w)) el k = read w el k.
Proof.
  induction l as [|e l IH]; intros w Hd; cbn [update_loop]; [now split|].
  destruct (truthy (read w (element e) "_destroyed")) eqn:Hf; [now apply IH|].
  assert (Hne : element e <> el).
  { intros E. rewrite E in Hf. unfold destroyed in Hd. congruence. }
  assert (Hrun : forall k, read (run this e w) el k = read w el k).
  { intros k. apply run_frame. intros [E _]. now apply Hne. }
  destruct (IH (run this e w)) as [IH1 IH2].
  { unfold destroyed. now rewrite Hrun. }
  destruct (update_loop this l (run this e w)) as [kept w'].
  cbn [fst snd] in *. split; [now constructor|].
  intros k. now rewrite IH2.
Qed.

(** X6: an update never writes to an element whose [_destroyed] flag is
    set: every field of such an element is after the update what it was
    before, whatever bindings the session holds on it. *)
Theorem update_spares_destroyed (this : Easing.t) (elapsed : R) (w : world)
        (el : nat) (k : string) :
  destroyed w el ->
  read (after (update this elapsed w)) el k = read w el k.
Proof.
  intros Hd.
  assert (Hadv : forall this' e' evs,
    read (after (advance this' e' w evs)) el k = read w el k).
  { intros this' e' evs. unfold advance.
    set (this0 := set_time this' (time this' + e')).
    set (over := Rgeb (time this0) (duration (options this0))).
    set (this1 := if over then set_time this0 (duration (options this0)) else this0).
    destruct (update_loop_destroyed this1 el (eases this1) w Hd) as [H1 H2].
    destruct (update_loop this1 (eases this1) w) as [kept w']. cbn [fst snd] in *.
    destruct (Rgeb (time (set_eases this1 kept)) _); [|apply H2].
    rewrite boundary_spares; [apply H2|].
    cbn [eases set_eases]. eapply Forall_impl; [|exact H1].
    intros e Hne He. contradiction. }
  unfold update.
  destruct (is_nil (eases this)); [reflexivity|].
  destruct (wait_active (options this)); [|apply Hadv].
  destruct (Rgtb _ 0); [reflexivity | apply Hadv].
Qed.

Lemma update_loop_all_destroyed this : forall l w,
  Forall (fun e => destroyed w (element e)) l -> update_loop this l w = ([], w).
Proof.
  induction l as [|e l IH]; intros w Hl; cbn [update_loop]; [reflexivity|].
  inversion Hl as [|? ? He Hl']; subst. unfold destroyed in He. rewrite He.
  now apply IH.
Qed.

(** X7: a session past its wait whose targets are all destroyed drops
    every binding at its next update and writes nothing; the update after
    that reports it finished, without a notification. *)
Theorem update_drops_destroyed (this : Easing.t) (elapsed : R) (w : world) :
  Forall (fun e => destroyed w (element e)) (eases this) ->
  wait_active (options this) = false ->
  let r := update this elapsed w in
  eases (session r) = [] /\ after r = w /\
  forall elapsed' w',
    update (session r) elapsed' w' = mkResult (session r) w' [] true.
Proof.
  intros Hd Hw r.
  assert (H : eases (session r) = [] /\ after r = w).
  { subst r. unfold update.
    destruct (eases this) as [|e0 l0] eqn:He; [now split|]. cbn [is_nil].
    rewrite Hw. unfold advance.
    set (this0 := set_time this (time this + elapsed)).
    set (over := Rgeb (time this0) (duration (options this0))).
    set (this1 := if over then set_time this0 (duration (options this0)) else this0).
    assert (He1 : eases this1 = eases this) by (unfold this1; now destruct over).
    rewrite He1, update_loop_all_destroyed by (now rewrite He).
    destruct (Rgeb (time (set_eases this1 [])) _); [|now split].
    unfold boundary. cbn [options set_eases set_time eases map fold_left].
    destruct (reverse (options this1)).
    - cbn [session after eases set_options set_time set_eases update_all].
      unfold update_all. cbn. now destruct (Rnonzero _).
    - destruct (repeat_truthy (repeat (options this1))).
      + cbn [session after eases set_options set_time set_eases].
        unfold update_all. cbn. now destruct (Rnonzero _).
      + now split. }
  destruct H as [H1 H2]. repeat split; try assumption.
  intros elapsed' w'. unfold update. now rewrite H1.
Qed.

End FootprintTheorems.

(** ** The phases of a session *)

Section Plan.

Import Easing Schedule.

(** One frame of a session that keeps its bindings, once the wait is
    over: what it reports and how it leaves its options. *)
Lemma advance_phase this elapsed w evs :
  live this w ->
  filter is_phase_event evs = [] ->
  let r := advance this elapsed w evs in
  let o := options this in
  live (session r) (after r) /\
  duration (options (session r)) = duration o /\
  wait (options (session r)) = wait o /\
  if Rgeb (time this + elapsed) (duration o) then
    if reverse o then
      finished r = false /\ filter is_phase_event (events r) = [EvReverse] /\
      time (session r) = time this + elapsed - duration o /\
      reverse (options (session r)) = repeat_truthy (repeat o) /\
      repeat (options (session r)) =
        (if repeat_truthy (repeat o) then decrement (repeat o) else repeat o)
    else if repeat_truthy (repeat o) then
      finished r = false /\ filter is_phase_event (events r) = [EvRepeat] /\
      time (session r) = time this + elapsed - duration o /\
      reverse (options (session r)) = false /\
      repeat (options (session r)) = decrement (repeat o)
    else finished r = true /\ filter is_phase_event (events r) = [EvComplete]
  else
    finished r = false /\ filter is_phase_event (events r) = [] /\
    time (session r) = time this + elapsed /\
    reverse (options (session r)) = reverse o /\
    repeat (options (session r)) = repeat o.
Proof.
  intros Hlive Hevs r o.
  destruct (reverse (options this)) eqn:Hrev.
  - (* a reversing session *)
    subst r o. destruct Hlive as [Hne Hst].
    destruct (Rgeb_spec (time this + elapsed) (duration (options this))) as [Hge|Hlt].
    + rewrite (advance_crossing _ _ _ _ Hge). cbv zeta.
      rewrite update_loop_stays by assumption.
      set (w1 := fold_left _ (eases this) w).
      assert (F1 : same_flags w w1) by now apply run_all_same_flags.
      unfold boundary. cbn [options set_eases set_time time eases].
      rewrite Hrev.
      cbn [session after finished events options set_options set_time set_eases
           time eases].
      rewrite phase_filter_last, Hevs by reflexivity.
      assert (Hst1 : Forall (stays w1) (map reverse_ease (eases this))).
      { apply Forall_map. eapply Forall_impl; [|exact Hst].
        intros e He. apply reverse_ease_stays.
        eapply stays_same_flags; eassumption. }
      assert (Hlive' : forall w2, same_flags w1 w2 ->
                live (mkEasing (map reverse_ease (eases this)) (options this)
                               (time this + elapsed - duration (options this))) w2).
      { intros w2 F2. split.
        - cbn [eases]. destruct (eases this); [contradiction | discriminate].
        - cbn [eases]. eapply stays_all_same_flags; eassumption. }
      assert (Hw2 : same_flags w1
                (if Rnonzero (time this + elapsed - duration (options this))
                 then update_all (mkEasing (map reverse_ease (eases this)) (options this)
                                   (time this + elapsed - duration (options this))) w1
                 else w1)).
      { destruct (Rnonzero _); [|apply same_flags_refl].
        unfold update_all. cbn [eases]. now apply run_all_same_flags. }
      destruct (repeat_truthy (repeat (options this))) eqn:Hrep; cbn [negb];
        (split; [destruct (Hlive' _ Hw2) as [L1 L2]; split; [exact L1 | exact L2] |]);
        cbn [options set_options set_repeat set_reverse reverse repeat duration wait];
        rewrite ?Hrev; repeat split; reflexivity.
    + assert (Hlt' : time this + elapsed < duration (options this)) by lra.
      destruct (advance_below this elapsed w evs Hlt') as (Ht & Hf & Ho & He & Ha & Hk).
      rewrite update_loop_stays in Ha, Hk by assumption. cbn [fst snd] in Ha, Hk.
      rewrite Ho, He, phase_filter_each, Ht, Hrev.
      repeat split; try assumption; try reflexivity.
      * unfold live. rewrite Hk. assumption.
      * unfold live. rewrite Hk, Ha.
        eapply stays_all_same_flags; [|exact Hst]. now apply run_all_same_flags.
  - subst r o.
    destruct (advance_forward this elapsed w evs Hlive Hrev Hevs)
      as (Hl1 & Hrev1 & HD1 & Hw1 & Hcase).
    rewrite ?Hrev.
    split; [exact Hl1|]. split; [exact HD1|]. split; [exact Hw1|].
    destruct (Rgeb (time this + elapsed) (duration (options this))).
    + destruct (repeat_truthy (repeat (options this))).
      * destruct Hcase as (H1 & H2 & H3 & H4). now repeat split.
      * assumption.
    + destruct Hcase as (H1 & H2 & H3 & H4). now repeat split.
Qed.

(** The phase notifications of a run follow the plan of its options, one
    for each boundary reached, and the run reports that it is finished
    exactly in the frame of the completion. *)
Lemma play_plan frames :
  forall this w,
    live this w ->
    phase_events (play this w frames) =
      plan (crossings (duration (options this)) (wait (options this)) (time this) frames)
           (reverse (options this)) (repeat (options this)) /\
    Forall (fun r => finished r = true <-> In EvComplete (events r)) (play this w frames).
Proof.
  induction frames as [|elapsed rest IH]; intros this w Hlive.
  - cbn. split; [reflexivity | constructor].
  - cbn [play crossings]. rewrite phase_events_cons.
    rewrite (update_settled this elapsed w (proj1 Hlive)).
    unfold settle.
    assert (Hblocked : forall y,
      let this' := set_options this (set_wait (options this) y) in
      live this' w /\ reverse (options this') = reverse (options this) /\
      repeat (options this') = repeat (options this) /\
      duration (options this') = duration (options this) /\
      time this' = time this /\ wait (options this') = Some y).
    { intros y. cbn. repeat split; apply Hlive. }
    assert (Hstep : forall this' e' evs,
      live this' w -> reverse (options this') = reverse (options this) ->
      repeat (options this') = repeat (options this) ->
      duration (options this') = duration (options this) ->
      time this' = time this ->
      filter is_phase_event evs = [] ->
      let r := advance this' e' w evs in
      filter is_phase_event (events r)
        ++ phase_events (if finished r then [] else play (session r) (after r) rest) =
      plan (if Rgeb (time this + e') (duration (options this))
            then S (crossings (duration (options this)) (wait (options this'))
                              (time this + e' - duration (options this)) rest)
            else crossings (duration (options this)) (wait (options this'))
                           (time this + e') rest)
           (reverse (options this)) (repeat (options this)) /\
      Forall (fun r => finished r = true <-> In EvComplete (events r))
             (r :: (if finished r then [] else play (session r) (after r) rest))).
    { intros this' e' evs Hl' Hrev' Hrep' HD Ht Hevs r.
      destruct (advance_phase this' e' w evs Hl' Hevs) as (Hl1 & HD1 & Hw1 & Hcase).
      fold r in Hl1, HD1, Hw1, Hcase.
      rewrite Ht, HD, Hrev', Hrep' in Hcase.
      destruct (IH (session r) (after r) Hl1) as [IH1 IH2].
      rewrite HD1, HD, Hw1 in IH1.
      destruct (Rgeb (time this + e') (duration (options this))).
      - cbn [plan].
        destruct (reverse (options this)).
        + destruct Hcase as (Hf & Hev & Ht1 & Hrev1 & Hrep1). rewrite Hf, Hev.
          rewrite IH1, Ht1, Hrev1, Hrep1. split.
          * cbn [app]. f_equal. now destruct (repeat_truthy (repeat (options this))).
          * constructor; [|exact IH2].
            rewrite complete_in_phase, Hev, Hf. cbn. intuition discriminate.
        + destruct (repeat_truthy (repeat (options this))).
          * destruct Hcase as (Hf & Hev & Ht1 & Hrev1 & Hrep1). rewrite Hf, Hev.
            rewrite IH1, Ht1, Hrev1, Hrep1. split; [reflexivity|].
            constructor; [|exact IH2].
            rewrite complete_in_phase, Hev, Hf. cbn. intuition discriminate.
          * destruct Hcase as (Hf & Hev). rewrite Hf, Hev. split; [reflexivity|].
            constructor; [|constructor].
            rewrite complete_in_phase, Hev, Hf. cbn. tauto.
      - destruct Hcase as (Hf & Hev & Ht1 & Hrev1 & Hrep1). rewrite Hf, Hev.
        rewrite IH1, Ht1, Hrev1, Hrep1. split; [reflexivity|].
        constructor; [|exact IH2].
        rewrite complete_in_phase, Hev, Hf. cbn. intuition discriminate. }
    destruct (wait (options this)) as [y|] eqn:Hwait.
    + destruct (Rnonzero y).
      * destruct (Rgtb (y - elapsed) 0).
        -- destruct (Hblocked (y - elapsed)) as (B1 & B2 & B3 & B4 & B5 & B6).
           cbn [events finished session after].
           destruct (IH _ w B1) as [IH1 IH2].
           rewrite IH1, B2, B3, B4, B5, B6. cbn. split; [reflexivity|].
           constructor; [|exact IH2]. cbn. intuition discriminate.
        -- destruct (Hblocked 0) as (B1 & B2 & B3 & B4 & B5 & B6).
           apply (Hstep _ (- (y - elapsed)) [EvWaitEnd] B1 B2 B3 B4 B5 eq_refl).
      * rewrite <- Hwait.
        apply (Hstep this elapsed [] Hlive eq_refl eq_refl eq_refl eq_refl eq_refl).
    + rewrite <- Hwait.
      apply (Hstep this elapsed [] Hlive eq_refl eq_refl eq_refl eq_refl eq_refl).
Qed.

Lemma plan_last n : plan n false (RepNum (INR 0)) = firstn n [EvComplete].
Proof.
  destruct n as [|n]; [reflexivity|]. cbn [plan repeat_truthy].
  change (INR 0) with 0. rewrite Rnonzero_0. now destruct n.
Qed.

Lemma plan_reversing n : forall c,
  plan c true (RepNum (INR n)) = firstn c (List.repeat EvReverse (S n) ++ [EvComplete]).
Proof.
  induction n as [|n IH]; intros [|c]; try reflexivity.
  - cbn [plan]. rewrite (repeat_truthy_count _ 0 eq_refl). cbn [negb].
    rewrite plan_last. reflexivity.
  - cbn [plan]. rewrite (repeat_truthy_count _ (S n) eq_refl). cbn [negb decrement].
    replace (INR (S n) - 1) with (INR n) by (rewrite S_INR; lra).
    rewrite IH. reflexivity.
Qed.

(** X8: a session that keeps its bindings, with [reverse = true] and a
    repeat count [n], reverses at each of its first [n + 1] phase
    boundaries and completes at the next: it runs [n + 2] phases, and
    reports that it is finished in the frame of the completion and in no
    other. *)
Theorem reverse_count_phases (this : Easing.t) (w : world) (frames : list R)
        (x : R) (n : nat) :
  live this w ->
  reverse (options this) = true ->
  repeat (options this) = RepNum x -> x = INR n ->
  phase_events (play this w frames) =
    firstn (crossings (duration (options this)) (wait (options this)) (time this) frames)
           (List.repeat EvReverse (S n) ++ [EvComplete]) /\
  Forall (fun r => finished r = true <-> In EvComplete (events r)) (play this w frames).
Proof.
  intros Hlive Hrev Hrep ->.
  destruct (play_plan frames this w Hlive) as [H1 H2].
  rewrite Hrev, Hrep, plan_reversing in H1. now split.
Qed.

Lemma unending_truthy rep : unending rep -> repeat_truthy rep = true.
Proof.
  destruct rep as [b|x]; cbn; [trivial|].
  intros H. apply Rnonzero_true. exact (H 0%nat).
Qed.

Lemma unending_decrement rep : unending rep -> unending (decrement rep).
Proof.
  destruct rep as [[|]|x]; cbn; try easy.
  intros H n E. apply (H (S n)). rewrite S_INR. lra.
Qed.

Lemma plan_unending n : forall rev rep,
  unending rep ->
  plan n rev rep = List.repeat (if rev then EvReverse else EvRepeat) n.
Proof.
  induction n as [|n IH]; intros rev rep Hu; [reflexivity|].
  cbn [plan List.repeat]. rewrite (unending_truthy rep Hu). cbn [negb].
  destruct rev; f_equal; apply IH; now apply unending_decrement.
Qed.

Lemma in_phase_events ev r rs :
  In r rs -> In ev (events r) -> is_phase_event ev = true -> In ev (phase_events rs).
Proof.
  intros Hr Hev Hp. unfold phase_events. apply filter_In. split; [|assumption].
  apply in_flat_map. now exists r.
Qed.

(** X9: a session that keeps its bindings and whose repeat option is
    [true], or a number that is not a natural number (a fraction, a
    negative count), never reports that it is finished: each boundary it
    reaches is a reversal when [reverse] is set and a repeat otherwise. *)
Theorem unending_repeat_never_finishes (this : Easing.t) (w : world) (frames : list R) :
  live this w ->
  unending (repeat (options this)) ->
  phase_events (play this w frames) =
    List.repeat (if reverse (options this) then EvReverse else EvRepeat)
      (crossings (duration (options this)) (wait (options this)) (time this) frames) /\
  Forall (fun r => finished r = false) (play this w frames).
Proof.
  intros Hlive Hu.
  destruct (play_plan frames this w Hlive) as [H1 H2].
  rewrite plan_unending in H1 by assumption. split; [assumption|].
  apply Forall_forall. intros r Hr.
  rewrite Forall_forall in H2. specialize (H2 r Hr).
  destruct (finished r); [|reflexivity].
  assert (Hin : In EvComplete (phase_events (play this w frames))).
  { apply (in_phase_events EvComplete r); [assumption | now apply H2 | reflexivity]. }
  rewrite H1 in Hin. apply repeat_spec in Hin.
  destruct (reverse (options this)); discriminate.
Qed.

End Plan.

(** ** The wait before a session starts *)

Section Waiting.

Import Easing Schedule.

(** X10: a session with bindings and a wait [x > 0], played over frames
    whose elapsed times stay below [x] in sum and a frame that reaches it:
    the frames within the wait report 'wait', move no element and leave
    the clock alone, and the frame that ends the wait advances the
    session by exactly the time in excess of [x]. *)
Theorem wait_then_excess (fs : list R) :
  forall (this : Easing.t) (w : world) (x e : R),
    eases this <> [] ->
    wait (options this) = Some x ->
    Forall (fun e => 0 <= e) fs ->
    fold_right Rplus 0 fs < x <= fold_right Rplus 0 fs + e ->
    exists rs,
      play this w (fs ++ [e]) =
        rs ++ [advance (set_options this (set_wait (options this) 0))
                       (fold_right Rplus 0 fs + e - x) w [EvWaitEnd]] /\
      List.length rs = List.length fs /\
      Forall (held this w) rs.
Proof.
  induction fs as [|e1 fs IH]; intros this w x e Hne Hw Hpos [Hlt Hge].
  - cbn [fold_right] in *. exists []. cbn [app play List.length].
    split; [|split; [reflexivity | constructor]].
    rewrite (update_settled this e w Hne), Hw.
    rewrite Rnonzero_true by lra. rewrite Rgtb_false by lra.
    replace (- (x - e)) with (0 + e - x) by lra.
    now destruct (finished _).
  - inversion Hpos as [|? ? He1 Hpos']; subst. cbn [fold_right] in *.
    assert (Hs : 0 <= fold_right Rplus 0 fs).
    { clear -Hpos'. induction Hpos'; cbn; lra. }
    cbn [app play].
    rewrite (update_settled this e1 w Hne), Hw.
    rewrite Rnonzero_true by lra. rewrite Rgtb_true by lra.
    cbn [finished session after].
    set (this' := set_options this (set_wait (options this) (x - e1))).
    destruct (IH this' w (x - e1) e) as (rs & Hplay & Hlen & Hrs);
      [exact Hne | reflexivity | exact Hpos' | lra |].
    exists (mkResult this' w [EvWait] false :: rs).
    split; [|split].
    + rewrite Hplay. cbn [app]. f_equal. f_equal. f_equal.
      replace (fold_right Rplus 0 fs + e - (x - e1))
        with (e1 + fold_right Rplus 0 fs + e - x) by lra.
      reflexivity.
    + cbn. now rewrite Hlen.
    + constructor; [now repeat split|].
      eapply Forall_impl; [|exact Hrs].
      intros r (H1 & H2 & H3 & H4 & H5). now repeat split.
Qed.

End Waiting.

(** ** Blending colours *)

Section Blending.

Import Easing Blend.

Lemma blend_at_parts this colors calc :
  blend_at this colors calc =
    let len := Z.of_nat (List.length colors) in
    let index := if (Zfloor calc =? len)%Z then (len - 1)%Z else Zfloor calc in
    blend_pair (calc - IZR index) (color_at colors index)
               (color_at colors (next_index this len index)).
Proof.
  cbv beta iota zeta delta
      [blend_at blend_pair channels color_at next_index mix repeat_truthy].
  reflexivity.
Qed.

Lemma byte_high_bits x n : (0 <= x < 2 ^ 8)%Z -> (8 <= n)%Z -> Z.testbit x n = false.
Proof.
  intros Hx Hn.
  destruct (Z.eq_dec x 0) as [->|Hx0]; [apply Z.testbit_0_l|].
  apply Z.bits_above_log2; [lia|].
  assert (Z.log2 x < 8)%Z by (apply Z.log2_lt_pow2; lia). lia.
Qed.

(** Packing three channels and splitting the result gives them back. *)
Lemma unpack r g b :
  (0 <= r < 2 ^ 8)%Z -> (0 <= g < 2 ^ 8)%Z -> (0 <= b < 2 ^ 8)%Z ->
  let z := Z.lor (Z.lor (Z.shiftl r 16) (Z.shiftl g 8)) b in
  Z.shiftr z 16 = r /\ Z.land (Z.shiftr z 8) 255 = g /\ Z.land z 255 = b /\
  (0 <= z < 2 ^ 24)%Z.
Proof.
  intros Hr Hg Hb z.
  assert (E16 : Z.shiftr z 16 = r).
  { apply Z.bits_inj'. intros n Hn. unfold z.
    rewrite Z.shiftr_spec, !Z.lor_spec, !Z.shiftl_spec by lia.
    replace (n + 16 - 16)%Z with n by lia.
    rewrite (byte_high_bits g (n + 16 - 8)), (byte_high_bits b (n + 16)) by lia.
    now rewrite !orb_false_r. }
  assert (E8 : Z.land (Z.shiftr z 8) 255 = g).
  { apply Z.bits_inj'. intros n Hn. unfold z.
    rewrite Z.land_spec, testbit_255, Z.shiftr_spec, !Z.lor_spec, !Z.shiftl_spec by lia.
    replace (n + 8 - 8)%Z with n by lia.
    rewrite (byte_high_bits b (n + 8)) by lia. rewrite orb_false_r.
    destruct (Z.ltb_spec n 8) as [H8|H8].
    - rewrite (Z.testbit_neg_r r) by lia. cbn. apply andb_true_r.
    - rewrite (byte_high_bits g n) by lia. now rewrite orb_false_r, andb_false_r. }
  assert (E0 : Z.land z 255 = b).
  { apply Z.bits_inj'. intros n Hn. unfold z.
    rewrite Z.land_spec, testbit_255, !Z.lor_spec, !Z.shiftl_spec by lia.
    destruct (Z.ltb_spec n 8) as [H8|H8].
    - rewrite (Z.testbit_neg_r r), (Z.testbit_neg_r g) by lia. cbn. apply andb_true_r.
    - rewrite (byte_high_bits b n) by lia. now rewrite andb_false_r. }
  repeat split; try assumption.
  - unfold z. repeat (apply Z.lor_nonneg; split); try lia; apply Z.shiftl_nonneg; lia.
  - rewrite <- (repack z). rewrite E16, E8, E0.
    assert (Hl : forall a c, (0 <= a)%Z -> (0 <= c)%Z -> (Z.lor a c <= a + c)%Z).
    { intros a c Ha Hc. rewrite <- Z.add_lor_land.
      assert (0 <= Z.land a c)%Z by (apply Z.land_nonneg; now left). lia. }
    assert (H1 : (0 <= Z.shiftl r 16)%Z) by (apply Z.shiftl_nonneg; lia).
    assert (H2 : (0 <= Z.shiftl g 8)%Z) by (apply Z.shiftl_nonneg; lia).
    pose proof (Hl (Z.shiftl r 16) (Z.shiftl g 8) H1 H2) as L1.
    assert (H3 : (0 <= Z.lor (Z.shiftl r 16) (Z.shiftl g 8))%Z)
      by (apply Z.lor_nonneg; now split).
    pose proof (Hl _ b H3 ltac:(lia)) as L2.
    rewrite !Z.shiftl_mul_pow2 in * by lia. lia.
Qed.

(** A channel of a blend lies between the channels blended. *)
Lemma mix_bounds p a b :
  0 <= p <= 1 -> (0 <= a < 2 ^ 8)%Z -> (0 <= b < 2 ^ 8)%Z ->
  int32_of_R (mix p a b) = Zfloor (mix p a b) /\
  (0 <= Zfloor (mix p a b) < 2 ^ 8)%Z /\
  (Z.min a b <= Zfloor (mix p a b) <= Z.max a b)%Z.
Proof.
  intros Hp Ha Hb.
  assert (Hlo : IZR (Z.min a b) <= mix p a b).
  { unfold mix. destruct (Z.min_spec a b) as [[H ->]|[H ->]].
    - assert (IZR a <= IZR b) by (apply IZR_le; lia). nra.
    - assert (IZR b <= IZR a) by (apply IZR_le; lia). nra. }
  assert (Hhi : mix p a b <= IZR (Z.max a b)).
  { unfold mix. destruct (Z.max_spec a b) as [[H ->]|[H ->]].
    - assert (IZR a <= IZR b) by (apply IZR_le; lia). nra.
    - assert (IZR b <= IZR a) by (apply IZR_le; lia). nra. }
  assert (H1 : (Z.min a b <= Zfloor (mix p a b))%Z) by now apply Zfloor_lub.
  assert (H2 : (Zfloor (mix p a b) <= Z.max a b)%Z).
  { rewrite <- (ZfloorZ (Z.max a b)). now apply Zfloor_le. }
  assert (H0 : 0 <= mix p a b).
  { apply Rle_trans with (IZR (Z.min a b)); [apply IZR_le; lia | assumption]. }
  repeat split; try lia.
  unfold int32_of_R, Rtrunc. destruct (Rle_dec 0 (mix p a b)); [|contradiction].
  apply wrap32_small. lia.
Qed.

Lemma blend_pair_spec p c1 c2 :
  0 <= p <= 1 -> (0 <= c1 < 2 ^ 24)%Z -> (0 <= c2 < 2 ^ 24)%Z ->
  let '(r1, g1, b1) := channels c1 in
  let '(r2, g2, b2) := channels c2 in
  channels (blend_pair p c1 c2) =
    (Zfloor (mix p r1 r2), Zfloor (mix p g1 g2), Zfloor (mix p b1 b2)) /\
  (0 <= blend_pair p c1 c2 < 2 ^ 24)%Z.
Proof.
  intros Hp H1 H2. unfold blend_pair, channels, shr32.
  destruct (channel_bounds c1 H1) as (Hr1 & Hg1 & Hb1).
  destruct (channel_bounds c2 H2) as (Hr2 & Hg2 & Hb2).
  destruct (mix_bounds p _ _ Hp Hr1 Hr2) as (Er & Br & _).
  destruct (mix_bounds p _ _ Hp Hg1 Hg2) as (Eg & Bg & _).
  destruct (mix_bounds p _ _ Hp Hb1 Hb2) as (Eb & Bb & _).
  rewrite Er, Eg, Eb. unfold shl32.
  rewrite !wrap32_small by (rewrite Z.shiftl_mul_pow2; lia).
  destruct (unpack _ _ _ Br Bg Bb) as (U1 & U2 & U3 & U4).
  cbv zeta in U1, U2, U3, U4. rewrite U1, U2, U3. now split.
Qed.

Lemma mix_same p a : mix p a a = IZR a.
Proof. unfold mix. lra. Qed.

Lemma mix_0 a b : mix 0 a b = IZR a.
Proof. unfold mix. lra. Qed.

Lemma mix_1 a b : mix 1 a b = IZR b.
Proof. unfold mix. lra. Qed.

Lemma pack_channels c :
  (0 <= c < 2 ^ 24)%Z ->
  Z.lor (Z.lor (shl32 (int32_of_R (IZR (shr32 c 16))) 16)
               (shl32 (int32_of_R (IZR (Z.land (shr32 c 8) 255))) 8))
        (int32_of_R (IZR (Z.land c 255))) = c.
Proof.
  intros Hc. destruct (channel_bounds c Hc) as (Hr & Hg & Hb).
  unfold shr32, shl32. rewrite !int32_of_IZR by lia.
  rewrite !wrap32_small; [apply repack | |]; rewrite Z.shiftl_mul_pow2; lia.
Qed.

Lemma blend_pair_same p c : (0 <= c < 2 ^ 24)%Z -> blend_pair p c c = c.
Proof. intros Hc. unfold blend_pair, channels. rewrite !mix_same. now apply pack_channels. Qed.

Lemma blend_pair_0 c1 c2 : (0 <= c1 < 2 ^ 24)%Z -> blend_pair 0 c1 c2 = c1.
Proof. intros Hc. unfold blend_pair, channels. rewrite !mix_0. now apply pack_channels. Qed.

Lemma blend_pair_1 c1 c2 : (0 <= c2 < 2 ^ 24)%Z -> blend_pair 1 c1 c2 = c2.
Proof. intros Hc. unfold blend_pair, channels. rewrite !mix_1. now apply pack_channels. Qed.

Lemma color_at_packed colors i z :
  (0 <= i)%Z -> nth (Z.to_nat i) colors VUndef = VNum (IZR z) -> (0 <= z < 2 ^ 24)%Z ->
  color_at colors i = z.
Proof.
  intros Hi Hc Hz. unfold color_at, js_index.
  destruct (Z.ltb_spec i 0); [lia|]. rewrite Hc.
  unfold to_int32. cbn [to_number]. rewrite Rtrunc_IZR. apply wrap32_small. lia.
Qed.

(** X11: between two neighbouring colours of the sequence, both packed in
    24 bits, the blend is a packed colour whose red, green and blue
    channels are each the blend of the two channels, rounded down: a
    curve output [calc] between the whole numbers [i] and [i + 1] weighs
    colour [i + 1] by [calc - i] and colour [i] by the rest. *)
Theorem blend_between_neighbours (this : Easing.t) (colors : list value) (calc : R)
        (i c1 c2 : Z) :
  (0 <= i)%Z -> (i + 1 < Z.of_nat (List.length colors))%Z ->
  IZR i <= calc < IZR i + 1 ->
  nth (Z.to_nat i) colors VUndef = VNum (IZR c1) -> (0 <= c1 < 2 ^ 24)%Z ->
  nth (Z.to_nat (i + 1)) colors VUndef = VNum (IZR c2) -> (0 <= c2 < 2 ^ 24)%Z ->
  let p := calc - IZR i in
  let '(r1, g1, b1) := channels c1 in
  let '(r2, g2, b2) := channels c2 in
  channels (blend_at this colors calc) =
    (Zfloor (mix p r1 r2), Zfloor (mix p g1 g2), Zfloor (mix p b1 b2)) /\
  (0 <= blend_at this colors calc < 2 ^ 24)%Z.
Proof.
  intros Hi Hlen Hcalc Hc1 Hz1 Hc2 Hz2 p.
  rewrite blend_at_parts. cbv zeta.
  rewrite (Zfloor_eq i calc) by lra.
  destruct (Z.eqb_spec i (Z.of_nat (List.length colors))) as [E|_]; [lia|].
  unfold next_index.
  destruct (Z.eqb_spec (i + 1) (Z.of_nat (List.length colors))) as [E|_]; [lia|].
  rewrite (color_at_packed colors i c1), (color_at_packed colors (i + 1) c2)
    by (assumption || lia).
  apply blend_pair_spec; try assumption.
  unfold p. lra.
Qed.

(** X12: where the curve output is a whole number [i] within the
    sequence, the blend is the colour at [i] itself, whatever the other
    colours are. *)
Theorem blend_at_colour (this : Easing.t) (colors : list value) (i c : Z) :
  (0 <= i < Z.of_nat (List.length colors))%Z ->
  nth (Z.to_nat i) colors VUndef = VNum (IZR c) -> (0 <= c < 2 ^ 24)%Z ->
  blend_at this colors (IZR i) = c.
Proof.
  intros Hi Hc Hz. rewrite blend_at_parts. cbv zeta. rewrite ZfloorZ.
  destruct (Z.eqb_spec i (Z.of_nat (List.length colors))) as [E|_]; [lia|].
  rewrite (color_at_packed colors i c) by (assumption || lia).
  replace (IZR i - IZR i) with 0 by lra. now apply blend_pair_0.
Qed.

(** X13: at the end of a phase, where the curve output is the length of
    the sequence, the blend is not always the last colour: it is the
    colour before the last when the session reverses, the first colour
    when it repeats, and the last colour otherwise. *)
Theorem blend_at_end (this : Easing.t) (colors : list value) (c : Z) :
  let len := Z.of_nat (List.length colors) in
  let j := if reverse (options this) then (len - 2)%Z
           else if repeat_truthy (repeat (options this)) then 0%Z else (len - 1)%Z in
  (0 <= j)%Z ->
  nth (Z.to_nat j) colors VUndef = VNum (IZR c) -> (0 <= c < 2 ^ 24)%Z ->
  blend_at this colors (IZR len) = c.
Proof.
  intros len j Hj Hc Hz. rewrite blend_at_parts. cbv zeta. fold len.
  rewrite ZfloorZ, Z.eqb_refl.
  assert (Hn : next_index this len (len - 1) = j).
  { unfold next_index, j.
    replace (len - 1 + 1)%Z with len by lia. rewrite Z.eqb_refl.
    replace (len - 1 - 1)%Z with (len - 2)%Z by lia. reflexivity. }
  rewrite Hn, (color_at_packed colors j c) by assumption.
  replace (IZR len - IZR (len - 1)) with 1 by (rewrite minus_IZR; lra).
  now apply blend_pair_1.
Qed.

End Blending.

(** ** The shake strategy *)

Section ShakeBounds.

Import Easing.

Lemma random_offset_bounds u n :
  0 <= u < 1 -> 0 <= n ->
  exists d : Z, random_offset u (VNum n) = VNum (IZR d) /\ - (n / 2) <= IZR d < n / 2 + 1.
Proof.
  intros Hu Hn. unfold random_offset. cbn [to_number].
  exists (Zfloor (u * n) - Zfloor (n / 2))%Z. rewrite minus_IZR. split; [reflexivity|].
  pose proof (Zfloor_bound (u * n)) as [H1 H2].
  pose proof (Zfloor_bound (n / 2)) as [H3 H4].
  assert (H0 : (0 <= Zfloor (u * n))%Z).
  { apply Zfloor_lub. cbn. apply Rmult_le_pos; lra. }
  apply IZR_le in H0.
  assert (Hun : u * n <= n) by nra.
  destruct (Req_dec n 0) as [->|Hn0].
  - rewrite Rmult_0_r in *. replace (0 / 2) with 0 in * by lra.
    rewrite (ZfloorZ 0) in *. cbn in *. lra.
  - assert (u * n < n) by nra. lra.
Qed.

(** X14: with every draw of [Math.random()] in [0, 1), an update of a
    shake binding of radius [n >= 0] puts the element at a whole number
    of units from the recorded start, at least [-n / 2] and less than
    [n / 2 + 1] on each axis, wherever the element was before, and makes
    two draws. *)
Theorem shake_stays_near (this : Easing.t) (e : Ease) (w : world) (sx sy n : R) :
  ease_update e = UShake ->
  start e = VPt (VNum sx) (VNum sy) ->
  to e = VNum n -> 0 <= n ->
  (forall i, 0 <= random w i < 1) ->
  exists dx dy : Z,
    read (run this e w) (element e) "x" = VNum (sx + IZR dx) /\
    read (run this e w) (element e) "y" = VNum (sy + IZR dy) /\
    - (n / 2) <= IZR dx < n / 2 + 1 /\
    - (n / 2) <= IZR dy < n / 2 + 1 /\
    drawn (run this e w) = S (S (drawn w)).
Proof.
  intros Hu Hs Ht Hn Hr. unfold run. rewrite Hu. unfold updateShake, draw.
  rewrite Hs, Ht. cbn [get_x get_y].
  destruct (random_offset_bounds (random w (drawn w)) n (Hr _) Hn) as (dx & Ex & Bx).
  destruct (random_offset_bounds (random w (S (drawn w))) n (Hr _) Hn) as (dy & Ey & By).
  exists dx, dy. unfold read, write. cbn [elems random drawn].
  rewrite Ex, Ey. unfold set_field, field_set. rewrite Nat.eqb_refl.
  cbn [String.eqb Ascii.eqb Bool.eqb vadd lift2 to_number].
  repeat split; try lra; reflexivity.
Qed.

End ShakeBounds.

(** ** Reversing twice *)

Section Involution.

Import Easing.

(** X15: reversing a binding that follows the curve twice gives the
    binding back: start, goal and delta are what they were. *)
Theorem reverse_ease_twice (e : Ease) :
  eased e -> reverse_ease (reverse_ease e) = e.
Proof.
  intros [Hs He].
  destruct (reverse_ease_shape e) as (_ & Hn & _).
  unfold reverse_ease at 1. rewrite Hn. unfold reverse_ease.
  destruct e as [el en up s g d]. cbn [entry ease_update start to delta element] in *.
  destruct up.
  - destruct He as (Hp & _ & s0 & g0 & -> & -> & ->).
    apply String.eqb_neq in Hp. rewrite Hp. cbn.
    now rewrite Ropp_involutive.
  - destruct He as (Hp & _ & n & -> & -> & ->).
    apply String.eqb_neq in Hp. rewrite Hp. cbn.
    now rewrite Ropp_involutive.
  - destruct He as (Hp & _ & n & -> & -> & ->).
    apply String.eqb_neq in Hp. rewrite Hp. cbn.
    now rewrite Ropp_involutive.
  - contradiction.
  - destruct He as (-> & sx & sy & gx & gy & -> & -> & ->).
    cbn. now rewrite !Ropp_involutive.
  - destruct He as (Hp & _ & s0 & g0 & -> & -> & ->).
    apply String.eqb_neq in Hp. rewrite Hp. cbn.
    now rewrite Ropp_involutive.
  - destruct He as (Hp & _ & s0 & g0 & -> & -> & ->).
    apply String.eqb_neq in Hp. rewrite Hp. cbn.
    now rewrite Ropp_involutive.
Qed.

End Involution.

(** ** The collection of a group *)

Section Collection.

Import Ease Group.

Variable penner : string -> Easing.curve.

Lemma add_collection els params o now s :
  easings (group (fst (add penner els params o now s))) = easings (group s) ++ [allocated s] /\
  allocated (fst (add penner els params o now s)) = S (allocated s) /\
  listeners (fst (add penner els params o now s)) = listeners s /\
  snd (add penner els params o now s) = allocated s.
Proof.
  destruct s as [w hp al [op l em h lt] pend iss tl ls].
  unfold add. cbn.
  destruct (em && useRAF op); cbn; repeat split; reflexivity.
Qed.

Lemma cancel_if_armed_collection s :
  easings (group (cancel_if_armed s)) = easings (group s) /\
  allocated (cancel_if_armed s) = allocated s /\
  listeners (cancel_if_armed s) = listeners s.
Proof.
  destruct s as [w hp al [op l em h lt] pend iss tl ls].
  unfold cancel_if_armed. cbn.
  destruct (useRAF op && handle_set _); [|now cbn].
  destruct h; now cbn.
Qed.

(** What the loop of [removeEase] keeps is part of the collection. *)
Lemma removeEase_loop_kept el p : forall l s,
  let kept := fst (removeEase_loop el p l s) in
  (forall x, In x kept -> In x l) /\ (NoDup l -> NoDup kept).
Proof.
  induction l as [|id l IH]; intros s; cbn [removeEase_loop].
  - cbn. split; [tauto | trivial].
  - destruct (Easing.remove (heap s id) (Easing.Matching el p)) as [e gone].
    specialize (IH (store s id e)). cbv zeta in IH.
    destruct (removeEase_loop el p l (store s id e)) as [kept s'].
    cbn [fst] in *. destruct IH as [IH1 IH2].
    destruct gone.
    + split; [intros x Hx; right; now apply IH1|].
      intros Hnd. inversion Hnd; subst. now apply IH2.
    + split.
      * intros x [->|Hx]; [now left | right; now apply IH1].
      * intros Hnd. inversion Hnd as [|? ? Hni Hnd']; subst.
        constructor; [|now apply IH2].
        intros Hin. apply Hni. now apply IH1.
Qed.

Lemma removeEase_collection el p s :
  (forall x, In x (easings (group (removeEase el p s))) -> In x (easings (group s))) /\
  (NoDup (easings (group s)) -> NoDup (easings (group (removeEase el p s)))) /\
  allocated (removeEase el p s) = allocated s /\
  listeners (removeEase el p s) = listeners s.
Proof.
  unfold removeEase.
  pose proof (removeEase_loop_kept el p (easings (group s)) s) as Hk. cbv zeta in Hk.
  destruct (removeEase_loop_shape el p (easings (group s)) s) as (hp' & kept & E & _).
  rewrite E in *. cbn [fst] in Hk. destruct Hk as [Hk1 Hk2].
  match goal with
  | |- context [set_group ?x (set_easings (group ?x) kept)] =>
      set (s1 := set_group x (set_easings (group x) kept))
  end.
  assert (H1 : easings (group s1) = kept) by (unfold s1; now destruct s as [? ? ? []]).
  assert (H2 : allocated s1 = allocated s) by reflexivity.
  assert (H3 : listeners s1 = listeners s) by reflexivity.
  destruct (Easing.is_nil kept).
  - destruct (cancel_if_armed_collection (set_group s1 (set_empty (group s1) true)))
      as (C1 & C2 & C3).
    rewrite C1, C2, C3.
    replace (easings (group (set_group s1 (set_empty (group s1) true)))) with kept
      by (rewrite <- H1; now destruct s1 as [? ? ? []]).
    repeat split; assumption.
  - rewrite H1, H2, H3. repeat split; assumption.
Qed.

Lemma removeAll_collection s :
  easings (group (removeAll s)) = [] /\ allocated (removeAll s) = allocated s /\
  listeners (removeAll s) = listeners s.
Proof.
  unfold removeAll.
  destruct (cancel_if_armed_collection
              (set_group s (set_empty (set_easings (group s) []) true))) as (C1 & C2 & C3).
  rewrite C1, C2, C3. now destruct s as [? ? ? []].
Qed.

Lemma destroy_collection s :
  easings (group (destroy s)) = [] /\ allocated (destroy s) = allocated s /\
  listeners (destroy s) = listeners s.
Proof.
  unfold destroy. destruct (removeAll_collection s) as (R1 & R2 & R3).
  destruct (ticker (options (group (removeAll s)))).
  - cbn. now rewrite R1.
  - destruct (cancel_if_armed_collection (removeAll s)) as (C1 & C2 & C3).
    rewrite C1, C2, C3. now split.
Qed.

Lemma tidy_grow s s' :
  tidy s ->
  easings (group s') = easings (group s) ++ [allocated s] ->
  allocated s' = S (allocated s) -> tidy s'.
Proof.
  intros [Hnd Hlt] He Ha. unfold tidy. rewrite He, Ha. split.
  - apply NoDup_app; [assumption | repeat constructor; tauto |].
    intros x Hx [<-|[]]. rewrite Forall_forall in Hlt. specialize (Hlt _ Hx). lia.
  - apply Forall_app. split.
    + eapply Forall_impl; [|exact Hlt]. intros; cbn in *; lia.
    + repeat constructor.
Qed.

Lemma tidy_shrink s s' :
  tidy s ->
  (forall x, In x (easings (group s')) -> In x (easings (group s))) ->
  NoDup (easings (group s')) ->
  allocated s' = allocated s -> tidy s'.
Proof.
  intros [Hnd Hlt] Hin Hnd' Ha. split; [assumption|].
  rewrite Ha. apply Forall_forall. intros x Hx.
  rewrite Forall_forall in Hlt. apply Hlt. now apply Hin.
Qed.

Lemma perform_tidy now a s : tidy s -> tidy (perform penner now a s).
Proof.
  intros Ht. destruct a as [els params o|el p| |]; cbn [perform].
  - destruct (add_collection els params o now s) as (A1 & A2 & _).
    exact (tidy_grow _ _ Ht A1 A2).
  - destruct (removeEase_collection el p s) as (R1 & R2 & R3 & _).
    apply (tidy_shrink s); try assumption. apply R2, Ht.
  - destruct (removeAll_collection s) as (R1 & R2 & _).
    apply (tidy_shrink s); try assumption; rewrite R1; [intros x [] | constructor].
  - destruct (destroy_collection s) as (R1 & R2 & _).
    apply (tidy_shrink s); try assumption; rewrite R1; [intros x [] | constructor].
Qed.

Lemma perform_all_tidy now l : forall s,
  tidy s -> tidy (fold_left (fun s a => perform penner now a s) l s).
Proof.
  induction l as [|a l IH]; intros s Ht; cbn; [assumption|].
  apply IH. now apply perform_tidy.
Qed.

Lemma remove_nth_part {A} n : forall (l : list A),
  (forall x, In x (remove_nth n l) -> In x l) /\ (NoDup l -> NoDup (remove_nth n l)).
Proof.
  induction n as [|n IH]; intros [|a l]; cbn; try (split; [tauto | trivial]).
  - intros H. now inversion H.
  - destruct (IH l) as [I1 I2]. split.
    + intros x [->|Hx]; [now left | right; now apply I1].
    + intros H. inversion H as [|? ? Hni Hnd]; subst.
      constructor; [|now apply I2]. intros Hin. apply Hni. now apply I1.
Qed.

Lemma update_one_tidy elapsed now s id : tidy s -> tidy (update_one penner elapsed now s id).
Proof.
  intros Ht. unfold update_one.
  set (r := Easing.update (heap s id) elapsed (sys_world s)).
  set (s1 := set_world (store s id (Easing.session r)) (Easing.after r)).
  assert (Ht1 : tidy s1) by (destruct s as [? ? ? []]; exact Ht).
  assert (Hl : listeners s1 = listeners s) by now destruct s.
  pose proof (perform_all_tidy now (flat_map (listeners s1 id) (Easing.events r)) s1 Ht1)
    as Ht2.
  set (s2 := fold_left _ _ s1) in *.
  destruct (Easing.finished r); [|exact Ht2].
  apply (tidy_shrink s2); try assumption.
  - intros x. destruct s2 as [? ? ? []]. cbn. unfold splice1. apply remove_nth_part.
  - destruct Ht2 as [Hnd _]. destruct s2 as [? ? ? []]. cbn in *.
    unfold splice1. now apply remove_nth_part.
  - now destruct s2.
Qed.

Lemma sweep_tidy elapsed now s : tidy s -> tidy (sweep penner elapsed now s).
Proof.
  intros Ht. unfold sweep.
  set (s1 := if negb (empty (group s)) then _ else s).
  assert (Ht1 : tidy s1).
  { unfold s1. destruct (negb (empty (group s))); [|assumption].
    assert (H : forall l s0, tidy s0 ->
                  tidy (fold_left (update_one penner elapsed now) l s0)).
    { induction l as [|id l IH]; intros s0 H0; cbn; [assumption|].
      apply IH. now apply update_one_tidy. }
    specialize (H (easings (group s)) s Ht).
    destruct (Easing.is_nil _); [|assumption].
    destruct (fold_left _ _ _) as [? ? ? []]. exact H. }
  destruct (useRAF (options (group s1)) && negb (Easing.is_nil (easings (group s1))));
    destruct s1 as [? ? ? []]; exact Ht1.
Qed.

Lemma update_tidy arg elapsedMS now s : tidy s -> tidy (update penner arg elapsedMS now s).
Proof.
  intros Ht. unfold update.
  destruct (ticker (options (group s))); [now apply sweep_tidy|].
  destruct (useRAF (options (group s))); apply sweep_tidy; [|assumption].
  destruct s as [? ? ? []]. exact Ht.
Qed.

Lemma add_tidy els params o now s : tidy s -> tidy (fst (add penner els params o now s)).
Proof.
  intros Ht. destruct (add_collection els params o now s) as (A1 & A2 & _).
  exact (tidy_grow _ _ Ht A1 A2).
Qed.

Lemma step_tidy s a : tidy s -> tidy (step penner s a).
Proof.
  intros Ht.
  destruct a as [els params o now | el tx ty speed o now | el tx ty speed o now
                 | el param | | | id elapsedMS now | elapsedMS now]; cbn [step].
  - now apply add_tidy.
  - unfold face. repeat (destruct (number_field _ _ _); [|assumption]).
    now apply add_tidy.
  - unfold target. repeat (destruct (number_field _ _ _); [|assumption]).
    now apply add_tidy.
  - now apply (perform_tidy 0 (DoRemoveEase el param)).
  - now apply (perform_tidy 0 DoRemoveAll).
  - now apply (perform_tidy 0 DoDestroy).
  - unfold frame. destruct (existsb _ _); [|assumption].
    apply update_tidy. destruct s as [? ? ? []]. exact Ht.
  - unfold tick. induction (ticker_listeners s) as [|n IH]; cbn; [assumption|].
    now apply update_tidy.
Qed.

(** X16: whatever is done to a group, and whatever the listeners of its
    sessions do to it during a tick, its collection never holds a session
    twice, and holds only sessions that [add] has created. *)
Theorem collection_holds_each_once (o : EaseOptions) (w : world)
        (hooks : nat -> Easing.event -> list action) (ops : list op) :
  tidy (run penner (create o w hooks) ops).
Proof.
  assert (H : forall l s, tidy s -> tidy (run penner s l)).
  { induction l as [|a l IH]; intros s Hs; cbn; [assumption|].
    apply IH. now apply step_tidy. }
  apply H. split; cbn; constructor.
Qed.

End Collection.

(** ** A tick without meddling listeners *)

Section SilentTick.

Import Ease Group.

Variable penner : string -> Easing.curve.

Lemma indexOf_middle id : forall pre rest,
  ~ In id pre -> indexOf id (pre ++ id :: rest) = Z.of_nat (List.length pre).
Proof.
  induction pre as [|y pre IH]; intros rest Hni; cbn [app indexOf List.length].
  - now rewrite Nat.eqb_refl.
  - destruct (Nat.eqb_spec y id) as [->|Hne]; [exfalso; apply Hni; now left|].
    rewrite IH by (intros H; apply Hni; now right).
    destruct (Z.ltb_spec (Z.of_nat (List.length pre)) 0); lia.
Qed.

Lemma visits_ext elapsed hp hp' : forall l w,
  (forall id, In id l -> hp id = hp' id) ->
  visits elapsed hp w l = visits elapsed hp' w l.
Proof.
  induction l as [|id l IH]; intros w H; cbn [visits]; [reflexivity|].
  rewrite <- (H id) by now left. cbv zeta. f_equal.
  apply IH. intros id' Hin. apply H. now right.
Qed.

Lemma visits_ids elapsed hp : forall l w, map fst (visits elapsed hp w l) = l.
Proof.
  induction l as [|id l IH]; intros w; cbn [visits map fst]; [reflexivity|].
  f_equal. apply IH.
Qed.

(** An iteration of the tick when the listeners are silent. *)
Lemma update_one_silent elapsed now s id :
  silent s ->
  update_one penner elapsed now s id =
    let r := Easing.update (heap s id) elapsed (sys_world s) in
    let s1 := set_world (store s id (Easing.session r)) (Easing.after r) in
    if Easing.finished r
    then set_group s1 (set_easings (group s1)
                         (splice1 (indexOf id (easings (group s))) (easings (group s))))
    else s1.
Proof.
  intros Hs. unfold update_one. cbv zeta.
  assert (Hl : forall w e, listeners (set_world (store s id e) w) = listeners s)
    by (intros; now destruct s).
  rewrite Hl, (no_actions (listeners s) id _ Hs). cbn [fold_left].
  destruct (Easing.finished _); [|reflexivity].
  now destruct s as [? ? ? []].
Qed.

Lemma loop_silent elapsed now : forall rest s pre,
  silent s ->
  easings (group s) = pre ++ rest ->
  NoDup (pre ++ rest) ->
  let vs := visits elapsed (heap s) (sys_world s) rest in
  let s' := fold_left (update_one penner elapsed now) rest s in
  easings (group s') = pre ++ unfinished vs /\
  sys_world s' = last_world (sys_world s) vs /\
  (forall id r, In (id, r) vs -> heap s' id = Easing.session r) /\
  (forall id, ~ In id rest -> heap s' id = heap s id).
Proof.
  induction rest as [|id rest IH]; intros s pre Hs He Hnd; cbn [visits fold_left].
  - cbn. rewrite app_nil_r in *. repeat split; try assumption; try reflexivity.
    intros id r [].
  - cbv zeta. rewrite (update_one_silent elapsed now s id Hs). cbv zeta.
    set (r := Easing.update (heap s id) elapsed (sys_world s)).
    set (s1 := set_world (store s id (Easing.session r)) (Easing.after r)).
    assert (Hni : ~ In id pre /\ ~ In id rest).
    { apply NoDup_remove_2 in Hnd. split; intros H; apply Hnd, in_or_app; auto. }
    assert (Hw1 : sys_world s1 = Easing.after r) by now destruct s.
    assert (Hh1 : forall j, heap s1 j = if Nat.eqb j id then Easing.session r else heap s j)
      by (intros; now destruct s).
    assert (Hvs : visits elapsed (heap s) (Easing.after r) rest =
                  visits elapsed (heap s1) (Easing.after r) rest).
    { apply visits_ext. intros j Hj. rewrite Hh1.
      destruct (Nat.eqb_spec j id) as [->|]; [now destruct Hni | reflexivity]. }
    rewrite Hvs.
    assert (Hstep : forall s2 pre2,
      silent s2 -> easings (group s2) = pre2 ++ rest -> NoDup (pre2 ++ rest) ->
      heap s2 = heap s1 -> sys_world s2 = sys_world s1 ->
      pre2 ++ unfinished (visits elapsed (heap s1) (Easing.after r) rest) =
        pre ++ unfinished ((id, r) :: visits elapsed (heap s1) (Easing.after r) rest) ->
      let vs := (id, r) :: visits elapsed (heap s1) (Easing.after r) rest in
      let s' := fold_left (update_one penner elapsed now) rest s2 in
      easings (group s') = pre ++ unfinished vs /\
      sys_world s' = last_world (sys_world s) vs /\
      (forall id0 r0, In (id0, r0) vs -> heap s' id0 = Easing.session r0) /\
      (forall id0, ~ In id0 (id :: rest) -> heap s' id0 = heap s id0)).
    { intros s2 pre2 Hs2 He2 Hnd2 Hh2 Hw2 Hpre vs s'.
      destruct (IH s2 pre2 Hs2 He2 Hnd2) as (I1 & I2 & I3 & I4).
      rewrite Hh2, Hw2, Hw1 in I1, I2, I3. fold s' in I1, I2, I3, I4.
      repeat split.
      - now rewrite I1.
      - rewrite I2. reflexivity.
      - intros id0 r0 [E|Hin]; [|now apply I3].
        injection E as <- <-. rewrite I4 by apply Hni.
        rewrite Hh2, Hh1. now rewrite Nat.eqb_refl.
      - intros id0 Hn. rewrite I4 by (intros H; apply Hn; now right).
        rewrite Hh2, Hh1.
        destruct (Nat.eqb_spec id0 id) as [->|]; [exfalso; apply Hn; now left | reflexivity]. }
    destruct (Easing.finished r) eqn:Hf.
    + apply (Hstep _ pre).
      * intros j ev. destruct s. apply Hs.
      * rewrite He, indexOf_middle by apply Hni.
        rewrite splice1_middle. now destruct s as [? ? ? []].
      * now apply NoDup_remove_1 in Hnd.
      * now destruct s as [? ? ? []].
      * now destruct s as [? ? ? []].
      * unfold unfinished. cbn [filter snd]. now rewrite Hf.
    + apply (Hstep _ (pre ++ [id])).
      * intros j ev. destruct s. apply Hs.
      * rewrite <- app_assoc. cbn [app]. rewrite <- He. now destruct s as [? ? ? []].
      * now rewrite <- app_assoc.
      * reflexivity.
      * reflexivity.
      * unfold unfinished. cbn [filter snd]. rewrite Hf. cbn [negb map fst].
        now rewrite <- app_assoc.
Qed.

(** A tick without meddling listeners, session by session. *)
Lemma update_visits (arg elapsedMS now : R) (s : system) :
  silent s ->
  NoDup (easings (group s)) ->
  empty (group s) = false ->
  let elapsed := frame_time arg elapsedMS now s in
  let vs := visits elapsed (heap s) (sys_world s) (easings (group s)) in
  let s' := update penner arg elapsedMS now s in
  elapsed <= maxFrame (options (group s)) /\
  map fst vs = easings (group s) /\
  easings (group s') = unfinished vs /\
  sys_world s' = last_world (sys_world s) vs /\
  (forall id r, In (id, r) vs -> heap s' id = Easing.session r) /\
  (forall id, ~ In id (easings (group s)) -> heap s' id = heap s id).
Proof.
  intros Hs Hnd Hem elapsed vs s'.
  split; [apply Rmin_r|].
  split.
  { apply visits_ids. }
  assert (Hsweep : forall s0,
    silent s0 -> easings (group s0) = easings (group s) -> empty (group s0) = false ->
    heap s0 = heap s -> sys_world s0 = sys_world s ->
    let s1 := sweep penner elapsed now s0 in
    easings (group s1) = unfinished vs /\
    sys_world s1 = last_world (sys_world s) vs /\
    (forall id r, In (id, r) vs -> heap s1 id = Easing.session r) /\
    (forall id, ~ In id (easings (group s)) -> heap s1 id = heap s id)).
  { intros s0 Hs0 He0 Hem0 Hh0 Hw0 s1. subst s1. unfold sweep. rewrite Hem0. cbn [negb].
    destruct (loop_silent elapsed now (easings (group s0)) s0 [] Hs0 eq_refl)
      as (L1 & L2 & L3 & L4); [now rewrite He0|].
    rewrite He0, Hh0, Hw0 in L1, L2, L3. rewrite He0 in L4. fold vs in L1, L2, L3.
    cbn [app] in L1. rewrite He0.
    set (s2 := fold_left _ _ s0) in *.
    set (s3 := if Easing.is_nil (easings (group s2)) then _ else s2).
    assert (H3 : easings (group s3) = easings (group s2) /\ sys_world s3 = sys_world s2 /\
                 heap s3 = heap s2).
    { unfold s3. destruct (Easing.is_nil _); [|now repeat split].
      now destruct s2 as [? ? ? []]. }
    destruct H3 as (E1 & E2 & E3).
    assert (H4 : forall sx : system,
      easings (group sx) = easings (group s3) -> sys_world sx = sys_world s3 ->
      heap sx = heap s3 ->
      easings (group sx) = unfinished vs /\
      sys_world sx = last_world (sys_world s) vs /\
      (forall id r, In (id, r) vs -> heap sx id = Easing.session r) /\
      (forall id, ~ In id (easings (group s)) -> heap sx id = heap s id)).
    { intros sx X1 X2 X3. rewrite X1, X2, X3, E1, E2, E3.
      repeat split; try assumption. intros id Hn. rewrite L4 by assumption.
      now rewrite Hh0. }
    destruct (useRAF (options (group s3)) && negb (Easing.is_nil (easings (group s3))));
      apply H4; now destruct s3 as [? ? ? []]. }
  subst s'. unfold update.
  assert (Hel : forall x, Rmin x (maxFrame (options (group s))) = elapsed ->
                forall s0, silent s0 -> easings (group s0) = easings (group s) ->
                empty (group s0) = false -> heap s0 = heap s -> sys_world s0 = sys_world s ->
                let s1 := sweep penner (Rmin x (maxFrame (options (group s)))) now s0 in
                easings (group s1) = unfinished vs /\
                sys_world s1 = last_world (sys_world s) vs /\
                (forall id r, In (id, r) vs -> heap s1 id = Easing.session r) /\
                (forall id, ~ In id (easings (group s)) -> heap s1 id = heap s id)).
  { intros x ->. exact Hsweep. }
  unfold elapsed, frame_time in Hel. cbv zeta in Hel.
  destruct (ticker (options (group s))).
  - now apply Hel.
  - destruct (useRAF (options (group s))).
    + apply Hel; try reflexivity; now destruct s as [? ? ? []].
    + now apply Hel.
Qed.

(** X17: when no listener acts on the group, a tick of a group whose
    collection holds no session twice updates each session of the
    collection once and in order, each on the elements as the one before
    left them, with the elapsed time of the tick's source cut off at
    [maxFrame]; afterwards the collection holds, in the same order, the
    sessions that did not report that they were finished, and no other
    session is touched. *)
Theorem tick_updates_each_once (arg elapsedMS now : R) (s : system) :
  silent s ->
  NoDup (easings (group s)) ->
  empty (group s) = false ->
  let elapsed := frame_time arg elapsedMS now s in
  let vs := visits elapsed (heap s) (sys_world s) (easings (group s)) in
  let s' := update penner arg elapsedMS now s in
  elapsed <= maxFrame (options (group s)) /\
  map fst vs = easings (group s) /\
  easings (group s') = unfinished vs /\
  sys_world s' = last_world (sys_world s) vs /\
  (forall id r, In (id, r) vs -> heap s' id = Easing.session r) /\
  (forall id, ~ In id (easings (group s)) -> heap s' id = heap s id).
Proof. apply update_visits. Qed.

End SilentTick.

(** ** The sources of ticks *)

Section Sources.

Import Ease Group.

Variable penner : string -> Easing.curve.

Lemma fixed_refl s : fixed s s.
Proof. now repeat split. Qed.

Lemma fixed_trans s1 s2 s3 : fixed s1 s2 -> fixed s2 s3 -> fixed s1 s3.
Proof. intros (A & B & C) (D & E & F). repeat split; congruence. Qed.

Lemma add_fixed els params o now s : fixed s (fst (add penner els params o now s)).
Proof.
  destruct s as [w hp al [op l em h lt] pend iss tl ls]. unfold add, fixed. cbn.
  destruct (em && useRAF op); now cbn.
Qed.

Lemma cancel_if_armed_fixed s : fixed s (cancel_if_armed s).
Proof.
  destruct s as [w hp al [op l em h lt] pend iss tl ls]. unfold cancel_if_armed, fixed. cbn.
  destruct (useRAF op && handle_set _); [|now cbn].
  destruct h; now cbn.
Qed.

Lemma removeEase_fixed el p s : fixed s (removeEase el p s).
Proof.
  unfold removeEase.
  destruct (removeEase_loop_shape el p (easings (group s)) s) as (hp' & kept & E & _).
  rewrite E.
  match goal with
  | |- context [set_group ?x (set_easings (group ?x) kept)] =>
      set (s1 := set_group x (set_easings (group x) kept))
  end.
  assert (H1 : fixed s s1) by (unfold s1; now destruct s as [? ? ? []]).
  destruct (Easing.is_nil kept); [|assumption].
  eapply fixed_trans; [|apply cancel_if_armed_fixed].
  eapply fixed_trans; [exact H1|]. now destruct s1 as [? ? ? []].
Qed.

Lemma removeAll_fixed s : fixed s (removeAll s).
Proof.
  unfold removeAll. eapply fixed_trans; [|apply cancel_if_armed_fixed].
  now destruct s as [? ? ? []].
Qed.

(** With silent listeners the loop of the tick leaves the frame requests
    alone, and the rest of [update] makes or drops the next one. *)
Lemma sweep_requests elapsed now s :
  silent s ->
  let s' := sweep penner elapsed now s in
  fixed s s' /\
  raf_pending s' =
    (if useRAF (options (group s)) && negb (Easing.is_nil (easings (group s')))
     then S (raf_issued s) :: raf_pending s else raf_pending s).
Proof.
  intros Hs s'. subst s'. unfold sweep.
  set (s1 := if negb (empty (group s)) then _ else s).
  assert (H1 : fixed s s1 /\ raf_pending s1 = raf_pending s /\ raf_issued s1 = raf_issued s).
  { unfold s1. destruct (negb (empty (group s))); [|now repeat split].
    destruct (update_loop_shape penner elapsed now (easings (group s)) s Hs)
      as (w' & hp' & l' & E).
    rewrite E. destruct s as [? ? ? []]. cbn.
    destruct (Easing.is_nil l'); now cbn. }
  destruct H1 as ((F1 & F2 & F3) & P1 & P2).
  rewrite <- F3, <- P1, <- P2.
  destruct s1 as [w1 hp1 al1 [o1 l1 em1 h1 lt1] pend1 iss1 tl1 ls1].
  cbn in *. unfold fixed.
  destruct (useRAF o1 && negb (Easing.is_nil l1)) eqn:Hc; cbn; rewrite ?Hc;
    repeat split; assumption.
Qed.

Lemma update_requests arg elapsedMS now s :
  silent s ->
  let s' := update penner arg elapsedMS now s in
  fixed s s' /\
  raf_pending s' =
    (if useRAF (options (group s)) && negb (Easing.is_nil (easings (group s')))
     then S (raf_issued s) :: raf_pending s else raf_pending s).
Proof.
  intros Hs s'. subst s'. unfold update.
  destruct (ticker (options (group s))); [now apply sweep_requests|].
  destruct (useRAF (options (group s))) eqn:Hraf.
  - destruct (sweep_requests
                (Rmin (now - or_default (lastTime (group s)) 0) (maxFrame (options (group s))))
                now (set_group s (set_lastTime (group s) now))) as [F P].
    { intros id ev. destruct s. apply Hs. }
    split.
    + eapply fixed_trans; [|exact F]. now destruct s as [? ? ? []].
    + rewrite P. destruct s as [? ? ? []]. cbn in *. now rewrite Hraf.
  - destruct (sweep_requests (Rmin arg (maxFrame (options (group s)))) now s Hs) as [F P].
    split; [exact F|]. rewrite P. now rewrite Hraf.
Qed.

Lemma silent_fixed s s' : fixed s s' -> silent s -> silent s'.
Proof. intros (_ & E & _) H id ev. rewrite E. apply H. Qed.

Lemma step_fixed s a :
  silent s -> is_destroy a = false -> fixed s (step penner s a).
Proof.
  intros Hs Ha.
  destruct a as [els params o now | el tx ty speed o now | el tx ty speed o now
                 | el param | | | id elapsedMS now | elapsedMS now];
    cbn [step]; try discriminate.
  - apply add_fixed.
  - unfold face. repeat (destruct (number_field _ _ _); [|apply fixed_refl]).
    apply add_fixed.
  - unfold target. repeat (destruct (number_field _ _ _); [|apply fixed_refl]).
    apply add_fixed.
  - apply removeEase_fixed.
  - apply removeAll_fixed.
  - unfold frame. destruct (existsb _ _); [|apply fixed_refl].
    eapply fixed_trans; [|apply update_requests].
    + now destruct s as [? ? ? []].
    + intros j ev. destruct s. apply Hs.
  - unfold tick.
    induction (ticker_listeners s) as [|n IH]; cbn [Nat.iter]; [apply fixed_refl|].
    eapply fixed_trans; [exact IH|]. apply update_requests.
    eapply silent_fixed; eassumption.
Qed.

Lemma destroy_unsubscribes s :
  ticker_listeners (destroy s) =
    (if ticker (options (group s)) then 0%nat else ticker_listeners s) /\
  listeners (destroy s) = listeners s /\
  options (group (destroy s)) = options (group s).
Proof.
  unfold destroy. destruct (removeAll_fixed s) as (F1 & F2 & F3).
  rewrite F3.
  destruct (ticker (options (group s))).
  - cbn. now repeat split.
  - destruct (cancel_if_armed_fixed (removeAll s)) as (C1 & C2 & C3).
    repeat split; congruence.
Qed.

Lemma run_subscription o : forall ops s (gone : bool),
  silent s -> options (group s) = o ->
  ticker_listeners s = (if ticker o && negb gone then 1 else 0)%nat ->
  ticker_listeners (run penner s ops) =
    (if ticker o && negb (gone || existsb is_destroy ops) then 1 else 0)%nat.
Proof.
  induction ops as [|a ops IH]; intros s gone Hs Ho Ht.
  - cbn. now rewrite orb_false_r.
  - change (run penner s (a :: ops)) with (run penner (step penner s a) ops).
    cbn [existsb].
    destruct (is_destroy a) eqn:Ha.
    + destruct a; try discriminate. cbn [step].
      destruct (destroy_unsubscribes s) as (D1 & D2 & D3).
      rewrite (IH (destroy s) true).
      * now rewrite orb_true_r.
      * intros id ev. rewrite D2. apply Hs.
      * congruence.
      * rewrite D1, Ho, Ht. cbn. rewrite andb_false_r. now destruct (ticker o).
    + destruct (step_fixed s a Hs Ha) as (F1 & F2 & F3).
      rewrite (IH (step penner s a) gone).
      * reflexivity.
      * intros id ev. rewrite F2. apply Hs.
      * congruence.
      * congruence.
Qed.

(** X18: a group built with a ticker is subscribed to it from its
    construction until [destroy], with or without sessions, and is not
    subscribed again afterwards; a group built without one never is.
    (No listener acts on the group.) *)
Theorem ticker_subscription_lasts (o : EaseOptions) (w : world) (ops : list op) :
  ticker_listeners (run penner (create o w (fun _ _ => [])) ops) =
    (if ticker o && negb (existsb is_destroy ops) then 1 else 0)%nat.
Proof.
  rewrite (run_subscription o ops _ false).
  - reflexivity.
  - intros id ev. reflexivity.
  - reflexivity.
  - cbn. destruct (ticker o); reflexivity.
Qed.

(** X19: in a group with a ticker and [useRAF] set, as it is by default,
    every tick of the ticker that leaves a session in the collection
    makes a frame request of its own, on top of those pending: the
    requests pile up, one more with each tick.  (No listener acts on the
    group.) *)
Theorem ticker_tick_requests_frame (elapsedMS now : R) (s : system) :
  silent s ->
  useRAF (options (group s)) = true ->
  ticker_listeners s = 1%nat ->
  let s' := tick penner elapsedMS now s in
  easings (group s') <> [] ->
  raf_pending s' = S (raf_issued s) :: raf_pending s /\
  ticker_listeners s' = 1%nat.
Proof.
  intros Hs Hraf Ht s'.
  assert (E : s' = update penner 0 elapsedMS now s)
    by (unfold s', tick; now rewrite Ht).
  rewrite E. clear E s'. intros Hne.
  destruct (update_requests 0 elapsedMS now s Hs) as [(F1 & _) P].
  rewrite P, Hraf, F1, Ht.
  destruct (easings (group (update penner 0 elapsedMS now s))); [contradiction|].
  now split.
Qed.

End Sources.

(** ** Removing and adding sessions *)

Section RemoveAdd.

Import Ease Group.

Variable penner : string -> Easing.curve.

Lemma remove_again this el p :
  Easing.remove (fst (Easing.remove this (Easing.Matching el p))) (Easing.Matching el p) =
  Easing.remove this (Easing.Matching el p).
Proof.
  unfold Easing.remove. cbn [fst Easing.eases Easing.options Easing.time].
  assert (E : forall l,
    filter (fun e => negb (Easing.matches el p e))
           (filter (fun e => negb (Easing.matches el p e)) l) =
    filter (fun e => negb (Easing.matches el p e)) l).
  { induction l as [|a l IH]; cbn; [reflexivity|].
    destruct (negb (Easing.matches el p a)) eqn:Ha; cbn; rewrite ?Ha, IH; reflexivity. }
  now rewrite E.
Qed.

Lemma removeEase_loop_spec el p : forall l s,
  let r := removeEase_loop el p l s in
  fst r = filter (fun id => negb (Easing.is_nil (Easing.eases (pruned el p (heap s id))))) l /\
  (forall id, In id l -> heap (snd r) id = pruned el p (heap s id)) /\
  (forall id, ~ In id l -> heap (snd r) id = heap s id) /\
  sys_world (snd r) = sys_world s.
Proof.
  induction l as [|id l IH]; intros s; cbn [removeEase_loop].
  - cbn. repeat split; try reflexivity. intros id [].
  - cbv zeta.
    destruct (Easing.remove (heap s id) (Easing.Matching el p)) as [e gone] eqn:Er.
    assert (He : e = pruned el p (heap s id)) by (unfold pruned; now rewrite Er).
    assert (Hg : gone = Easing.is_nil (Easing.eases e)).
    { unfold Easing.remove in Er. injection Er as <- <-. reflexivity. }
    specialize (IH (store s id e)). cbv zeta in IH.
    destruct (removeEase_loop el p l (store s id e)) as [kept s'].
    cbn [fst snd] in *. destruct IH as (I1 & I2 & I3 & I4).
    assert (Hst : forall j, heap (store s id e) j = if Nat.eqb j id then e else heap s j)
      by (intros; now destruct s).
    assert (Hpr : forall j, pruned el p (heap (store s id e) j) = pruned el p (heap s j)).
    { intros j. rewrite Hst. destruct (Nat.eqb_spec j id) as [->|]; [|reflexivity].
      rewrite He. unfold pruned. now rewrite remove_again. }
    repeat split.
    + cbn [filter]. rewrite <- He, <- Hg.
      assert (Hk : kept = filter (fun id0 => negb (Easing.is_nil
                      (Easing.eases (pruned el p (heap s id0))))) l).
      { rewrite I1. apply filter_ext. intros j. now rewrite Hpr. }
      rewrite <- Hk. now destruct gone.
    + intros j [<-|Hj].
      * destruct (in_dec Nat.eq_dec id l) as [Hin|Hni].
        -- rewrite (I2 _ Hin). apply Hpr.
        -- rewrite (I3 _ Hni), Hst, Nat.eqb_refl. exact He.
      * rewrite (I2 _ Hj). apply Hpr.
    + intros j Hj. rewrite I3 by (intros H; apply Hj; now right).
      rewrite Hst. destruct (Nat.eqb_spec j id) as [->|]; [|reflexivity].
      exfalso. apply Hj. now left.
    + rewrite I4. now destruct s.
Qed.

(** X20: [removeEase] takes the matching bindings out of every session
    of the collection, and the sessions left without a binding out of the
    collection: every session that stays has a binding, none of its
    bindings matches, the others are in their order, and neither the
    elements nor the sessions outside the collection are touched. *)
Theorem removeEase_prunes (el : option nat) (p : option (list string)) (s : system) :
  let s' := removeEase el p s in
  easings (group s') =
    filter (fun id => negb (Easing.is_nil (Easing.eases (pruned el p (heap s id)))))
           (easings (group s)) /\
  (forall id, In id (easings (group s)) ->
     Easing.eases (heap s' id) =
       filter (fun e => negb (Easing.matches el p e)) (Easing.eases (heap s id))) /\
  (forall id, In id (easings (group s')) ->
     Easing.eases (heap s' id) <> [] /\
     Forall (fun e => Easing.matches el p e = false) (Easing.eases (heap s' id))) /\
  (forall id, ~ In id (easings (group s)) -> heap s' id = heap s id) /\
  sys_world s' = sys_world s.
Proof.
  intros s'.
  destruct (removeEase_loop_spec el p (easings (group s)) s) as (L1 & L2 & L3 & L4).
  assert (E : easings (group s') = fst (removeEase_loop el p (easings (group s)) s) /\
              heap s' = heap (snd (removeEase_loop el p (easings (group s)) s)) /\
              sys_world s' = sys_world (snd (removeEase_loop el p (easings (group s)) s))).
  { unfold s', removeEase.
    destruct (removeEase_loop el p (easings (group s)) s) as [kept s1]. cbn [fst snd].
    destruct (Easing.is_nil kept).
    - unfold cancel_if_armed.
      destruct s1 as [w1 hp1 al1 [o1 l1 em1 h1 lt1] pend1 iss1 tl1 ls1]. cbn.
      destruct (useRAF o1 && handle_set _); [|now cbn].
      destruct h1; now cbn.
    - now destruct s1 as [? ? ? []]. }
  destruct E as (E1 & E2 & E3). rewrite E1, E2, E3, L1.
  assert (H2 : forall id, In id (easings (group s)) ->
            Easing.eases (heap (snd (removeEase_loop el p (easings (group s)) s)) id) =
            filter (fun e => negb (Easing.matches el p e)) (Easing.eases (heap s id))).
  { intros id Hin. now rewrite (L2 _ Hin). }
  repeat split; try assumption.
  - apply filter_In in H. destruct H as [Hin Hne].
    rewrite (L2 _ Hin). intros Hnil. rewrite Hnil in Hne. discriminate.
  - apply filter_In in H. destruct H as [Hin _].
    rewrite (H2 _ Hin). apply Forall_forall. intros e He.
    apply filter_In in He. destruct He as [_ He]. now apply negb_true_iff in He.
Qed.

Lemma countRunning_ext (l : list nat) (hp hp' : nat -> Easing.t) :
  (forall id, In id l -> hp id = hp' id) ->
  forall n, fold_left (fun n id => (n + Easing.count (hp id))%nat) l n =
            fold_left (fun n id => (n + Easing.count (hp' id))%nat) l n.
Proof.
  induction l as [|id l IH]; intros H n; cbn; [reflexivity|].
  rewrite (H id) by now left. apply IH. intros j Hj. apply H. now right.
Qed.

Lemma create_count w els params o :
  Easing.count (Easing.create w els params o) = (List.length params * List.length els)%nat.
Proof.
  unfold Easing.count, Easing.create. cbn [Easing.eases].
  induction params as [|q params IH]; cbn [flat_map List.length]; [reflexivity|].
  rewrite length_app, length_map, IH. cbn. lia.
Qed.

(** X21: in a group whose collection holds only sessions created before,
    [add] puts one new session at the end of the collection, with one
    binding for each pair of a parameter and an element, and returns it:
    the count of sessions grows by one and the count of bindings by the
    number of parameters times the number of elements. *)
Theorem add_counts (els : list nat) (params : list (string * value)) (o : overrides)
        (now : R) (s : system) :
  Forall (fun id => (id < allocated s)%nat) (easings (group s)) ->
  let s' := fst (add penner els params o now s) in
  let id := snd (add penner els params o now s) in
  easings (group s') = easings (group s) ++ [id] /\
  Ease.count s' = S (Ease.count s) /\
  Easing.count (heap s' id) = (List.length params * List.length els)%nat /\
  countRunning s' = (countRunning s + List.length params * List.length els)%nat /\
  empty (group s') = false.
Proof.
  intros Hlt s' id.
  destruct (add_collection penner els params o now s) as (A1 & A2 & _ & A4).
  fold s' in A1, A2. fold id in A4.
  assert (Hh : forall j, heap s' j =
            if Nat.eqb j (allocated s)
            then Easing.create (sys_world s) els params (merge penner (options (group s)) o)
            else heap s j).
  { intros j. unfold s', add.
    destruct s as [w hp al [op l em h lt] pend iss tl ls]. cbn.
    destruct (em && useRAF op); reflexivity. }
  assert (Hem : empty (group s') = false).
  { unfold s', add. destruct s as [w hp al [op l em h lt] pend iss tl ls]. cbn.
    destruct (em && useRAF op); reflexivity. }
  assert (Hc : Easing.count (heap s' id) = (List.length params * List.length els)%nat).
  { rewrite A4, Hh, Nat.eqb_refl. apply create_count. }
  split; [now rewrite A1, A4|].
  repeat split; try assumption.
  - unfold Ease.count. rewrite A1, length_app. cbn. lia.
  - unfold countRunning. rewrite A1, fold_left_app. cbn [fold_left].
    rewrite <- A4, Hc. f_equal.
    apply countRunning_ext. intros j Hj. rewrite Hh.
    rewrite Forall_forall in Hlt. specialize (Hlt j Hj).
    destruct (Nat.eqb_spec j (allocated s)); [lia | reflexivity].
Qed.

(** X22: [target] creates a session that eases [x] and [y] from the
    place of the element to the place of the target, each from its own
    start, over the distance between the two divided by the speed; a
    duration given in the options is replaced. *)
Theorem target_heads_for_the_point (el : nat) (tx ty speed now ex ey : R)
        (o : overrides) (s : system) :
  read (sys_world s) el "x" = VNum ex ->
  read (sys_world s) el "y" = VNum ey ->
  exists s' id,
    target penner el tx ty speed o now s = Some (s', id) /\
    Easing.duration (Easing.options (heap s' id)) =
      sqrt ((ex - tx) ^ 2 + (ey - ty) ^ 2) / speed /\
    Easing.eases (heap s' id) =
      [Easing.mkEase el "x" (Easing.UOne "x") (VNum ex) (VNum tx) (VNum (tx - ex));
       Easing.mkEase el "y" (Easing.UOne "y") (VNum ey) (VNum ty) (VNum (ty - ey))] /\
    Easing.time (heap s' id) = 0.
Proof.
  intros Hx Hy. unfold target, number_field. rewrite Hx, Hy. cbn [to_number].
  set (params := [("x", VNum tx); ("y", VNum ty)]).
  set (ov := set_duration o _).
  exists (fst (add penner [el] params ov now s)), (snd (add penner [el] params ov now s)).
  split; [f_equal; apply surjective_pairing|].
  destruct (add_collection penner [el] params ov now s) as (_ & _ & _ & A4).
  rewrite A4.
  assert (Hh : heap (fst (add penner [el] params ov now s)) (allocated s) =
               Easing.create (sys_world s) [el] params (merge penner (options (group s)) ov)).
  { unfold add. destruct s as [w hp al [op l em h lt] pend iss tl ls]. cbn.
    destruct (em && useRAF op); cbn; now rewrite Nat.eqb_refl. }
  rewrite Hh. unfold Easing.create, params. cbn [Easing.options Easing.eases Easing.time].
  repeat split.
  cbn [flat_map map fst snd app]. unfold Easing.addParam. cbn. now rewrite Hx, Hy.
Qed.


(** X24: [face] creates a session that eases the rotation from where it
    is to the value of [shortestAngle], over the distance between that
    value and the rotation divided by the speed; for an element that is
    not rotated this is the shortest rotation to the bearing of the
    target, over its magnitude divided by the speed. *)
Theorem face_session (el : nat) (tx ty speed now r ex ey : R)
        (o : overrides) (s : system) :
  read (sys_world s) el "rotation" = VNum r ->
  read (sys_world s) el "x" = VNum ex ->
  read (sys_world s) el "y" = VNum ey ->
  let a := Easing.shortestAngle r (atan2 (ty - ey) (tx - ex)) in
  exists s' id,
    face penner el tx ty speed o now s = Some (s', id) /\
    Easing.duration (Easing.options (heap s' id)) = Rabs (a - r) / speed /\
    Easing.eases (heap s' id) =
      [Easing.mkEase el "rotation" (Easing.UOne "rotation") (VNum r) (VNum a) (VNum (a - r))] /\
    (r = 0 -> Easing.duration (Easing.options (heap s' id)) = Rabs a / speed).
Proof.
  intros Hr Hx Hy a. unfold face, number_field. rewrite Hr, Hx, Hy. cbn [to_number].
  fold (face_angle r ex ey tx ty). change (face_angle r ex ey tx ty) with a.
  set (params := [("rotation", VNum a)]).
  set (ov := set_duration o _).
  exists (fst (add penner [el] params ov now s)), (snd (add penner [el] params ov now s)).
  split; [f_equal; apply surjective_pairing|].
  destruct (add_collection penner [el] params ov now s) as (_ & _ & _ & A4).
  rewrite A4.
  assert (Hh : heap (fst (add penner [el] params ov now s)) (allocated s) =
               Easing.create (sys_world s) [el] params (merge penner (options (group s)) ov)).
  { unfold add. destruct s as [w hp al [op l em h lt] pend iss tl ls]. cbn.
    destruct (em && useRAF op); cbn; now rewrite Nat.eqb_refl. }
  rewrite Hh. unfold Easing.create, params. cbn [Easing.options Easing.eases Easing.time].
  split; [reflexivity|]. split.
  - cbn [flat_map map fst snd app]. unfold Easing.addParam. cbn. now rewrite Hr.
  - intros ->. cbn. now rewrite Rminus_0_r.
Qed.

End RemoveAdd.

(** ** The end of a plain session *)

Section Goals.

Import Easing Blend Goal.

Lemma blend_at_last this colors c :
  reverse (options this) = false ->
  repeat_truthy (repeat (options this)) = false ->
  colors <> [] ->
  nth (List.length colors - 1) colors VUndef = VNum (IZR c) -> (0 <= c < 2 ^ 24)%Z ->
  blend_at this colors (IZR (Z.of_nat (List.length colors))) = c.
Proof.
  intros Hrev Hrep Hne Hc Hz. rewrite blend_at_parts. cbv zeta.
  rewrite ZfloorZ, Z.eqb_refl.
  set (len := Z.of_nat (List.length colors)).
  assert (Hlen : (0 < len)%Z) by (unfold len; destruct colors; [contradiction | cbn; lia]).
  assert (Hn : next_index this len (len - 1) = (len - 1)%Z).
  { unfold next_index. replace (len - 1 + 1)%Z with len by lia.
    now rewrite Z.eqb_refl, Hrev, Hrep. }
  rewrite Hn, (color_at_packed colors (len - 1) c); try assumption; try lia.
  - replace (IZR len - IZR (len - 1)) with 1 by (rewrite minus_IZR; lra).
    now apply blend_pair_1.
  - replace (Z.to_nat (len - 1)) with (List.length colors - 1)%nat by (unfold len; lia).
    exact Hc.
Qed.

Section AtTheEnd.

Variable this : Easing.t.
Hypothesis at_end : time this = duration (options this).
Hypothesis convention : conventional (ease (options this)) (duration (options this)).
Hypothesis forward : reverse (options this) = false.
Hypothesis once : repeat_truthy (repeat (options this)) = false.

Lemma scalar_at_end s d : call_ease this (VNum s) (VNum d) = Some (s + d).
Proof.
  unfold call_ease. cbn [to_number]. rewrite at_end.
  now rewrite (proj2 (convention _ _)).
Qed.

(** Run at the end of the phase, a binding writes its goal. *)
Lemma run_goal e w s :
  aimed e -> pointy w e -> In s (slots e) ->
  look (run this e w) (element e) s = goal e s.
Proof.
  intros [[Hshake He] Ha] Hpt Hin.
  unfold run, slots, goal in *.
  destruct (ease_update e) eqn:Hu.
  - destruct He as (Hp & Hk & s0 & g & Hs & Hg & Hd).
    destruct Hin as [<-|[]].
    unfold updateCoord, look. rewrite read_write_same, Hs, Hd, scalar_at_end, Hg.
    cbn [of_number].
    pose proof (pointy_field w e name Hpt Hk) as Hpoint.
    destruct coord.
    + rewrite (proj1 (get_set_x _ _ Hpoint)). f_equal. lra.
    + rewrite (proj1 (get_set_y _ _ Hpoint)). f_equal. lra.
  - destruct He as (Hp & Hc & n & Hs & Hg & Hd).
    destruct Hin as [<-|[]].
    rewrite Hg in Ha. injection Ha as ->.
    unfold updateTint, look. rewrite read_write_same.
    unfold tint_index. rewrite Hs, Hd, scalar_at_end. cbn [option_map].
    replace (0 + INR (List.length colors)) with (IZR (Z.of_nat (List.length colors)))
      by (rewrite <- INR_IZR_INZ; lra).
    rewrite ZfloorZ. unfold clamp_index. rewrite Z.eqb_refl. unfold js_index.
    destruct colors as [|c0 colors]; [contradiction|].
    destruct (Z.ltb_spec (Z.of_nat (List.length (c0 :: colors)) - 1) 0) as [H|_];
      [cbn [List.length] in H; lia|].
    f_equal. cbn [List.length]. lia.
  - destruct He as (Hp & (z0 & Hz0 & _) & n & Hs & Hg & Hd).
    destruct Ha as [Hto (z & Hz & Hzb)].
    destruct Hin as [<-|[]].
    rewrite Hg in Hto. injection Hto as ->.
    unfold updateBlend, look. rewrite Hs, Hd, scalar_at_end, read_write_same.
    replace (0 + INR (List.length colors)) with (IZR (Z.of_nat (List.length colors)))
      by (rewrite <- INR_IZR_INZ; lra).
    rewrite (blend_at_last this colors z); try assumption; [now rewrite Hz|].
    intros ->. discriminate.
  - contradiction.
  - destruct He as (Hp & sx & sy & gx & gy & Hs & Hg & Hd).
    unfold updatePosition. rewrite Hs, Hg, Hd. cbn [get_x get_y].
    rewrite !scalar_at_end. cbn [of_number].
    destruct Hin as [<-|[<-|[]]]; cbn [look slot_key String.eqb Ascii.eqb Bool.eqb].
    + rewrite read_write_other by (right; discriminate).
      rewrite read_write_same. f_equal. lra.
    + rewrite read_write_same. f_equal. lra.
  - destruct He as (Hp & Hk & s0 & g & Hs & Hg & Hd).
    pose proof (pointy_field w e entry0 Hpt Hk) as Hpoint.
    unfold updatePoint. rewrite Hs, Hd, scalar_at_end, Hg. cbn [of_number].
    assert (Hpoint' : is_point (set_y (read w (element e) entry0)
                                      (VNum (s0 + (g - s0)))) = true)
      by now rewrite is_point_set_y.
    destruct Hin as [<-|[<-|[]]]; unfold look; rewrite read_write_same.
    + rewrite (proj1 (get_set_x _ _ Hpoint')). f_equal. lra.
    + rewrite get_y_set_x, (proj1 (get_set_y _ _ Hpoint)). f_equal. lra.
  - destruct He as (Hp & Hk & s0 & g & Hs & Hg & Hd).
    destruct Hin as [<-|[]].
    unfold updateOne, look. rewrite Hs, Hd, scalar_at_end, Hg, read_write_same.
    cbn [of_number]. f_equal. lra.
Qed.

Lemma run_rest_keeps b l2 : forall w s,
  Forall (fun b' => clash b b' = false) l2 -> In s (slots b) ->
  look (fold_left (fun w e => run this e w) l2 w) (element b) s = look w (element b) s.
Proof.
  induction l2 as [|b' l2 IH]; intros w s Hc Hs; cbn; [reflexivity|].
  inversion Hc; subst. rewrite IH by assumption.
  apply run_look_frame. intros Hel a Ha. eapply clash_free; eassumption.
Qed.

Lemma run_all_goal l1 b l2 w s :
  sound w (l1 ++ b :: l2) -> aimed b ->
  Forall (fun b' => clash b b' = false) l2 -> In s (slots b) ->
  look (fold_left (fun w e => run this e w) (l1 ++ b :: l2) w) (element b) s = goal b s.
Proof.
  intros Hs Hb Hc Hin.
  assert (Hs1 : sound (fold_left (fun w e => run this e w) l1 w) (l1 ++ b :: l2)).
  { pose proof Hs as (Hst & _ & Hta).
    apply run_all_sound; [assumption | |].
    - now apply Forall_app in Hst.
    - now apply Forall_app in Hta. }
  rewrite fold_left_app. cbn [fold_left].
  rewrite run_rest_keeps by assumption.
  apply run_goal; try assumption.
  destruct Hs1 as (_ & Hp & _).
  apply Forall_app in Hp. destruct Hp as [_ Hp]. now inversion Hp.
Qed.

End AtTheEnd.

(** X25: a session without reverse and without repeat, whose bindings
    follow the curve on targets that are not destroyed, and whose curve
    follows the convention: the update that reaches or passes the
    duration is the one that reports finished; it notifies 'each' and
    then 'complete', leaves the clock at the duration, and leaves every
    slot of every binding on its goal (for a colour sequence its last
    colour), however far the frame overshoots, unless a later binding of
    the session writes the same slot. *)
Theorem plain_session_ends_on_goals (this : Easing.t) (w : world) (elapsed : R) :
  live this w ->
  Forall (pointy w) (eases this) ->
  Forall aimed (eases this) ->
  reverse (options this) = false ->
  repeat_truthy (repeat (options this)) = false ->
  wait_active (options this) = false ->
  conventional (ease (options this)) (duration (options this)) ->
  time this + elapsed >= duration (options this) ->
  let r := update this elapsed w in
  finished r = true /\ events r = [EvEach; EvComplete] /\
  time (session r) = duration (options this) /\
  forall l1 b l2,
    eases this = l1 ++ b :: l2 ->
    Forall (fun b' => clash b b' = false) l2 ->
    forall s, In s (slots b) -> look (after r) (element b) s = goal b s.
Proof.
  intros [Hne Hst] Hpt Haim Hrev Hrep Hwait Hconv Hge r. subst r.
  assert (Heased : Forall eased (eases this))
    by (eapply Forall_impl; [|exact Haim]; now intros e [He _]).
  rewrite (update_running _ _ _ Hne Hwait).
  rewrite (advance_crossing _ _ _ _ Hge). cbv zeta.
  rewrite update_loop_stays by assumption.
  unfold boundary. cbn [options set_eases set_time eases time].
  rewrite Hrev, Hrep.
  rewrite complete_all_other
    by (eapply Forall_impl; [|exact Heased]; now intros e [He _]).
  cbn [finished events session after time set_time set_eases app].
  repeat split.
  intros l1 b l2 Hl Hclash s Hs.
  pose proof (run_all_goal (set_time this (duration (options this))) eq_refl Hconv Hrev Hrep
                           l1 b l2 w s) as Hgoal.
  rewrite <- Hl in Hgoal. apply Hgoal; try assumption.
  - repeat split; try assumption.
    eapply Forall_impl; [|exact Heased]. apply eased_tame.
  - rewrite Hl in Haim. apply Forall_app in Haim.
    destruct Haim as [_ H]. now inversion H.
Qed.

End Goals.

(** ** The notifications of an update *)

Section Notifications.

Import Easing Schedule.

Lemma advance_notifies this elapsed w evs :
  exists post,
    events (advance this elapsed w evs) = evs ++ [EvEach] ++ post /\
    closing post (finished (advance this elapsed w evs)).
Proof.
  unfold advance.
  set (this0 := set_time this (time this + elapsed)).
  set (over := Rgeb (time this0) (duration (options this0))).
  set (this1 := if over then set_time this0 (duration (options this0)) else this0).
  destruct (update_loop this1 (eases this1) w) as [kept w'].
  destruct (Rgeb (time (set_eases this1 kept)) _).
  - unfold boundary.
    destruct (reverse (options (set_eases this1 kept))).
    + exists [EvReverse]. cbn [events finished]. rewrite <- app_assoc.
      split; [reflexivity|]. unfold closing. tauto.
    + destruct (repeat_truthy (repeat (options (set_eases this1 kept)))).
      * exists [EvRepeat]. cbn [events finished]. rewrite <- app_assoc.
        split; [reflexivity|]. unfold closing. tauto.
      * exists [EvComplete]. cbn [events finished]. rewrite <- app_assoc.
        split; [reflexivity|]. unfold closing. tauto.
  - exists []. cbn [events finished]. split; [reflexivity|]. unfold closing. tauto.
Qed.

(** X26: the notifications of one update are, in this order: nothing at
    all for a session without bindings, which is reported finished;
    'wait' alone while the wait lasts; otherwise 'wait-end' if the wait
    ends in this update, then 'each', then at most one of 'reverse',
    'repeat' and 'complete'.  Apart from the session without bindings,
    the update reports finished exactly when it notifies 'complete'. *)
Theorem update_notifies_in_order (this : Easing.t) (elapsed : R) (w : world) :
  let r := update this elapsed w in
  (eases this = [] /\ events r = [] /\ finished r = true) \/
  (events r = [EvWait] /\ finished r = false) \/
  exists pre post,
    events r = pre ++ [EvEach] ++ post /\
    (pre = [] \/ pre = [EvWaitEnd]) /\
    closing post (finished r).
Proof.
  intros r. subst r. unfold update.
  destruct (eases this) as [|e0 l0] eqn:He; cbn [is_nil]; [left; now repeat split|].
  right.
  destruct (wait_active (options this)).
  - destruct (Rgtb _ 0); [left; now split|]. right.
    match goal with
    | |- context [advance ?t ?e w ?evs] =>
        destruct (advance_notifies t e w evs) as (post & E & C)
    end.
    exists [EvWaitEnd], post. repeat split; try assumption. now right.
  - right. destruct (advance_notifies this elapsed w []) as (post & E & C).
    exists [], post. repeat split; try assumption. now left.
Qed.

End Notifications.

(** ** Facing a point *)

Section Facing.

Import Easing.

(** X27: the binding [addParam] builds for 'face' eases the rotation
    from where it is to the value of [shortestAngle], which is the
    rotation still to be made, not the direction of the point: the goal
    lies in [-PI, PI), and it is the goal plus the start that is the
    bearing of the point, whole turns apart. *)
Theorem face_binding_goal (w : world) (el : nat) (px py r ex ey : R) :
  read w el "rotation" = VNum r ->
  read w el "x" = VNum ex ->
  read w el "y" = VNum ey ->
  let e := addParam w el "face" (VPt (VNum px) (VNum py)) in
  exists g : R, exists k : Z,
    e = mkEase el "face" (UOne "rotation") (VNum r) (VNum g) (VNum (g - r)) /\
    - PI <= g < PI /\
    g + r = atan2 (py - ey) (px - ex) + IZR k * (2 * PI).
Proof.
  intros Hr Hx Hy e. subst e.
  exists (shortestAngle r (atan2 (py - ey) (px - ex))).
  destruct (shortestAngle_congr r (atan2 (py - ey) (px - ex))) as [k Hk].
  exists k. split; [|split].
  - unfold addParam. cbn. rewrite Hr, Hx, Hy. reflexivity.
  - apply shortestAngle_range.
  - lra.
Qed.

End Facing.

(** ** The properties at work *)

Section AtWork.

Import Easing.

Lemma update_writes_its_footprint_witness :
  read (after (update Scenario.looping 4 Scenario.facing_world)) 0 "rotation" =
  read Scenario.facing_world 0 "rotation".
Proof.
  apply update_writes_its_footprint.
  intros e [<-|[]] _. cbn. intros [H|[H|[]]]; discriminate.
Defined.

Lemma update_spares_destroyed_witness :
  read (after (update Cases.orphan 16 Cases.gone_world)) 0 "x" =
  read Cases.gone_world 0 "x".
Proof. apply update_spares_destroyed. reflexivity. Defined.

Lemma update_drops_destroyed_witness :
  let r := update Cases.orphan 16 Cases.gone_world in
  eases (session r) = [] /\ after r = Cases.gone_world /\
  forall elapsed' w', update (session r) elapsed' w' = mkResult (session r) w' [] true.
Proof.
  apply update_drops_destroyed.
  - repeat constructor.
  - reflexivity.
Defined.

Lemma pendulum_live : live Cases.pendulum Scenario.facing_world.
Proof.
  split; [cbn; congruence|].
  constructor; [|constructor].
  split; [reflexivity|]. split; cbn; intros [H|[]]; discriminate.
Defined.

Lemma reverse_count_phases_witness :
  phase_events (play Cases.pendulum Scenario.facing_world [10; 10; 10; 10; 10]) =
    firstn (crossings 10 None 0 [10; 10; 10; 10; 10])
           ([EvReverse; EvReverse; EvReverse] ++ [EvComplete]).
Proof.
  destruct (reverse_count_phases Cases.pendulum Scenario.facing_world
                                 [10; 10; 10; 10; 10] 2 2 pendulum_live eq_refl eq_refl)
    as [H _].
  - simpl. lra.
  - exact H.
Defined.

Lemma fraction_live : live Cases.fraction Scenario.facing_world.
Proof.
  split; [cbn; congruence|].
  constructor; [|constructor].
  split; [reflexivity|]. split; cbn; intros [H|[]]; discriminate.
Defined.

Lemma half_is_no_count (n : nat) : 1 / 2 <> INR n.
Proof.
  destruct n as [|n]; [simpl; lra|].
  rewrite S_INR. pose proof (pos_INR n). lra.
Qed.

Lemma unending_repeat_never_finishes_witness :
  Forall (fun r => finished r = false)
         (play Cases.fraction Scenario.facing_world [10; 10; 10]).
Proof.
  destruct (unending_repeat_never_finishes Cases.fraction Scenario.facing_world
                                           [10; 10; 10] fraction_live) as [_ H].
  - exact half_is_no_count.
  - exact H.
Defined.

Lemma wait_then_excess_witness :
  exists rs,
    play Cases.waiting Scenario.facing_world ([10; 10] ++ [16]) =
      rs ++ [advance (set_options Cases.waiting (set_wait (options Cases.waiting) 0))
                     (fold_right Rplus 0 [10; 10] + 16 - 30) Scenario.facing_world
                     [EvWaitEnd]] /\
    List.length rs = 2%nat.
Proof.
  destruct (wait_then_excess [10; 10] Cases.waiting Scenario.facing_world 30 16)
    as (rs & H1 & H2 & _).
  - cbn. congruence.
  - reflexivity.
  - repeat constructor; lra.
  - cbn. lra.
  - exists rs. split; [exact H1 | exact H2].
Defined.

Lemma blend_between_neighbours_witness :
  (0 <= blend_at Scenario.tint_linear Scenario.tint_colors (1 / 2) < 2 ^ 24)%Z.
Proof.
  pose proof (blend_between_neighbours Scenario.tint_linear Scenario.tint_colors (1 / 2)
                                       0 0xff0000 0x00ff00) as H.
  cbv zeta in H. unfold Blend.channels in H.
  apply H; try reflexivity; try (simpl; lia); try (simpl; lra).
Defined.

Lemma blend_at_colour_witness :
  blend_at Scenario.tint_linear Scenario.tint_colors (IZR 1) = 0x00ff00%Z.
Proof.
  apply blend_at_colour; [simpl; lia | reflexivity | lia].
Defined.

Lemma blend_at_end_witness :
  blend_at Scenario.tint_linear Scenario.tint_colors
           (IZR (Z.of_nat (List.length Scenario.tint_colors))) = 0x00ff00%Z.
Proof.
  apply (blend_at_end Scenario.tint_linear Scenario.tint_colors 0x00ff00);
    [simpl; lia | reflexivity | lia].
Defined.

Lemma shake_stays_near_witness :
  exists dx dy : Z,
    read (run Scenario.shaking Cases.shake_ease Scenario.shake_world) 0 "x"
      = VNum (7 + IZR dx) /\
    read (run Scenario.shaking Cases.shake_ease Scenario.shake_world) 0 "y"
      = VNum (9 + IZR dy) /\
    - (10 / 2) <= IZR dx < 10 / 2 + 1 /\
    - (10 / 2) <= IZR dy < 10 / 2 + 1.
Proof.
  destruct (shake_stays_near Scenario.shaking Cases.shake_ease Scenario.shake_world 7 9 10)
    as (dx & dy & H1 & H2 & H3 & H4 & _).
  - reflexivity.
  - reflexivity.
  - reflexivity.
  - lra.
  - intros i. unfold Scenario.shake_world, Scenario.zeros. cbn. lra.
  - exists dx, dy. repeat split; assumption || apply H3 || apply H4.
Defined.

Lemma x_ease_eased : eased Cases.x_ease.
Proof.
  split; [discriminate|]. cbn.
  split; [discriminate|]. split; [reflexivity|].
  eexists; eexists; repeat split; reflexivity.
Defined.

Lemma reverse_ease_twice_witness :
  reverse_ease (reverse_ease Cases.x_ease) = Cases.x_ease.
Proof. apply reverse_ease_twice. exact x_ease_eased. Defined.

Lemma plain_session_ends_on_goals_witness :
  let r := update Cases.plain 1016 Scenario.shake_world in
  finished r = true /\
  read (after r) 0 "x" = VNum 100 /\
  get_x (read (after r) 0 "scale") = VNum 2.
Proof.
  destruct (plain_session_ends_on_goals Cases.plain Scenario.shake_world 1016)
    as (Hf & _ & _ & Hgoal).
  - split; [cbn; congruence|].
    repeat constructor; cbn; intros [H|[]]; discriminate.
  - repeat constructor.
  - repeat constructor; cbn; try discriminate; try reflexivity;
      eexists; eexists; repeat split; reflexivity.
  - reflexivity.
  - reflexivity.
  - reflexivity.
  - apply linear_conventional. cbn. lra.
  - cbn. lra.
  - split; [exact Hf|].
    assert (Hx := Hgoal [] _ _ eq_refl ltac:(repeat constructor)
                        (Whole "x") ltac:(cbn; auto)).
    assert (Hs := Hgoal [_] _ [] eq_refl (Forall_nil _)
                        (Part "scale" X) ltac:(cbn; auto)).
    split; [exact Hx | exact Hs].
Defined.

Lemma face_binding_goal_witness :
  exists g : R, exists k : Z,
    addParam Scenario.facing_world 0 "face" (VPt (VNum 0) (VNum 1)) =
      mkEase 0 "face" (UOne "rotation") (VNum (PI / 2)) (VNum g) (VNum (g - PI / 2)) /\
    - PI <= g < PI /\
    g + PI / 2 = atan2 (1 - 0) (0 - 0) + IZR k * (2 * PI).
Proof.
  apply (face_binding_goal Scenario.facing_world 0 0 1 (PI / 2) 0 0); reflexivity.
Defined.

End AtWork.

Section GroupsAtWork.

Import Ease Group.

Lemma tick_updates_each_once_witness :
  let elapsed := frame_time 0 0 10 Cases.trio in
  let vs := visits elapsed (heap Cases.trio) (sys_world Cases.trio)
                   (easings (group Cases.trio)) in
  easings (group (update Cases.straight 0 0 10 Cases.trio)) = unfinished vs.
Proof.
  destruct (tick_updates_each_once Cases.straight 0 0 10 Cases.trio)
    as (_ & _ & H & _).
  - intros id ev. reflexivity.
  - assert (E : easings (group Cases.trio) = [0; 1; 2]%nat) by reflexivity.
    rewrite E. repeat constructor; cbn; intuition discriminate.
  - reflexivity.
  - exact H.
Defined.

Lemma looper_live w :
  read w 0 "_destroyed" = VBool false -> Easing.live Cases.looper w.
Proof.
  intros Hw. split; [cbn; congruence|].
  constructor; [|constructor].
  split; [cbn; now rewrite Hw|]. split; cbn; intros [H|[]]; discriminate.
Defined.

Lemma ticked_goes_on :
  easings (group (tick Cases.straight 10 10 Cases.ticked)) <> [].
Proof.
  assert (Et : tick Cases.straight 10 10 Cases.ticked =
               update Cases.straight 0 10 10 Cases.ticked) by reflexivity.
  rewrite Et.
  destruct (update_visits Cases.straight 0 10 10 Cases.ticked) as (_ & _ & H & _).
  - intros id ev. reflexivity.
  - assert (E : easings (group Cases.ticked) = [0%nat]) by reflexivity.
    rewrite E. repeat constructor. intros [].
  - reflexivity.
  - rewrite H.
    assert (E : easings (group Cases.ticked) = [0%nat]) by reflexivity.
    rewrite E. cbn [visits]. unfold unfinished. cbn [filter snd].
    assert (Hh : heap Cases.ticked 0 = Cases.looper) by reflexivity.
    assert (Hw : sys_world Cases.ticked = Scenario.three_world) by reflexivity.
    rewrite Hh, Hw.
    destruct (play_forever [frame_time 0 10 10 Cases.ticked] Cases.looper
                           Scenario.three_world) as [_ Hf];
      [now apply looper_live | reflexivity | reflexivity |].
    cbn [Easing.play] in Hf. apply Forall_inv in Hf.
    rewrite Hf. discriminate.
Defined.

Lemma ticker_tick_requests_frame_witness :
  raf_pending (tick Cases.straight 10 10 Cases.ticked) = [2; 1]%nat.
Proof.
  destruct (ticker_tick_requests_frame Cases.straight 10 10 Cases.ticked) as [H _].
  - intros id ev. reflexivity.
  - reflexivity.
  - reflexivity.
  - exact ticked_goes_on.
  - exact H.
Defined.

Lemma add_counts_witness :
  countRunning (fst (add Cases.straight [0; 1]%nat [("x", VNum 1); ("y", VNum 2)]
                         no_overrides 0 Cases.fresh)) = (0 + 2 * 2)%nat.
Proof.
  destruct (add_counts Cases.straight [0; 1]%nat [("x", VNum 1); ("y", VNum 2)]
                       no_overrides 0 Cases.fresh) as (_ & _ & _ & H & _).
  - constructor.
  - exact H.
Defined.

Lemma target_heads_for_the_point_witness :
  exists s' id,
    target Cases.straight 0 3 4 1 no_overrides 0 Cases.fresh = Some (s', id) /\
    Easing.duration (Easing.options (heap s' id)) =
      sqrt ((0 - 3) ^ 2 + (0 - 4) ^ 2) / 1.
Proof.
  destruct (target_heads_for_the_point Cases.straight 0 3 4 1 0 0 0 no_overrides Cases.fresh)
    as (s' & id & H1 & H2 & _).
  - reflexivity.
  - reflexivity.
  - exists s', id. split; [exact H1 | exact H2].
Defined.


Lemma face_session_witness :
  exists s' id,
    face Cases.straight 0 0 1 1 no_overrides 0 Cases.fresh = Some (s', id) /\
    Easing.duration (Easing.options (heap s' id)) =
      Rabs (Easing.shortestAngle (PI / 2) (atan2 (1 - 0) (0 - 0)) - PI / 2) / 1.
Proof.
  destruct (face_session Cases.straight 0 0 1 1 0 (PI / 2) 0 0 no_overrides Cases.fresh)
    as (s' & id & H1 & H2 & _).
  - reflexivity.
  - reflexivity.
  - reflexivity.
  - exists s', id. split; [exact H1 | exact H2].
Defined.

End GroupsAtWork.
